(** * shop/models.py: the catalogue and order schema

    The repository is a single Django module, [shop/models.py].  It declares
    twelve tables (eleven models of its own and [auth.User], which it refers
    to), their fields, validators, deletion policies and uniqueness
    constraints, and four query helpers on [ProductQuerySet].

    The development has two layers.

    - [Schema]: the declarations of [models.py], transcribed field by field
      with the keyword arguments they are written with.
    - [Orm]: the behaviour Django gives to such declarations, as functions
      over a database state: model validation ([full_clean]), row insertion
      ([save]), deletion with its collector ([delete]), lookup resolution
      ([names_to_path]), [filter] and [annotate].

    The statements at the end are about the helpers and tables of
    [models.py] run through that behaviour. *)

From stdpp Require Import base option list strings gmap.
From Stdlib Require Import Ascii ZArith QArith Qreduction Lia.

Local Open Scope string_scope.
Local Open Scope list_scope.
Local Open Scope Z_scope.

(** ** Values

    What a model attribute or a table cell holds.  A [Decimal] and a float
    are both kept as the rational they denote; the result of a rounding is
    stored reduced ([Qred]) so that equal numbers are equal terms. *)

Inductive value :=
  | VNone
  | VBool (b : bool)
  | VInt (z : Z)
  | VStr (s : string)
  | VDecimal (q : Q)
  | VFloat (q : Q)
  | VDateTime (t : Z).

#[global] Instance Q_eq_dec : EqDecision Q.
Proof. solve_decision. Defined.

#[global] Instance value_eq_dec : EqDecision value.
Proof. solve_decision. Defined.

(** ** The declarations *)

Module Schema.

Inductive model :=
  | User
  | Category
  | Supplier
  | Product
  | ProductDetail
  | ProductSupplier
  | Tag
  | ProductTag
  | Customer
  | Order
  | OrderItem
  | Review.

#[global] Instance model_eq_dec : EqDecision model.
Proof. solve_decision. Defined.

Definition model_index (m : model) : nat :=
  match m with
  | User => 0 | Category => 1 | Supplier => 2 | Product => 3
  | ProductDetail => 4 | ProductSupplier => 5 | Tag => 6 | ProductTag => 7
  | Customer => 8 | Order => 9 | OrderItem => 10 | Review => 11
  end%nat.

Definition model_of_index (n : nat) : option model :=
  match n with
  | 0 => Some User | 1 => Some Category | 2 => Some Supplier | 3 => Some Product
  | 4 => Some ProductDetail | 5 => Some ProductSupplier | 6 => Some Tag
  | 7 => Some ProductTag | 8 => Some Customer | 9 => Some Order
  | 10 => Some OrderItem | 11 => Some Review | _ => None
  end%nat.

#[global] Instance model_countable : Countable model.
Proof. apply (inj_countable model_index model_of_index). by intros []. Defined.

Definition all_models : list model :=
  [User; Category; Supplier; Product; ProductDetail; ProductSupplier; Tag;
   ProductTag; Customer; Order; OrderItem; Review].

(** [Model._meta.model_name]: the class name in lower case. *)
Definition model_name (m : model) : string :=
  match m with
  | User => "user"
  | Category => "category"
  | Supplier => "supplier"
  | Product => "product"
  | ProductDetail => "productdetail"
  | ProductSupplier => "productsupplier"
  | Tag => "tag"
  | ProductTag => "producttag"
  | Customer => "customer"
  | Order => "order"
  | OrderItem => "orderitem"
  | Review => "review"
  end.

Inductive deletion := CASCADE | PROTECT | SET_NULL.

Inductive validator :=
  | MinValueValidator (limit_value : Z)
  | MaxValueValidator (limit_value : Z)
  | MaxLengthValidator (limit_value : nat)
  | DecimalValidator (digits places : nat)
  | EmailValidator.

Inductive default_value :=
  | Value (v : value)
  | timezone_now.

Inductive field_type :=
  | AutoField
  | CharField
  | TextField
  | EmailField
  | BooleanField
  | IntegerField
  | PositiveIntegerField
  | DecimalField
  | DateTimeField
  | ForeignKey (to : model)
  | OneToOneField (to : model)
  | ManyToManyField (to : model).

(** The keyword arguments the module passes to its fields. *)
Inductive kwarg :=
  | primary_key (b : bool)
  | max_length (n : nat)
  | max_digits (n : nat)
  | decimal_places (n : nat)
  | null (b : bool)
  | blank (b : bool)
  | unique (b : bool)
  | db_index (b : bool)
  | default_ (d : default_value)
  | auto_now (b : bool)
  | auto_now_add (b : bool)
  | verbose_name (s : string)
  | validators (vs : list validator)
  | choices (cs : list (string * string))
  | on_delete (p : deletion)
  | related_name (s : string)
  | through (m : model).

Record field := Field { f_name : string; f_type : field_type; f_kwargs : list kwarg }.

(** [class Order.Status(models.TextChoices)]: each member is a value and a
    label. *)
Module Status.
Inductive t := PENDING | COMPLETED | SHIPPED | CANCELLED.

Definition value (s : t) : string :=
  match s with
  | PENDING => "pending"
  | COMPLETED => "completed"
  | SHIPPED => "shipped"
  | CANCELLED => "cancelled"
  end.

Definition label (s : t) : string :=
  match s with
  | PENDING => "pending"
  | COMPLETED => "completed"
  | SHIPPED => "shipped"
  | CANCELLED => "cancelled"
  end.

Definition members : list t := [PENDING; COMPLETED; SHIPPED; CANCELLED].

Definition choices : list (string * string) :=
  map (λ s, (value s, label s)) members.
End Status.

(** The primary key Django adds to a model that declares none. *)
Definition id_field : field := Field "id" AutoField [primary_key true].

(** [class TimeStampedModel(models.Model)], abstract. *)
Definition TimeStampedModel : list field :=
  [ Field "created_at" DateTimeField [auto_now_add true; verbose_name "Создано"];
    Field "updated_at" DateTimeField [auto_now true; verbose_name "Обновлено"] ].

(** [class TrackedModel(TimeStampedModel)], abstract; [cls] is the model that
    inherits it, whose lower-case name fills ["created_%(class)s"]. *)
Definition TrackedModel (cls : model) : list field :=
  TimeStampedModel ++
  [ Field "created_by" (ForeignKey User)
      [on_delete SET_NULL; null true; blank true;
       related_name ("created_" +:+ model_name cls)];
    Field "is_active" BooleanField [default_ (Value (VBool true)); db_index true] ].

(** The fields each class body declares, after those it inherits. *)
Definition declared_fields (m : model) : list field :=
  match m with
  | User => []
  | Category =>
      TrackedModel Category ++
      [ Field "name" CharField [max_length 100; unique true; db_index true];
        Field "description" TextField [blank true];
        Field "main_supplier" (ForeignKey Supplier)
          [on_delete SET_NULL; null true; blank true; related_name "main_categories"] ]
  | Supplier =>
      TrackedModel Supplier ++
      [ Field "company_name" CharField [max_length 200; unique true; db_index true];
        Field "contact_name" CharField [max_length 100; blank true];
        Field "phone" CharField [max_length 20; blank true];
        Field "email" EmailField [blank true];
        Field "address" TextField [blank true] ]
  | Product =>
      TrackedModel Product ++
      [ Field "name" CharField [max_length 200];
        Field "description" TextField [blank true];
        Field "price" DecimalField
          [max_digits 10; decimal_places 2; validators [MinValueValidator 0]];
        Field "category" (ForeignKey Category) [on_delete PROTECT; related_name "products"];
        Field "stock_quantity" PositiveIntegerField
          [default_ (Value (VInt 0)); db_index true];
        Field "suppliers" (ManyToManyField Supplier)
          [through ProductSupplier; related_name "products"] ]
  | ProductDetail =>
      TimeStampedModel ++
      [ Field "product" (OneToOneField Product) [on_delete CASCADE; related_name "details"];
        Field "weight_kg" DecimalField
          [max_digits 8; decimal_places 3; null true; blank true];
        Field "dimensions" CharField [max_length 50; blank true];
        Field "manufacturer" CharField [max_length 100; blank true];
        Field "warranty_months" PositiveIntegerField [null true; blank true] ]
  | ProductSupplier =>
      TimeStampedModel ++
      [ Field "product" (ForeignKey Product)
          [on_delete CASCADE; related_name "product_suppliers"];
        Field "supplier" (ForeignKey Supplier)
          [on_delete CASCADE; related_name "product_suppliers"];
        Field "purchase_price" DecimalField
          [max_digits 10; decimal_places 2; validators [MinValueValidator 0]];
        Field "delivery_days" PositiveIntegerField [default_ (Value (VInt 0))] ]
  | Tag =>
      TimeStampedModel ++
      [ Field "name" CharField [max_length 50; unique true; db_index true];
        Field "description" TextField [blank true] ]
  | ProductTag =>
      [ Field "product" (ForeignKey Product)
          [on_delete CASCADE; related_name "product_tags"];
        Field "tag" (ForeignKey Tag) [on_delete CASCADE; related_name "product_tags"] ]
  | Customer =>
      TrackedModel Customer ++
      [ Field "first_name" CharField [max_length 100; db_index true];
        Field "last_name" CharField [max_length 100; db_index true];
        Field "email" EmailField [unique true];
        Field "phone" CharField [max_length 20; blank true];
        Field "registration_date" DateTimeField [default_ timezone_now; db_index true] ]
  | Order =>
      TrackedModel Order ++
      [ Field "customer" (ForeignKey Customer) [on_delete PROTECT; related_name "orders"];
        Field "order_date" DateTimeField [default_ timezone_now; db_index true];
        Field "total_amount" DecimalField
          [max_digits 10; decimal_places 2; validators [MinValueValidator 0]];
        Field "status" CharField
          [max_length 20; choices Status.choices;
           default_ (Value (VStr (Status.value Status.PENDING))); db_index true] ]
  | OrderItem =>
      TimeStampedModel ++
      [ Field "order" (ForeignKey Order) [on_delete CASCADE; related_name "items"];
        Field "product" (ForeignKey Product) [on_delete PROTECT; related_name "order_items"];
        Field "quantity" PositiveIntegerField [validators [MinValueValidator 1]];
        Field "unit_price" DecimalField
          [max_digits 10; decimal_places 2; validators [MinValueValidator 0]] ]
  | Review =>
      TimeStampedModel ++
      [ Field "product" (ForeignKey Product) [on_delete CASCADE; related_name "reviews"];
        Field "customer" (ForeignKey Customer) [on_delete CASCADE; related_name "reviews"];
        Field "rating" IntegerField
          [validators [MinValueValidator 1; MaxValueValidator 5]; db_index true];
        Field "comment" TextField [blank true] ]
  end.

(** [Model._meta.get_fields()], forward part: the primary key first. *)
Definition fields (m : model) : list field := id_field :: declared_fields m.

(** [class Meta: constraints = [...]]. *)
Inductive constraint :=
  | UniqueConstraint (fields : list string) (name : string).

Definition constraints (m : model) : list constraint :=
  match m with
  | Product => [UniqueConstraint ["name"; "category"] "uniq_product_in_category"]
  | ProductSupplier => [UniqueConstraint ["product"; "supplier"] "uniq_product_supplier"]
  | ProductTag => [UniqueConstraint ["product"; "tag"] "uniq_product_tag"]
  | OrderItem => [UniqueConstraint ["order"; "product"] "uniq_order_product"]
  | _ => []
  end.

End Schema.

(** ** What Django does with the declarations *)

Module Orm.
Import Schema.

(** *** Errors and results *)

Inductive integrity := NotNull | Check | Unique | ForeignKeyViolation.

Inductive error :=
  | FieldError (keyword : string)
  | ValueError (keyword : string)
  | NotModelled (what : string)
  | ValidationError (field code : string)
  | IntegrityError (kind : integrity) (name : string)
  | ProtectedError (referrer : model) (field : string).

#[global] Instance integrity_eq_dec : EqDecision integrity.
Proof. solve_decision. Defined.

#[global] Instance error_eq_dec : EqDecision error.
Proof. solve_decision. Defined.

Inductive result (A : Type) :=
  | Ok (a : A)
  | Err (e : error).
Arguments Ok {A} a.
Arguments Err {A} e.

#[global] Instance result_ret : MRet result := λ A a, Ok a.
#[global] Instance result_bind : MBind result :=
  λ A B k x, match x with Ok a => k a | Err e => Err e end.

Fixpoint mapM_result {A B} (f : A → result B) (l : list A) : result (list B) :=
  match l with
  | [] => Ok []
  | a :: l' => b ← f a; bs ← mapM_result f l'; Ok (b :: bs)
  end.

(** *** Field options *)

Fixpoint first_some {A B} (g : A → option B) (l : list A) : option B :=
  match l with
  | [] => None
  | a :: l' => match g a with Some b => Some b | None => first_some g l' end
  end.

Definition kw {A} (sel : kwarg → option A) (f : field) : option A :=
  first_some sel (f_kwargs f).

Definition flag (sel : kwarg → option bool) (f : field) : bool :=
  default false (kw sel f).

Definition is_primary_key : field → bool :=
  flag (λ k, match k with primary_key b => Some b | _ => None end).
Definition is_auto_now : field → bool :=
  flag (λ k, match k with auto_now b => Some b | _ => None end).
Definition is_auto_now_add : field → bool :=
  flag (λ k, match k with auto_now_add b => Some b | _ => None end).
Definition is_null : field → bool :=
  flag (λ k, match k with null b => Some b | _ => None end).

(** [AutoField.__init__] and [DateField.__init__] force [blank=True] on
    generated columns. *)
Definition is_blank (f : field) : bool :=
  match f_type f with
  | AutoField => true
  | _ =>
      is_auto_now f || is_auto_now_add f
      || flag (λ k, match k with blank b => Some b | _ => None end) f
  end.

(** A primary key and a one-to-one column are unique without saying so. *)
Definition is_unique (f : field) : bool :=
  flag (λ k, match k with unique b => Some b | _ => None end) f
  || is_primary_key f
  || match f_type f with OneToOneField _ => true | _ => false end.

Definition get_max_length (f : field) : option nat :=
  match kw (λ k, match k with max_length n => Some n | _ => None end) f with
  | Some n => Some n
  | None => match f_type f with EmailField => Some 254%nat | _ => None end
  end.

Definition get_max_digits : field → option nat :=
  kw (λ k, match k with max_digits n => Some n | _ => None end).
Definition get_decimal_places : field → option nat :=
  kw (λ k, match k with decimal_places n => Some n | _ => None end).
Definition get_default : field → option default_value :=
  kw (λ k, match k with default_ d => Some d | _ => None end).
Definition get_choices (f : field) : list (string * string) :=
  default [] (kw (λ k, match k with choices cs => Some cs | _ => None end) f).
Definition get_validators (f : field) : list validator :=
  default [] (kw (λ k, match k with validators vs => Some vs | _ => None end) f).
Definition get_on_delete : field → option deletion :=
  kw (λ k, match k with on_delete p => Some p | _ => None end).
Definition get_through : field → option model :=
  kw (λ k, match k with through m => Some m | _ => None end).

(** The model a foreign key or one-to-one column points to. *)
Definition remote_model (f : field) : option model :=
  match f_type f with
  | ForeignKey to | OneToOneField to => Some to
  | _ => None
  end.

Definition many_to_many (f : field) : option model :=
  match f_type f with ManyToManyField to => Some to | _ => None end.

(** [Field.attname]: the attribute and column of a relation is [<name>_id]. *)
Definition attname (f : field) : string :=
  match remote_model f with
  | Some _ => f_name f +:+ "_id"
  | None => f_name f
  end.

(** [Field.related_query_name()]: the reverse name used in lookups; [m] is
    the model that declares [f]. *)
Definition related_query_name (m : model) (f : field) : string :=
  default (model_name m)
    (kw (λ k, match k with related_name s => Some s | _ => None end) f).

(** [Model._meta.concrete_fields]: the fields that have a column. *)
Definition concrete_fields (m : model) : list field :=
  filter (λ f, many_to_many f = None) (fields m).

(** *** Rows and the database *)

(** A row, and a model instance, is the list of its attributes with their
    values.  An attribute that is not there reads as [None]. *)
Abbreviation row := (list (string * value)).

Fixpoint get (r : row) (a : string) : option value :=
  match r with
  | [] => None
  | (k, v) :: r' => if String.eqb k a then Some v else get r' a
  end.

Definition attr (r : row) (a : string) : value := default VNone (get r a).

(** Assignment to an attribute: in place when it is there, added at the end
    otherwise. *)
Fixpoint set_attr (a : string) (v : value) (r : row) : row :=
  match r with
  | [] => [(a, v)]
  | (k, x) :: r' => if String.eqb k a then (a, v) :: r' else (k, x) :: set_attr a v r'
  end.

(** The database: the rows of each table, in the order they were
    written.  A table that was never written is empty. *)
Abbreviation database := (gmap model (list row)).

Definition empty_db : database := ∅.

Definition table (db : database) (m : model) : list row := default [] (db !! m).

Definition pk_of (r : row) : value := attr r "id".

Definition set_table (db : database) (m : model) (rows : list row) : database :=
  <[m := rows]> db.

(** *** Resolving a lookup

    [Query.names_to_path] walks the names of a lookup such as
    [reviews__rating] through the fields of the model.  A name is looked up
    with [Options.get_field], which knows the forward fields (by name and by
    attribute name), the many-to-many fields, and the reverse side of every
    relation that points to the model, under its [related_query_name]. *)

Inductive hop :=
  | Forward (column : string) (to : model)
  | Reverse (from : model) (column : string).

Inductive resolved :=
  | Column (f : field)
  | Relation (path : list hop) (to : model).

(** The foreign key of [m] that points to [to]. *)
Definition fk_to (m to : model) : option field :=
  list_find (λ f, remote_model f = Some to) (fields m) ≫= λ p, Some p.2.

Definition forward_field (m : model) (name : string) : option resolved :=
  list_find (λ f, f_name f = name ∨ attname f = name) (fields m) ≫= λ p,
  let f := p.2 in
  match f_type f with
  | ForeignKey to | OneToOneField to => Some (Relation [Forward (attname f) to] to)
  | ManyToManyField to =>
      th ← get_through f; src ← fk_to th m; tgt ← fk_to th to;
      Some (Relation [Reverse th (attname src); Forward (attname tgt) to] to)
  | _ => Some (Column f)
  end.

(** The reverse side of field [f] of model [m'], seen from [m]. *)
Definition reverse_of (m : model) (name : string) (m' : model) (f : field)
  : option resolved :=
  if decide (related_query_name m' f = name) then
    match f_type f with
    | ForeignKey to | OneToOneField to =>
        if decide (to = m) then Some (Relation [Reverse m' (attname f)] m') else None
    | ManyToManyField to =>
        if decide (to = m) then
          th ← get_through f; src ← fk_to th m; tgt ← fk_to th m';
          Some (Relation [Reverse th (attname src); Forward (attname tgt) m'] m')
        else None
    | _ => None
    end
  else None.

Definition reverse_field (m : model) (name : string) : option resolved :=
  first_some (λ m', first_some (reverse_of m name m') (fields m')) all_models.

Definition get_field (m : model) (name : string) : option resolved :=
  let name := if decide (name = "pk") then "id" else name in
  match forward_field m name with
  | Some r => Some r
  | None => reverse_field m name
  end.

(** Where a lookup ends: on a column of the last model, or on a relation,
    which then stands for the primary key of the related model. *)
Inductive target :=
  | OnColumn (f : field)
  | OnPk (m : model).

(** [names_to_path]: the joins, the final target, and the names left over,
    which are lookups.  A first name that is no field is an error; a later
    one ends the path. *)
Fixpoint names_to_path (m : model) (first : bool) (names : list string)
  : result (list hop * target * list string) :=
  match names with
  | [] => Ok ([], OnPk m, [])
  | name :: rest =>
      match get_field m name with
      | None => if first then Err (FieldError name) else Ok ([], OnPk m, names)
      | Some (Column f) => Ok ([], OnColumn f, rest)
      | Some (Relation hops to) =>
          match names_to_path to false rest with
          | Ok (path, tgt, lookups) => Ok (hops ++ path, tgt, lookups)
          | Err e => Err e
          end
      end
  end.

(** [LOOKUP_SEP = "__"]; [split_lookup] is [str.split] on it. *)
Fixpoint split_sep (s : string) (cur : string) : list string :=
  match s with
  | EmptyString => [cur]
  | String c rest =>
      match rest with
      | String c' rest' =>
          if decide (c = "_"%char ∧ c' = "_"%char) then cur :: split_sep rest' ""
          else split_sep rest (cur +:+ String c "")
      | EmptyString => [cur +:+ String c ""]
      end
  end.

Definition split_lookup (s : string) : list string := split_sep s "".

(** The lookups the module uses ([exact], [gt], [gte], [lte]) and [lt]. *)
Inductive lookup := exact | gt | gte | lt | lte.

Definition lookup_of_name (s : string) : option lookup :=
  if decide (s = "exact") then Some exact
  else if decide (s = "gt") then Some gt
  else if decide (s = "gte") then Some gte
  else if decide (s = "lt") then Some lt
  else if decide (s = "lte") then Some lte
  else None.

Definition final_lookup (lookups : list string) : result lookup :=
  match lookups with
  | [] => Ok exact
  | [l] => match lookup_of_name l with
           | Some op => Ok op
           | None => Err (NotModelled l)
           end
  | l :: _ => Err (NotModelled l)
  end.

(** *** Following joins *)

(** The rows one join leads to.  A null key joins nothing. *)
Definition step (db : database) (h : hop) (r : row) : list row :=
  match h with
  | Forward column to =>
      if decide (attr r column = VNone) then []
      else filter (λ r', pk_of r' = attr r column) (table db to)
  | Reverse from column =>
      if decide (pk_of r = VNone) then []
      else filter (λ r', attr r' column = pk_of r) (table db from)
  end.

Definition follow (db : database) (path : list hop) (r : row) : list row :=
  foldl (λ rows h, rows ≫= step db h) [r] path.

Definition target_type (t : target) : field_type :=
  match t with
  | OnColumn f => f_type f
  | OnPk _ => AutoField
  end.

Definition cell (t : target) (r : row) : value :=
  match t with
  | OnColumn f => attr r (attname f)
  | OnPk _ => pk_of r
  end.

(** The cells a row reaches along a path: one for a column of the row
    itself, one per joined row otherwise. *)
Definition cells (db : database) (path : list hop) (t : target) (r : row)
  : list value :=
  map (cell t) (follow db path r).

(** *** Rounding

    [Context(prec=p).create_decimal_from_float], which a [DecimalField]
    applies to a float, and the arithmetic of doubles, in which the database
    computes [AVG], both round a number to so many significant digits, to
    the nearest one and to the even one of two that are equally near. *)

(** The integer nearest to [q]; of two, the even one. *)
Definition round_half_even (q : Q) : Z :=
  let n := Qnum q in
  let d := Zpos (Qden q) in
  match Z.compare (2 * (n mod d)) d with
  | Lt => n / d
  | Gt => n / d + 1
  | Eq => if Z.even (n / d) then n / d else n / d + 1
  end.

(** The largest [e] with [base ^ e <= n], for [1 <= n]. *)
Fixpoint log_floor (fuel : nat) (base n : Z) : Z :=
  match fuel with
  | O => 0
  | S fuel' => if n <? base then 0 else 1 + log_floor fuel' base (n / base)
  end.

(** The least [k] with [b <= a * base ^ k], for [0 < a < b]. *)
Fixpoint log_ratio (fuel : nat) (base a b : Z) : Z :=
  match fuel with
  | O => 1
  | S fuel' => if b <=? a * base then 1 else 1 + log_ratio fuel' base (a * base) b
  end.

(** The place of the leading digit of [q], which is not 0: the [e] with
    [base ^ e <= |q| < base ^ (e + 1)]. *)
Definition leading_exponent (base : Z) (q : Q) : Z :=
  let a := Z.abs (Qnum q) in
  let b := Zpos (Qden q) in
  if b <=? a then log_floor (S (Z.to_nat (Z.log2 a))) base (a / b)
  else - log_ratio (S (Z.to_nat (Z.log2 b))) base a b.

(** [q] rounded to [prec] significant digits in base [base]. *)
Definition round_sig (base : Z) (prec : nat) (q : Q) : Q :=
  let q := Qred q in
  if Qnum q =? 0 then 0%Q
  else
    let k := Z.of_nat prec - 1 - leading_exponent base q in
    if 0 <=? k
    then Qred (inject_Z (round_half_even (q * inject_Z (base ^ k))) / inject_Z (base ^ k))
    else Qred (inject_Z (round_half_even (q / inject_Z (base ^ (- k))) * base ^ (- k))).

(** [decimal.Context(prec=prec).create_decimal_from_float]: the context
    rounds half to even. *)
Definition create_decimal_from_float (prec : nat) (q : Q) : Q := round_sig 10 prec q.

(** The double nearest to [q], within the range of the normal doubles, and
    the quotient of two doubles. *)
Definition binary64 (q : Q) : Q := round_sig 2 53 q.

Definition float_div (x y : Q) : Q := binary64 (x / y).

(** *** Comparing values *)

(** [Field.to_python]: the value as the field keeps it, or nothing when the
    value is of the wrong kind.  A [DecimalField] turns a float into a
    decimal of [max_digits] significant digits
    ([self.context.create_decimal_from_float]) and an integer into the
    decimal of the same value; [None] is refused only by a [BooleanField]
    that is not nullable.  The other coercions of Python (a string read as a
    number, and so on) are outside this development. *)
Definition to_python (f : field) (nullable : bool) (v : value) : option value :=
  match f_type f, v with
  | BooleanField, VNone => if nullable then Some VNone else None
  | _, VNone => Some VNone
  | (AutoField | IntegerField | PositiveIntegerField
     | ForeignKey _ | OneToOneField _), VInt _ => Some v
  | DecimalField, VDecimal _ => Some v
  | DecimalField, VFloat q =>
      match get_max_digits f with
      | Some prec => Some (VDecimal (create_decimal_from_float prec q))
      | None => None
      end
  | DecimalField, VInt z => Some (VDecimal (inject_Z z))
  | (CharField | TextField | EmailField), VStr _ => Some v
  | BooleanField, VBool _ => Some v
  | DateTimeField, VDateTime _ => Some v
  | _, _ => None
  end.

(** The field a lookup ends on. *)
Definition target_field (t : target) : field :=
  match t with
  | OnColumn f => f
  | OnPk _ => id_field
  end.

(** A decimal of at most [places] fractional digits and at most
    [digits - places] digits before the point. *)
Definition decimal_fits (digits places : nat) (q : Q) : bool :=
  bool_decide ((Qnum q * 10 ^ Z.of_nat places) `mod` Zpos (Qden q) = 0)
  && bool_decide (Z.abs (Qnum q) < 10 ^ Z.of_nat (digits - places) * Zpos (Qden q)).

(** [Field.get_db_prep_value] on the right-hand side of a lookup:
    [to_python], and the adaptation of a decimal to the column.  What a
    backend makes of a decimal that does not fit [decimal_places] and
    [max_digits] differs from one to the next (one quantizes it, another
    compares it as it is): the outcome is left open ([NotModelled]). *)
Definition get_prep_value (f : field) (key : string) (v : value) : result value :=
  match to_python f true v with
  | Some (VDecimal q) =>
      match get_max_digits f, get_decimal_places f with
      | Some d, Some p => if decimal_fits d p q then Ok (VDecimal q)
                          else Err (NotModelled "quantize")
      | _, _ => Ok (VDecimal q)
      end
  | Some v' => Ok v'
  | None => Err (ValueError key)
  end.

Definition compare_values (a b : value) : option comparison :=
  match a, b with
  | VInt x, VInt y => Some (Z.compare x y)
  | VDecimal x, VDecimal y => Some (Qcompare x y)
  | VFloat x, VFloat y => Some (Qcompare x y)
  | VDateTime x, VDateTime y => Some (Z.compare x y)
  | VStr x, VStr y => Some (String.compare x y)
  | VBool x, VBool y => Some (Bool.compare x y)
  | _, _ => None
  end.

(** Whether a cell satisfies [<op> v].  [exact None] is [IS NULL]; a null
    cell satisfies no other comparison. *)
Definition holds (op : lookup) (c v : value) : bool :=
  match v with
  | VNone => bool_decide (c = VNone)
  | _ =>
      match compare_values c v, op with
      | Some Eq, (exact | gte | lte) => true
      | Some Gt, (gt | gte) => true
      | Some Lt, (lt | lte) => true
      | _, _ => false
      end
  end.

(** *** filter *)

Record condition := Cond {
  c_path : list hop;
  c_target : target;
  c_op : lookup;
  c_value : value
}.

(** [Query.build_filter] for one keyword argument [key=v]. *)
Definition build_filter (m : model) (kwarg : string * value) : result condition :=
  '(path, tgt, lookups) ← names_to_path m true (split_lookup kwarg.1);
  op ← final_lookup lookups;
  v ← get_prep_value (target_field tgt) kwarg.1 kwarg.2;
  match v, op with
  | VNone, exact => Ok (Cond path tgt op v)
  | VNone, _ => Err (ValueError kwarg.1)
  | _, _ => Ok (Cond path tgt op v)
  end.

(** How many joined rows satisfy a condition: 0 or 1 for a column of the row
    itself, the number of matching related rows across a join. *)
Definition multiplicity (db : database) (c : condition) (r : row) : nat :=
  length (filter (λ x, holds (c_op c) x (c_value c) = true)
                 (cells db (c_path c) (c_target c) r)).

(** [QuerySet.filter] with keyword arguments, on the rows [qs] of model [m]: the lookups
    are resolved when [filter] is called, and a row is returned once per
    combination of joined rows that satisfy the conditions.  (In the module
    no call puts two conditions on one multi-valued relation.) *)
Definition filter_ (db : database) (m : model) (kwargs : list (string * value))
    (qs : list row) : result (list row) :=
  conds ← mapM_result (build_filter m) kwargs;
  Ok (qs ≫= λ r, replicate (foldr (λ c n, (multiplicity db c r * n)%nat) 1%nat conds) r).

(** *** annotate *)

Inductive aggregate :=
  | Count (expression : string) (distinct : bool)
  | Avg (expression : string).

Definition to_Q (v : value) : option Q :=
  match v with
  | VInt z => Some (inject_Z z)
  | VDecimal q | VFloat q => Some q
  | _ => None
  end.

Definition Qsum (l : list Q) : Q := foldr Qplus 0%Q l.

(** SQL [AVG] of integers: the mean of the non-null cells, null when there
    is none.  The database adds the integers up, turns the sum and the count
    into doubles and divides them: the result is a double. *)
Definition mean (l : list Q) : value :=
  match l with
  | [] => VNone
  | _ => VFloat (float_div (binary64 (Qsum l)) (binary64 (inject_Z (Z.of_nat (length l)))))
  end.

Definition non_null (l : list value) : list value :=
  filter (λ v, v ≠ VNone) l.

(** [Query.resolve_ref]: the expression of an aggregate names a path. *)
Definition resolve_ref (m : model) (expression : string)
  : result (list hop * target) :=
  '(path, tgt, lookups) ← names_to_path m true (split_lookup expression);
  match lookups with
  | [] => Ok (path, tgt)
  | l :: _ => Err (FieldError l)
  end.

Definition evaluate (db : database) (m : model) (a : aggregate) (r : row)
  : result value :=
  match a with
  | Count e distinct =>
      '(path, tgt) ← resolve_ref m e;
      let cs := non_null (cells db path tgt r) in
      Ok (VInt (Z.of_nat (length (if distinct then remove_dups cs else cs))))
  | Avg e =>
      '(path, tgt) ← resolve_ref m e;
      match target_type tgt with
      | AutoField | IntegerField | PositiveIntegerField =>
          Ok (mean (omap to_Q (cells db path tgt r)))
      | _ => Err (NotModelled "Avg")
      end
  end.

(** [QuerySet.annotate] with named aggregates: the rows of [qs], each with one more
    attribute per aggregate, computed over the rows joined to it (the query
    groups by the primary key of [m]). *)
Fixpoint annotate_row (db : database) (m : model)
    (aggregates : list (string * aggregate)) (r : row) : result row :=
  match aggregates with
  | [] => Ok r
  | (name, a) :: rest =>
      v ← evaluate db m a r;
      r' ← annotate_row db m rest r;
      Ok (set_attr name v r')
  end.

Definition annotate (db : database) (m : model)
    (aggregates : list (string * aggregate)) (qs : list row) : result (list row) :=
  mapM_result (annotate_row db m aggregates) qs.

(** *** ProductQuerySet

    [self] is the list of product rows the query set stands for. *)

Definition available (db : database) (self : list row) : result (list row) :=
  filter_ db Product [("stock_quantity__gt", VInt 0); ("is_active", VBool true)] self.

Definition priced_between (db : database) (self : list row) (low high : Q)
  : result (list row) :=
  filter_ db Product [("price__gte", VFloat low); ("price__lte", VFloat high)] self.

Definition by_tag (db : database) (self : list row) (tag_name : string)
  : result (list row) :=
  filter_ db Product [("tags__name", VStr tag_name)] self.

Definition with_rating (db : database) (self : list row) : result (list row) :=
  annotate db Product
    [("review_count", Count "reviews" true); ("avg_rating", Avg "reviews__rating")]
    self.

(** [Product.objects = ProductQuerySet.as_manager()]: all the products.
    The order in which a query set that is not ordered otherwise yields its
    rows is that of [Meta.ordering]; it is not modelled.  [objects] lists
    the rows as the table holds them, and what is said of the rows of
    [objects] is said up to their order. *)
Definition objects (db : database) (m : model) : list row := table db m.

(** *** Instances

    [Model.__init__] with keyword arguments: every column gets the value
    given for it, or the default of its field.  [now] is the clock, read by
    [timezone.now]. *)

Definition empty_strings_allowed (t : field_type) : bool :=
  match t with
  | CharField | TextField | EmailField => true
  | _ => false
  end.

(** [Field.get_default]. *)
Definition field_default (now : Z) (f : field) : value :=
  match get_default f with
  | Some (Value v) => v
  | Some timezone_now => VDateTime now
  | None =>
      if empty_strings_allowed (f_type f) && negb (is_null f) then VStr "" else VNone
  end.

Definition init (m : model) (kwargs : row) (now : Z) : row :=
  map (λ f, (attname f, default (field_default now f) (get kwargs (attname f))))
      (concrete_fields m).

(** *** Validation *)

(** [Field.empty_values]. *)
Definition empty_value (v : value) : bool :=
  match v with
  | VNone | VStr "" => true
  | _ => false
  end.

(** [BaseDatabaseOperations.integer_field_ranges]: the ranges of the
    backends whose integer columns have 32 bits.  (A backend with wider
    columns reports a wider range; the statements below take integers within
    32 bits.) *)
Definition integer_field_range (t : field_type) : option (Z * Z) :=
  match t with
  | AutoField | IntegerField => Some (-2147483648, 2147483647)
  | PositiveIntegerField => Some (0, 2147483647)
  | _ => None
  end.

(** [Field.validators]: those written in the declaration, and those the
    field type adds: the integer range (unless a declared validator is at
    least as strict), the length of a [CharField], the digits of a
    [DecimalField], the address of an [EmailField]. *)
Definition field_validators (f : field) : list validator :=
  let declared := get_validators f in
  match f_type f with
  | AutoField | IntegerField | PositiveIntegerField =>
      match integer_field_range (f_type f) with
      | Some (lo, hi) =>
          declared
          ++ (if existsb (λ v, match v with
                                | MinValueValidator l => bool_decide (lo ≤ l)
                                | _ => false end) declared
              then [] else [MinValueValidator lo])
          ++ (if existsb (λ v, match v with
                                | MaxValueValidator l => bool_decide (l ≤ hi)
                                | _ => false end) declared
              then [] else [MaxValueValidator hi])
      | None => declared
      end
  | CharField =>
      declared ++ match get_max_length f with
                  | Some n => [MaxLengthValidator n]
                  | None => []
                  end
  | EmailField =>
      EmailValidator :: declared ++ match get_max_length f with
                                    | Some n => [MaxLengthValidator n]
                                    | None => []
                                    end
  | DecimalField =>
      declared ++ match get_max_digits f, get_decimal_places f with
                  | Some d, Some p => [DecimalValidator d p]
                  | _, _ => []
                  end
  | _ => declared
  end.

Definition Qltb (a b : Q) : bool := negb (Qle_bool b a).

Section Validation.

(** The grammar of addresses of [django.core.validators.validate_email] is
    not part of the module; it is a parameter here. *)
Variable validate_email : string → bool.

(** One validator on a cleaned value: the code of the error it raises.  (A
    string is a sequence of bytes here, so [MaxLengthValidator] counts
    characters for ASCII text only.) *)
Definition run_validator (v : validator) (x : value) : option string :=
  match v with
  | MinValueValidator l =>
      match to_Q x with
      | Some q => if Qltb q (inject_Z l) then Some "min_value" else None
      | None => None
      end
  | MaxValueValidator l =>
      match to_Q x with
      | Some q => if Qltb (inject_Z l) q then Some "max_value" else None
      | None => None
      end
  | MaxLengthValidator n =>
      match x with
      | VStr s => if bool_decide (n < String.length s)%nat then Some "max_length" else None
      | _ => None
      end
  | DecimalValidator d p =>
      match x with
      | VDecimal q => if decimal_fits d p q then None else Some "max_digits"
      | _ => None
      end
  | EmailValidator =>
      match x with
      | VStr s => if validate_email s then None else Some "invalid"
      | _ => None
      end
  end.

(** [Field.clean(raw, instance)]: [to_python], then [validate] (choices,
    null, blank, and for a relation that the row referred to exists), then
    [run_validators].  The result is the list of error codes, empty when the
    value is clean. *)
Definition clean (db : database) (f : field) (raw : value) : list string :=
  match to_python f (is_null f) raw with
  | None => ["invalid"]
  | Some x =>
      if negb (bool_decide (get_choices f = [])) && negb (empty_value x)
         && negb (bool_decide (x ∈ map (λ c, VStr c.1) (get_choices f)))
      then ["invalid_choice"]
      else if bool_decide (x = VNone) && negb (is_null f) then ["null"]
      else if negb (is_blank f) && empty_value x then ["blank"]
      else if match remote_model f with
              | Some to =>
                  bool_decide (x ≠ VNone)
                  && bool_decide (filter (λ r', pk_of r' = x) (table db to) = [])
              | None => false
              end
      then ["invalid"]
      else if empty_value x then []
      else omap (λ v, run_validator v x) (field_validators f)
  end.

(** [Model.clean_fields]: a blank field left empty is skipped. *)
Definition clean_fields (db : database) (m : model) (r : row) : list error :=
  concrete_fields m ≫= λ f,
    let raw := attr r (attname f) in
    if is_blank f && empty_value raw then []
    else map (ValidationError (f_name f)) (clean db f raw).

(** The rows of the table other than the instance itself: all of them for
    an instance that is being added. *)
Definition others (db : database) (m : model) (adding : bool) (r : row) : list row :=
  if adding then table db m
  else filter (λ r', pk_of r' ≠ pk_of r) (table db m).

(** [Model.validate_unique]: a unique column whose value some other row
    already has.  Null values and the fields in [exclude] are not checked. *)
Definition validate_unique (db : database) (m : model) (adding : bool)
    (exclude : list string) (r : row) : list error :=
  concrete_fields m ≫= λ f,
    if is_unique f
       && negb (bool_decide (f_name f ∈ exclude))
       && negb (is_primary_key f && negb adding)
       && negb (bool_decide (attr r (attname f) = VNone))
       && negb (bool_decide
            (filter (λ r', attr r' (attname f) = attr r (attname f))
                    (others db m adding r) = []))
    then [ValidationError (f_name f) "unique"]
    else [].

(** The column of the field called [name]. *)
Definition column_of (m : model) (name : string) : string :=
  match list_find (λ f, f_name f = name) (fields m) with
  | Some p => attname p.2
  | None => name
  end.

Definition key_of (m : model) (names : list string) (r : row) : list value :=
  map (λ n, attr r (column_of m n)) names.

(** Whether a row of [rows] carries the same non-null values as [r] in all
    the columns of a uniqueness constraint. *)
Definition duplicates (m : model) (names : list string) (rows : list row)
    (r : row) : bool :=
  negb (bool_decide (VNone ∈ key_of m names r))
  && negb (bool_decide (filter (λ r', key_of m names r' = key_of m names r) rows = [])).

(** [Model.validate_constraints]. *)
Definition validate_constraints (db : database) (m : model) (adding : bool)
    (exclude : list string) (r : row) : list error :=
  constraints m ≫= λ c,
    match c with
    | UniqueConstraint names cname =>
        if negb (existsb (λ n, bool_decide (n ∈ exclude)) names)
           && duplicates m names (others db m adding r) r
        then [ValidationError "__all__" "unique_together"]
        else []
    end.

Definition error_field (e : error) : list string :=
  match e with
  | ValidationError f _ => [f]
  | _ => []
  end.

(** [Model.full_clean]: the fields that failed [clean_fields] are left out
    of the uniqueness checks.  The instance is valid when the list is
    empty. *)
Definition full_clean (db : database) (m : model) (adding : bool) (r : row)
  : list error :=
  let errors := clean_fields db m r in
  let exclude := errors ≫= error_field in
  errors ++ validate_unique db m adding exclude r
         ++ validate_constraints db m adding exclude r.

End Validation.

(** *** Writing a row

    [QuerySet.create] builds the instance and calls
    [save(force_insert=True)], which runs [pre_save] on every field and sends
    one [INSERT].  Nothing on this path calls [full_clean]: what can refuse
    the row is the conversion of its values and the constraints the tables
    carry: [NOT NULL], the [CHECK (col >= 0)] of a [PositiveIntegerField],
    unique columns, the [UniqueConstraint]s of [Meta], and foreign keys. *)

(** [DateTimeField.pre_save]. *)
Definition pre_save (m : model) (now : Z) (r : row) : row :=
  foldr (λ f r', if is_auto_now f || is_auto_now_add f
                 then set_attr (attname f) (VDateTime now) r' else r')
        r (concrete_fields m).

(** The key the table hands out next: one that no stored row has.  (A
    database that keeps a sequence does not hand out the key of a deleted
    row again, which this one does after the last row was deleted; only
    that the key is new among the stored ones is used below.) *)
Definition next_id (db : database) (m : model) : Z :=
  1 + foldr (λ r acc, match pk_of r with VInt z => Z.max z acc | _ => acc end) 0 (table db m).

(** The value a column stores.  A string longer than its column, an integer
    out of the range of its column and a decimal that needs rounding are
    treated differently from one backend to the next (one stores the value,
    another rounds it or raises): the outcome is left open ([NotModelled]). *)
Definition db_prep (f : field) (v : value) : result value :=
  match to_python f true v with
  | None => Err (ValueError (f_name f))
  | Some x =>
      match x with
      | VStr s =>
          match get_max_length f with
          | Some n => if bool_decide (n < String.length s)%nat
                      then Err (NotModelled "max_length") else Ok x
          | None => Ok x
          end
      | VInt z =>
          match integer_field_range IntegerField with
          | Some (lo, hi) => if bool_decide (lo ≤ z ≤ hi) then Ok x
                             else Err (NotModelled "integer_field_range")
          | None => Ok x
          end
      | VDecimal q =>
          match get_max_digits f, get_decimal_places f with
          | Some d, Some p => if decimal_fits d p q then Ok x
                              else Err (NotModelled "quantize")
          | _, _ => Ok x
          end
      | _ => Ok x
      end
  end.

Fixpoint db_prep_row (fs : list field) (r : row) : result row :=
  match fs with
  | [] => Ok []
  | f :: fs' =>
      x ← db_prep f (attr r (attname f));
      r' ← db_prep_row fs' r;
      Ok ((attname f, x) :: r')
  end.

Definition not_null_error (f : field) (r : row) : option error :=
  if bool_decide (attr r (attname f) = VNone) && negb (is_null f)
  then Some (IntegrityError NotNull (attname f)) else None.

Definition check_error (f : field) (r : row) : option error :=
  match f_type f, attr r (attname f) with
  | PositiveIntegerField, VInt z =>
      if bool_decide (z < 0) then Some (IntegrityError Check (attname f)) else None
  | _, _ => None
  end.

Definition unique_error (db : database) (m : model) (f : field) (r : row)
  : option error :=
  if is_unique f
     && negb (bool_decide (attr r (attname f) = VNone))
     && negb (bool_decide
          (filter (λ r', attr r' (attname f) = attr r (attname f)) (table db m) = []))
  then Some (IntegrityError Unique (attname f)) else None.

Definition constraint_error (db : database) (m : model) (c : constraint) (r : row)
  : option error :=
  match c with
  | UniqueConstraint names cname =>
      if duplicates m names (table db m) r then Some (IntegrityError Unique cname) else None
  end.

Definition foreign_key_error (db : database) (f : field) (r : row) : option error :=
  match remote_model f with
  | Some to =>
      if negb (bool_decide (attr r (attname f) = VNone))
         && bool_decide (filter (λ r', pk_of r' = attr r (attname f)) (table db to) = [])
      then Some (IntegrityError ForeignKeyViolation (attname f)) else None
  | None => None
  end.

(** The first constraint of table [m] that the row violates. *)
Definition integrity_error (db : database) (m : model) (r : row) : option error :=
  let fs := concrete_fields m in
  first_some id
    (map (λ f, not_null_error f r) fs
     ++ map (λ f, check_error f r) fs
     ++ map (λ f, unique_error db m f r) fs
     ++ map (λ c, constraint_error db m c r) (constraints m)
     ++ map (λ f, foreign_key_error db f r) fs).

(** [Model.save(force_insert=True)] of an instance: the new state and the
    key of the row, or the state as it was and the error.  An instance
    without a key gets the next one of the table (keys are handed out
    without bound).  With [NotModelled], and with the [ValueError] of a value
    that is not of the kind of its field, the outcome is open: the state
    that comes with them says nothing about what the code writes. *)
Definition assign_id (db : database) (m : model) (r : row) : row :=
  if decide (pk_of r = VNone) then set_attr "id" (VInt (next_id db m)) r else r.

Definition insert (db : database) (m : model) (r : row) (now : Z)
  : database * result value :=
  match db_prep_row (concrete_fields m) (pre_save m now r) with
  | Err e => (db, Err e)
  | Ok r1 =>
      let r2 := assign_id db m r1 in
      match integrity_error db m r2 with
      | Some e => (db, Err e)
      | None => (set_table db m (table db m ++ [r2]), Ok (pk_of r2))
      end
  end.

(** [Model.objects.create] with keyword arguments. *)
Definition create (db : database) (m : model) (kwargs : row) (now : Z)
  : database * result value :=
  insert db m (init m kwargs now) now.

(** *** Deleting a row

    [Model.delete] first collects, with [Collector.collect], everything the
    deletion drags along: for each relation that points to the model, the
    rows that refer to the collected ones are handled as the [on_delete] of
    the relation says.  [CASCADE] collects them in turn, [SET_NULL] records an
    update, [PROTECT] records a refusal.  If anything was refused the
    deletion raises [ProtectedError] and nothing is written; otherwise the
    updates and the deletions are done in one transaction. *)

(** [get_candidate_relations_to_delete]: the foreign keys and one-to-one
    fields that point to [m], with the model that declares them. *)
Definition related_objects (m : model) : list (model * field) :=
  all_models ≫= λ m',
    map (λ f, (m', f)) (filter (λ f, remote_model f = Some m) (fields m')).

Record collector := Collector {
  data : list (model * value);
  field_updates : list (model * string * value);
  protected : list (model * string)
}.

Definition collector_app (a b : collector) : collector :=
  Collector (data a ++ data b) (field_updates a ++ field_updates b)
            (protected a ++ protected b).

(** What one relation [f] of model [m'] adds to a collection of the keys
    [pks]: the rows that refer to them ([NULL] refers to nothing) are
    handled as [on_delete] says; [collect_more] collects the rows a
    cascade reaches. *)
Definition collect_related (collect_more : model → list value → option collector)
    (db : database) (pks : list value) (rel : model * field)
    (acc : option collector) : option collector :=
  let '(m', f) := rel in
  let sub_objs :=
    filter (λ r', attr r' (attname f) ≠ VNone ∧ attr r' (attname f) ∈ pks)
           (table db m') in
  match sub_objs with
  | [] => acc
  | _ =>
      match get_on_delete f with
      | Some CASCADE =>
          c1 ← collect_more m' (map pk_of sub_objs);
          c2 ← acc; Some (collector_app c1 c2)
      | Some PROTECT =>
          c2 ← acc;
          Some (collector_app (Collector [] [] [(m', f_name f)]) c2)
      | Some SET_NULL =>
          c2 ← acc;
          Some (collector_app
                  (Collector [] (map (λ r', (m', attname f, pk_of r')) sub_objs) [])
                  c2)
      | None => None
      end
  end.

(** [collect] for the rows of [m] whose keys are [pks].  The recursion
    follows cascades; [depth] bounds their nesting. *)
Fixpoint collect (depth : nat) (db : database) (m : model) (pks : list value)
  : option collector :=
  match depth with
  | O => None
  | S depth' =>
      foldr (collect_related (collect depth' db) db pks)
            (Some (Collector (map (λ pk, (m, pk)) pks) [] []))
            (related_objects m)
  end.

(** The state after the collected updates and deletions. *)
Definition apply_collector (c : collector) (db : database) : database :=
  list_to_map
    (map (λ m,
            (m, filter (λ r, (m, pk_of r) ∉ data c)
                  (map (λ r, foldr (λ u r', if decide (u.1.1 = m ∧ u.2 = pk_of r)
                                            then set_attr u.1.2 VNone r' else r')
                                   r (field_updates c))
                       (table db m))))
         all_models).

(** [Model.delete] of the row of [m] with key [pk]: the new state and the
    number of rows deleted, or the state as it was and the error. *)
Definition delete (db : database) (m : model) (pk : value) : database * result nat :=
  if decide (pk = VNone) then (db, Err (ValueError "pk"))
  else
    match collect (length all_models) db m [pk] with
    | None => (db, Err (NotModelled "collect"))
    | Some c =>
        match protected c with
        | (m', f) :: _ => (db, Err (ProtectedError m' f))
        | [] =>
            (apply_collector c db,
             Ok (length (all_models ≫= λ m', filter (λ r, (m', pk_of r) ∈ data c) (table db m'))))
        end
    end.

End Orm.

(** * Properties *)

Import Schema Orm.

(** ** Attributes *)

Lemma get_set_attr_eq (r : row) a v : get (set_attr a v r) a = Some v.
Proof.
  induction r as [|[k x] r IH]; simpl.
  - by rewrite String.eqb_refl.
  - destruct (String.eqb k a) eqn:E; simpl; [by rewrite String.eqb_refl|].
    by rewrite E.
Qed.

Lemma get_set_attr_ne (r : row) a b v : a ≠ b → get (set_attr a v r) b = get r b.
Proof.
  intros Hab. induction r as [|[k x] r IH]; simpl.
  - by rewrite (proj2 (String.eqb_neq a b)).
  - destruct (String.eqb k a) eqn:E; simpl.
    + apply String.eqb_eq in E as ->. by rewrite (proj2 (String.eqb_neq a b)).
    + by rewrite IH.
Qed.

Lemma attr_set_attr_eq (r : row) a v : attr (set_attr a v r) a = v.
Proof. unfold attr. by rewrite get_set_attr_eq. Qed.

Lemma attr_set_attr_ne (r : row) a b v : a ≠ b → attr (set_attr a v r) b = attr r b.
Proof. intros. unfold attr. by rewrite get_set_attr_ne. Qed.

(** ** Lists and results *)

Lemma first_some_None {A B} (g : A → option B) (l : list A) :
  first_some g l = None ↔ ∀ a, a ∈ l → g a = None.
Proof.
  induction l as [|a l IH]; simpl.
  - split; [intros _ a Ha; inversion Ha | done].
  - destruct (g a) eqn:E.
    + split; [done | intros H; specialize (H a (list_elem_of_here _ _)); congruence].
    + rewrite IH. split.
      * intros H b Hb. apply elem_of_cons in Hb as [->|Hb]; auto.
      * intros H b Hb. apply H. by apply list_elem_of_further.
Qed.

Lemma bind_replicate_filter {A} (P : A → Prop) `{!∀ a, Decision (P a)}
    (n : A → nat) (l : list A) :
  (∀ a, n a = if decide (P a) then 1%nat else 0%nat) →
  (l ≫= λ a, replicate (n a) a) = filter P l.
Proof.
  intros Hn. induction l as [|a l IH]; [done|].
  rewrite bind_cons, filter_cons, IH, Hn.
  by destruct (decide (P a)).
Qed.

(** ** Conditions on a column of the row itself *)

Lemma multiplicity_local db c r :
  c_path c = [] →
  multiplicity db c r
  = if holds (c_op c) (cell (c_target c) r) (c_value c) then 1%nat else 0%nat.
Proof.
  intros Hp. unfold multiplicity, cells, follow. rewrite Hp. simpl.
  rewrite filter_cons, filter_nil.
  destruct (holds _ _ _) eqn:E; by case_decide.
Qed.

Lemma holds_gt_Z (c : value) (k : Z) :
  holds gt c (VInt k) = true ↔ ∃ n, c = VInt n ∧ k < n.
Proof.
  unfold holds. destruct c; simpl; try (split; [done | by intros (? & ? & ?)]).
  destruct (Z.compare_spec z k); split; try done; try (intros (n & [= ->] & ?); lia).
  intros _. eauto.
Qed.

Lemma holds_exact_bool (c : value) (b : bool) :
  holds exact c (VBool b) = true ↔ c = VBool b.
Proof.
  unfold holds. destruct c; simpl; try (split; done).
  destruct b0, b; simpl; split; done.
Qed.

Lemma holds_gte_Q (c : value) (low : Q) :
  holds gte c (VDecimal low) = true ↔ ∃ p, c = VDecimal p ∧ (low <= p)%Q.
Proof.
  unfold holds. destruct c; simpl; try (split; [done | by intros (? & ? & ?)]).
  split.
  - intros H. exists q. split; [done|]. apply Qge_alt.
    destruct (Qcompare q low); done.
  - intros (p & [= <-] & Hp). apply (proj1 (Qge_alt _ _)) in Hp.
    destruct (Qcompare q low); [done | by destruct Hp | done].
Qed.

Lemma holds_lte_Q (c : value) (high : Q) :
  holds lte c (VDecimal high) = true ↔ ∃ p, c = VDecimal p ∧ (p <= high)%Q.
Proof.
  unfold holds. destruct c; simpl; try (split; [done | by intros (? & ? & ?)]).
  split.
  - intros H. exists q. split; [done|]. apply Qle_alt.
    destruct (Qcompare q high); done.
  - intros (p & [= <-] & Hp). apply (proj1 (Qle_alt _ _)) in Hp.
    destruct (Qcompare q high); [done | done | by destruct Hp].
Qed.

(** ** ProductQuerySet.available *)

Definition in_stock_and_active (r : row) : Prop :=
  (∃ n, attr r "stock_quantity" = VInt n ∧ 0 < n) ∧ attr r "is_active" = VBool true.

#[global] Instance in_stock_and_active_dec r : Decision (in_stock_and_active r).
Proof.
  unfold in_stock_and_active.
  destruct (attr r "stock_quantity") as [| |n| | | |];
    try (right; intros [(? & ? & ?) _]; discriminate).
  destruct (decide (0 < n)); [|right; intros [(? & [= <-] & ?) _]; lia].
  destruct (decide (attr r "is_active" = VBool true)); [left; eauto | right; tauto].
Defined.

(** C2. [available()] keeps exactly the rows with [stock_quantity > 0] and
    [is_active = True], in their order; of three products A (stock 0,
    active), B (stock 5, active) and C (stock 5, inactive) it returns B
    alone. *)
Theorem available_exactly (db : database) (self : list row) :
  available db self = Ok (filter in_stock_and_active self)
  ∧ ∀ a b c : row,
      attr a "stock_quantity" = VInt 0 → attr a "is_active" = VBool true →
      attr b "stock_quantity" = VInt 5 → attr b "is_active" = VBool true →
      attr c "stock_quantity" = VInt 5 → attr c "is_active" = VBool false →
      available db [a; b; c] = Ok [b].
Proof.
  assert (Hgen : ∀ qs, available db qs = Ok (filter in_stock_and_active qs)).
  { intros qs. unfold available, filter_.
    change (mapM_result (build_filter Product) _)
      with (Ok [Cond [] (OnColumn (Field "stock_quantity" PositiveIntegerField
                                     [default_ (Value (VInt 0)); db_index true]))
                     gt (VInt 0);
                Cond [] (OnColumn (Field "is_active" BooleanField
                                     [default_ (Value (VBool true)); db_index true]))
                     exact (VBool true)]).
    simpl. f_equal. apply bind_replicate_filter. intros r.
    cbn [foldr]. rewrite !multiplicity_local by done.
    cbn [c_op c_target c_value cell attname remote_model f_type f_name].
    rewrite Nat.mul_1_r.
    destruct (holds gt _ _) eqn:E1; destruct (holds exact _ _) eqn:E2;
      case_decide as HP; try done; exfalso.
    - apply HP; split; [by apply holds_gt_Z | by apply holds_exact_bool].
    - destruct HP as [_ HP]. apply holds_exact_bool in HP. congruence.
    - destruct HP as [HP _]. apply holds_gt_Z in HP. congruence.
    - destruct HP as [HP _]. apply holds_gt_Z in HP. congruence. }
  split; [apply Hgen|].
  intros a b c Ha1 Ha2 Hb1 Hb2 Hc1 Hc2. rewrite Hgen. f_equal.
  assert (Ha : ¬ in_stock_and_active a).
  { intros [(n & Hn & ?) _]. rewrite Ha1 in Hn. simplify_eq. lia. }
  assert (Hb : in_stock_and_active b).
  { split; [exists 5; split; [done | lia] | done]. }
  assert (Hc : ¬ in_stock_and_active c).
  { intros [_ H]. rewrite Hc2 in H. discriminate. }
  rewrite filter_cons_False, filter_cons_True, filter_cons_False by done.
  done.
Qed.

Definition product_A : row :=
  [("id", VInt 1); ("stock_quantity", VInt 0); ("is_active", VBool true)].
Definition product_B : row :=
  [("id", VInt 2); ("stock_quantity", VInt 5); ("is_active", VBool true)].
Definition product_C : row :=
  [("id", VInt 3); ("stock_quantity", VInt 5); ("is_active", VBool false)].

Lemma available_exactly_witness :
  available empty_db [product_A; product_B; product_C] = Ok [product_B].
Proof.
  exact (proj2 (available_exactly empty_db [])
           product_A product_B product_C
           eq_refl eq_refl eq_refl eq_refl eq_refl eq_refl).
Defined.

(** ** ProductQuerySet.priced_between *)

Definition priced_within (low high : Q) (r : row) : Prop :=
  ∃ p, attr r "price" = VDecimal p ∧ (low <= p)%Q ∧ (p <= high)%Q.

#[global] Instance priced_within_dec low high r : Decision (priced_within low high r).
Proof.
  unfold priced_within.
  destruct (attr r "price") as [| | | |p| |];
    try (right; intros (? & ? & ?); discriminate).
  destruct (Qlt_le_dec p low) as [H1|H1].
  { right. intros (? & [= <-] & H & _). by apply Qle_not_lt in H. }
  destruct (Qlt_le_dec high p) as [H2|H2].
  { right. intros (? & [= <-] & _ & H). by apply Qle_not_lt in H. }
  left. eauto.
Defined.

Arguments create_decimal_from_float : simpl never.
Arguments binary64 : simpl never.

(** The decimal that [price], which has [max_digits=10], makes of a float
    bound. *)
Definition price_bound (x : Q) : Q := create_decimal_from_float 10 x.

Lemma build_filter_price key op x :
  (key, op) ∈ [("price__gte", gte); ("price__lte", lte)] →
  build_filter Product (key, VFloat x)
  = if decimal_fits 10 2 (price_bound x)
    then Ok (Cond [] (OnColumn (Field "price" DecimalField
               [max_digits 10; decimal_places 2; validators [MinValueValidator 0]]))
               op (VDecimal (price_bound x)))
    else Err (NotModelled "quantize").
Proof.
  intros Hin.
  assert (Hprep : ∀ k, get_prep_value
            (Field "price" DecimalField
               [max_digits 10; decimal_places 2; validators [MinValueValidator 0]])
            k (VFloat x)
          = if decimal_fits 10 2 (price_bound x) then Ok (VDecimal (price_bound x))
            else Err (NotModelled "quantize")) by done.
  apply elem_of_cons in Hin as [[= -> ->]|Hin];
    [|apply list_elem_of_singleton in Hin as [= -> ->]].
  - unfold build_filter. cbn [fst snd].
    change (names_to_path Product true (split_lookup "price__gte"))
      with (Ok (@nil hop, OnColumn (Field "price" DecimalField
                  [max_digits 10; decimal_places 2; validators [MinValueValidator 0]]),
                ["gte"])).
    cbn [mbind result_bind]. change (final_lookup ["gte"]) with (Ok gte).
    cbn [mbind result_bind target_field]. rewrite Hprep.
    by destruct (decimal_fits 10 2 (price_bound x)).
  - unfold build_filter. cbn [fst snd].
    change (names_to_path Product true (split_lookup "price__lte"))
      with (Ok (@nil hop, OnColumn (Field "price" DecimalField
                  [max_digits 10; decimal_places 2; validators [MinValueValidator 0]]),
                ["lte"])).
    cbn [mbind result_bind]. change (final_lookup ["lte"]) with (Ok lte).
    cbn [mbind result_bind target_field]. rewrite Hprep.
    by destruct (decimal_fits 10 2 (price_bound x)).
Qed.

(** What [priced_between] returns, whatever the bounds. *)
Lemma priced_between_cases db self low high :
  priced_between db self low high
  = if decimal_fits 10 2 (price_bound low) && decimal_fits 10 2 (price_bound high)
    then Ok (filter (priced_within (price_bound low) (price_bound high)) self)
    else Err (NotModelled "quantize").
Proof.
  unfold priced_between, filter_. cbn [mapM_result].
  rewrite (build_filter_price "price__gte" gte), (build_filter_price "price__lte" lte)
    by (repeat (first [by left | right])).
  destruct (decimal_fits 10 2 (price_bound low)); [|done].
  destruct (decimal_fits 10 2 (price_bound high)); [|done].
  cbn [mbind result_bind andb]. f_equal. apply bind_replicate_filter. intros r.
  cbn [foldr]. rewrite !multiplicity_local by done.
  cbn [c_op c_target c_value cell attname remote_model f_type f_name].
  rewrite Nat.mul_1_r.
  destruct (holds gte _ _) eqn:E1; destruct (holds lte _ _) eqn:E2;
    case_decide as HP; try done; exfalso.
  - apply holds_gte_Q in E1 as (p & Hp & H1).
    apply holds_lte_Q in E2 as (p' & Hp' & H2).
    apply HP. exists p. rewrite Hp in Hp'. by simplify_eq.
  - destruct HP as (p & Hp & _ & H2).
    assert (holds lte (attr r "price") (VDecimal (price_bound high)) = true)
      by (apply holds_lte_Q; eauto). congruence.
  - destruct HP as (p & Hp & H1 & _).
    assert (holds gte (attr r "price") (VDecimal (price_bound low)) = true)
      by (apply holds_gte_Q; eauto). congruence.
  - destruct HP as (p & Hp & H1 & _).
    assert (holds gte (attr r "price") (VDecimal (price_bound low)) = true)
      by (apply holds_gte_Q; eauto). congruence.
Qed.

(** A product at 10.00, and the double nearest to 10.000000000001. *)
Definition product_at_10 : row := [("id", VInt 1); ("price", VDecimal 10)].

Definition just_above_10 : Q := binary64 (10000000000001 # 1000000000000).

(** Returned although its price is below the lower bound: the bound is a
    float, and [price] keeps 10 significant digits of it. *)
Lemma priced_between_returns_price_below_low :
  priced_between empty_db [product_at_10] just_above_10 20 = Ok [product_at_10]
  ∧ attr product_at_10 "price" = VDecimal 10
  ∧ (10 < just_above_10)%Q.
Proof. split; [|split]; vm_compute; reflexivity. Qed.

(** C8, amended. [priced_between(low, high)] takes its bounds as floats, and
    the lookup on [price] turns each into a decimal of 10 significant
    digits.  With bounds whose decimals fit the column it keeps exactly the
    rows whose price [p] satisfies [low' <= p] and [p <= high'], both ends
    included, for the decimals [low'] and [high'] of the bounds. *)
Theorem priced_between_exactly (db : database) (self : list row) (low high : Q) :
  decimal_fits 10 2 (price_bound low) = true →
  decimal_fits 10 2 (price_bound high) = true →
  priced_between db self low high
  = Ok (filter (priced_within (price_bound low) (price_bound high)) self).
Proof. intros Hl Hh. by rewrite priced_between_cases, Hl, Hh. Qed.

(** Products at 9.99, 10.00 and 19.99. *)
Definition product_at (pk : Z) (price : Q) : row :=
  [("id", VInt pk); ("price", VDecimal price)].

(** With the floats written 9.99 and 19.99 as bounds, both ends are
    included. *)
Lemma priced_between_exactly_witness :
  priced_between empty_db
    [product_at 1 (999 # 100); product_at 2 10; product_at 3 (1999 # 100)]
    (binary64 (999 # 100)) (binary64 (1999 # 100))
  = Ok (filter (priced_within (999 # 100) (1999 # 100))
          [product_at 1 (999 # 100); product_at 2 10; product_at 3 (1999 # 100)]).
Proof.
  exact (priced_between_exactly empty_db
           [product_at 1 (999 # 100); product_at 2 10; product_at 3 (1999 # 100)]
           (binary64 (999 # 100)) (binary64 (1999 # 100)) eq_refl eq_refl).
Defined.

Lemma priced_between_both_ends :
  filter (priced_within (999 # 100) (1999 # 100))
    [product_at 1 (999 # 100); product_at 2 10; product_at 3 (1999 # 100)]
  = [product_at 1 (999 # 100); product_at 2 10; product_at 3 (1999 # 100)].
Proof.
  rewrite !filter_cons_True; [done|..]; eexists; (split; [reflexivity|]);
    split; by vm_compute.
Qed.

(** ** ProductQuerySet.by_tag *)

(** [Product] has no field and no reverse relation called [tags]: the link
    entity is reached as [product_tags]. *)
Lemma Product_has_no_tags : get_field Product "tags" = None.
Proof. reflexivity. Qed.

Lemma Product_product_tags :
  names_to_path Product true (split_lookup "product_tags__tag__name")
  = Ok ([Reverse ProductTag "product_id"; Forward "tag_id" Tag],
        OnColumn (Field "name" CharField [max_length 50; unique true; db_index true]),
        []).
Proof. reflexivity. Qed.

(** C1. Evaluating [by_tag] at any tag name: the lookup [tags__name] does
    not resolve on [Product], and the call raises [FieldError] instead of
    returning the products linked to the tag. *)
Theorem by_tag_FieldError (db : database) (self : list row) (tag_name : string) :
  by_tag db self tag_name = Err (FieldError "tags").
Proof. reflexivity. Qed.

(** ** ProductQuerySet.with_rating *)

(** The reviews of a product, and their ratings. *)
Definition reviews_of (db : database) (r : row) : list row :=
  filter (λ rv, attr rv "product_id" = pk_of r) (table db Review).

Definition ratings_of (db : database) (r : row) : list Z :=
  omap (λ rv, match attr rv "rating" with VInt z => Some z | _ => None end)
       (reviews_of db r).

Definition arithmetic_mean (zs : list Z) : Q :=
  inject_Z (foldr Z.add 0 zs) / inject_Z (Z.of_nat (length zs)).

(** The mean as the database computes it: the sum and the count as doubles,
    and their quotient as a double. *)
Definition float_mean (zs : list Z) : Q :=
  float_div (binary64 (inject_Z (foldr Z.add 0 zs)))
            (binary64 (inject_Z (Z.of_nat (length zs)))).

Lemma resolve_reviews :
  resolve_ref Product "reviews" = Ok ([Reverse Review "product_id"], OnPk Review).
Proof. reflexivity. Qed.

Lemma resolve_reviews_rating :
  resolve_ref Product "reviews__rating"
  = Ok ([Reverse Review "product_id"],
        OnColumn (Field "rating" IntegerField
                    [validators [MinValueValidator 1; MaxValueValidator 5];
                     db_index true])).
Proof. reflexivity. Qed.

Lemma follow_reviews db r :
  pk_of r ≠ VNone → follow db [Reverse Review "product_id"] r = reviews_of db r.
Proof.
  intros Hpk. unfold follow, reviews_of. cbn [foldl].
  rewrite bind_cons; cbn [mbind list_bind]; rewrite app_nil_r. unfold step.
  by rewrite decide_False.
Qed.

Lemma annotate_row_with_rating db r :
  pk_of r ≠ VNone →
  annotate_row db Product
    [("review_count", Count "reviews" true); ("avg_rating", Avg "reviews__rating")] r
  = Ok (set_attr "review_count"
          (VInt (Z.of_nat (length (remove_dups (non_null (map pk_of (reviews_of db r)))))))
          (set_attr "avg_rating"
             (mean (omap to_Q (map (λ rv, attr rv "rating") (reviews_of db r)))) r)).
Proof.
  intros Hpk. unfold annotate_row, evaluate.
  rewrite resolve_reviews, resolve_reviews_rating.
  cbn [mbind result_bind target_type f_type].
  unfold cells. rewrite !follow_reviews by done.
  reflexivity.
Qed.

Lemma remove_dups_NoDup {A} `{!EqDecision A} (l : list A) :
  NoDup l → remove_dups l = l.
Proof.
  induction 1 as [|x l Hx _ IH]; [done|].
  cbn [remove_dups]. rewrite IH. by destruct (decide_rel elem_of x l).
Qed.

Lemma Qsum_inject_Z (zs : list Z) :
  (Qsum (map inject_Z zs) == inject_Z (foldr Z.add 0%Z zs))%Q.
Proof.
  induction zs as [|z zs IH]; simpl; [reflexivity|].
  rewrite IH, inject_Z_plus. reflexivity.
Qed.

Lemma round_sig_comp base prec (q q' : Q) :
  (q == q')%Q → round_sig base prec q = round_sig base prec q'.
Proof. intros H. unfold round_sig. by rewrite (Qred_complete q q' H). Qed.

Lemma mean_inject_Z (zs : list Z) :
  mean (map inject_Z zs)
  = match zs with
    | [] => VNone
    | z :: zs' => VFloat (float_mean (z :: zs'))
    end.
Proof.
  destruct zs as [|z zs]; [done|].
  unfold mean, float_mean. rewrite length_map.
  change (map inject_Z (z :: zs)) with (inject_Z z :: map inject_Z zs).
  cbv iota. do 2 f_equal.
  change (inject_Z z :: map inject_Z zs) with (map inject_Z (z :: zs)).
  apply round_sig_comp, Qsum_inject_Z.
Qed.

(** An integer below [2 ^ 53] is a double. *)
Lemma log_floor_log2 fuel n : 1 ≤ n → 0 ≤ log_floor fuel 2 n ≤ Z.log2 n.
Proof.
  revert n. induction fuel as [|fuel IH]; intros n Hn; cbn [log_floor].
  { split; [done|]. apply Z.log2_nonneg. }
  destruct (Z.ltb_spec n 2) as [H2|H2].
  { split; [done|]. apply Z.log2_nonneg. }
  assert (1 ≤ n / 2) as Hhalf by (apply Z.div_le_lower_bound; lia).
  specialize (IH (n / 2) Hhalf).
  assert (Z.log2 (n / 2) = Z.log2 n - 1) as Hlog.
  { pose proof (Z.div_mod n 2 ltac:(lia)) as Hdiv.
    pose proof (Z.mod_pos_bound n 2 ltac:(lia)) as Hmod.
    assert (n mod 2 = 0 ∨ n mod 2 = 1) as [Hr|Hr] by lia.
    - rewrite Hdiv at 2. rewrite Hr, Z.add_0_r, Z.log2_double by lia. lia.
    - rewrite Hdiv at 2. rewrite Hr, Z.log2_succ_double by lia. lia. }
  lia.
Qed.

Lemma Qred_inject_Z (z : Z) : Qred (inject_Z z) = inject_Z z.
Proof.
  unfold Qred, inject_Z.
  pose proof (Z.ggcd_gcd z 1) as Hg. pose proof (Z.ggcd_correct_divisors z 1) as Hd.
  destruct (Z.ggcd z 1) as [g [r1 r2]]. cbn [fst snd] in *.
  rewrite Z.gcd_1_r in Hg. subst g. destruct Hd as [H1 H2].
  rewrite Z.mul_1_l in H1, H2. by subst.
Qed.

Lemma binary64_integer (z : Z) : Z.abs z < 2 ^ 53 → binary64 (inject_Z z) = inject_Z z.
Proof.
  intros Hz. unfold binary64, round_sig. rewrite Qred_inject_Z.
  cbn [Qnum inject_Z]. destruct (Z.eqb_spec z 0) as [->|Hz0]; [done|].
  unfold leading_exponent. cbn [Qnum Qden inject_Z].
  rewrite (proj2 (Z.leb_le 1 (Z.abs z))) by lia. rewrite Z.div_1_r.
  pose proof (log_floor_log2 (S (Z.to_nat (Z.log2 (Z.abs z)))) (Z.abs z) ltac:(lia)) as He.
  assert (Z.log2 (Z.abs z) < 53) as Hlog by (apply Z.log2_lt_pow2; lia).
  set (e := log_floor _ 2 (Z.abs z)) in *. clearbody e.
  change (Z.of_nat 53) with 53.
  assert (0 ≤ 53 - 1 - e) as Hk by lia.
  rewrite (proj2 (Z.leb_le 0 (53 - 1 - e))) by done.
  set (k := 53 - 1 - e) in *. clearbody k.
  assert (0 < 2 ^ k) as Hpow by (apply Z.pow_pos_nonneg; lia).
  assert (round_half_even (inject_Z z * inject_Z (2 ^ k)) = z * 2 ^ k) as ->.
  { unfold round_half_even. cbn [Qnum Qden inject_Z Qmult Pos.mul].
    by rewrite Z.mod_1_r, Z.div_1_r. }
  rewrite <- (Qred_inject_Z z). apply Qred_complete.
  rewrite inject_Z_mult. field. intros H.
  assert (inject_Z (2 ^ k) == inject_Z 0)%Q as H0 by exact H.
  apply (proj1 (inject_Z_injective _ _)) in H0. rewrite H0 in Hpow.
  by apply Z.lt_irrefl in Hpow.
Qed.

Lemma float_mean_nearest (zs : list Z) :
  Z.abs (foldr Z.add 0 zs) < 2 ^ 53 → Z.of_nat (length zs) < 2 ^ 53 →
  float_mean zs = binary64 (arithmetic_mean zs).
Proof.
  intros Hsum Hlen. unfold float_mean, float_div, arithmetic_mean.
  by rewrite !binary64_integer by lia.
Qed.

Section WithRating.
Variable db : database.
Hypothesis reviews_typed :
  ∀ rv, rv ∈ table db Review → ∃ k z, pk_of rv = VInt k ∧ attr rv "rating" = VInt z.

Lemma review_keys_non_null r :
  non_null (map pk_of (reviews_of db r)) = map pk_of (reviews_of db r).
Proof.
  unfold non_null, reviews_of.
  induction (table db Review) as [|rv l IH] in reviews_typed |- *; [done|].
  rewrite filter_cons. case_decide.
  - change (map pk_of (rv :: ?l)) with (pk_of rv :: map pk_of l).
    destruct (reviews_typed rv) as (k & z & Hk & _); [left|].
    rewrite filter_cons_True by (by rewrite Hk). f_equal.
    apply IH. intros rv' ?. apply reviews_typed. by right.
  - apply IH. intros rv' ?. apply reviews_typed. by right.
Qed.

Lemma review_ratings r :
  omap to_Q (map (λ rv, attr rv "rating") (reviews_of db r))
  = map inject_Z (ratings_of db r).
Proof.
  unfold ratings_of, reviews_of.
  induction (table db Review) as [|rv l IH] in reviews_typed |- *; [done|].
  rewrite filter_cons. case_decide.
  - destruct (reviews_typed rv) as (k & z & _ & Hz); [left|].
    cbn [map omap list_omap]. rewrite Hz. cbn [to_Q map]. f_equal.
    apply IH. intros rv' ?. apply reviews_typed. by right.
  - apply IH. intros rv' ?. apply reviews_typed. by right.
Qed.

Lemma ratings_of_length r : length (ratings_of db r) = length (reviews_of db r).
Proof.
  unfold ratings_of, reviews_of.
  induction (table db Review) as [|rv l IH] in reviews_typed |- *; [done|].
  rewrite filter_cons. case_decide.
  - destruct (reviews_typed rv) as (k & z & _ & Hz); [left|].
    cbn [omap list_omap]. rewrite Hz. cbn [length]. f_equal.
    apply IH. intros rv' ?. apply reviews_typed. by right.
  - apply IH. intros rv' ?. apply reviews_typed. by right.
Qed.
End WithRating.

(** What [with_rating] makes of a product row [r]: the row [r'] has the
    attributes of [r] and two more. *)
Record annotated (db : database) (r r' : row) : Prop := {
  annotated_rest :
    ∀ a, a ≠ "review_count" → a ≠ "avg_rating" → get r' a = get r a;
  annotated_count :
    attr r' "review_count"
    = VInt (Z.of_nat (length (remove_dups (map pk_of (reviews_of db r)))));
  annotated_avg :
    attr r' "avg_rating"
    = match ratings_of db r with
      | [] => VNone
      | zs => VFloat (float_mean zs)
      end
}.

(** C3. On a table of reviews with integer keys and ratings, [with_rating()]
    returns every product of the query set with [review_count] equal to the
    number of distinct reviews of the product and [avg_rating] equal to the
    mean of their ratings as the database computes it, in doubles, [None]
    when there is no review.  As long as the sum of the ratings is below
    [2 ^ 53] that is the double nearest to the arithmetic mean: a product
    whose reviews are rated 3 and 5 gets [review_count = 2] and
    [avg_rating = 4.0], one whose reviews are rated 1, 1 and 2 gets
    1.3333333333333333, a product without reviews gets 0 and [None]. *)
Theorem with_rating_annotates (db : database) (self : list row) :
  (∀ r, r ∈ self → pk_of r ≠ VNone) →
  (∀ rv, rv ∈ table db Review → ∃ k z, pk_of rv = VInt k ∧ attr rv "rating" = VInt z) →
  ∃ l, with_rating db self = Ok l
     ∧ Forall2 (annotated db) self l
     ∧ Forall2 (λ r r',
          (ratings_of db r ≠ [] →
           Z.abs (foldr Z.add 0 (ratings_of db r)) < 2 ^ 53 →
           Z.of_nat (length (ratings_of db r)) < 2 ^ 53 →
             attr r' "avg_rating" = VFloat (binary64 (arithmetic_mean (ratings_of db r))))
          ∧ (ratings_of db r = [3; 5] → NoDup (map pk_of (reviews_of db r)) →
             attr r' "review_count" = VInt 2 ∧ attr r' "avg_rating" = VFloat 4)
          ∧ (ratings_of db r = [1; 1; 2] →
             attr r' "avg_rating" = VFloat (6004799503160661 # 4503599627370496))
          ∧ (reviews_of db r = [] →
             attr r' "review_count" = VInt 0 ∧ attr r' "avg_rating" = VNone))
        self l.
Proof.
  intros Hkeys Htyped.
  assert (Hrow : ∀ r, r ∈ self → ∃ r',
            annotate_row db Product
              [("review_count", Count "reviews" true);
               ("avg_rating", Avg "reviews__rating")] r = Ok r'
            ∧ annotated db r r').
  { intros r Hr. eexists. split; [by apply annotate_row_with_rating, Hkeys|].
    split.
    - intros a H1 H2. by rewrite !get_set_attr_ne.
    - rewrite attr_set_attr_eq. by rewrite review_keys_non_null.
    - rewrite attr_set_attr_ne, attr_set_attr_eq by done.
      rewrite review_ratings by done. apply mean_inject_Z. }
  assert (Hall : ∃ l, with_rating db self = Ok l ∧ Forall2 (annotated db) self l).
  { unfold with_rating, annotate. clear Hkeys.
    induction self as [|r self IH]; [by exists []; split; [|constructor]|].
    destruct (Hrow r) as (r' & Hr' & Hann); [left|].
    destruct IH as (l & Hl & HF); [intros; apply Hrow; by right|].
    exists (r' :: l). split; [|by constructor].
    cbn [mapM_result]. rewrite Hr', Hl. reflexivity. }
  destruct Hall as (l & Hl & HF). exists l. split; [done|]. split; [done|].
  eapply Forall2_impl; [exact HF|].
  intros r r' [_ Hc Ha]. split; [|split; [|split]].
  - intros Hne Hsum Hlen. rewrite Ha, <- float_mean_nearest by done.
    by destruct (ratings_of db r).
  - intros Hz Hnd. split.
    + rewrite Hc, remove_dups_NoDup by done.
      rewrite length_map, <- ratings_of_length, Hz by done. done.
    + rewrite Ha, Hz. reflexivity.
  - intros Hz. rewrite Ha, Hz. reflexivity.
  - intros Hnil. split.
    + by rewrite Hc, Hnil.
    + rewrite Ha. unfold ratings_of. by rewrite Hnil.
Qed.

(** ** A small shop *)

Definition kwargs (l : list (string * value)) : row := l.

(** One category, one product in it, one customer. *)
Definition shop : database :=
  let db := (create empty_db Category (kwargs [("name", VStr "Books")]) 100).1 in
  let db := (create db Product
               (kwargs [("name", VStr "Novel"); ("price", VDecimal (999 # 100));
                        ("category_id", VInt 1); ("stock_quantity", VInt 5)]) 101).1 in
  (create db Customer
     (kwargs [("first_name", VStr "Ada"); ("last_name", VStr "Lovelace");
              ("email", VStr "ada@example.org")]) 102).1.

Definition review (product customer rating : Z) : row :=
  kwargs [("product_id", VInt product); ("customer_id", VInt customer);
          ("rating", VInt rating)].

(** The shop after the customer reviewed the product once, and twice. *)
Definition shop_reviewed_once : database :=
  (create shop Review (review 1 1 3) 103).1.

Definition shop_reviewed : database :=
  (create shop_reviewed_once Review (review 1 1 5) 104).1.

Lemma with_rating_annotates_witness :
  ∃ l, with_rating shop_reviewed (objects shop_reviewed Product) = Ok l
     ∧ Forall2 (annotated shop_reviewed) (objects shop_reviewed Product) l
     ∧ Forall2 (λ r r',
          (ratings_of shop_reviewed r ≠ [] →
           Z.abs (foldr Z.add 0 (ratings_of shop_reviewed r)) < 2 ^ 53 →
           Z.of_nat (length (ratings_of shop_reviewed r)) < 2 ^ 53 →
             attr r' "avg_rating"
             = VFloat (binary64 (arithmetic_mean (ratings_of shop_reviewed r))))
          ∧ (ratings_of shop_reviewed r = [3; 5] →
           NoDup (map pk_of (reviews_of shop_reviewed r)) →
             attr r' "review_count" = VInt 2 ∧ attr r' "avg_rating" = VFloat 4)
          ∧ (ratings_of shop_reviewed r = [1; 1; 2] →
             attr r' "avg_rating" = VFloat (6004799503160661 # 4503599627370496))
          ∧ (reviews_of shop_reviewed r = [] →
             attr r' "review_count" = VInt 0 ∧ attr r' "avg_rating" = VNone))
        (objects shop_reviewed Product) l.
Proof.
  apply (with_rating_annotates shop_reviewed (objects shop_reviewed Product)).
  - intros r Hr. vm_compute in Hr.
    repeat (apply elem_of_cons in Hr as [->|Hr]; [vm_compute; discriminate|]).
    by apply elem_of_nil in Hr.
  - intros rv Hr. vm_compute in Hr.
    repeat (apply elem_of_cons in Hr as [->|Hr];
            [eexists _, _; vm_compute; split; reflexivity|]).
    by apply elem_of_nil in Hr.
Defined.

(** C10. [Review] declares no uniqueness constraint and no unique column
    besides its key; in the shop above one customer writes two reviews of
    one product, both pass validation and both are stored, under the keys 1
    and 2, and [with_rating()] then gives the product [review_count = 2] and
    the mean of the two ratings as [avg_rating]. *)
Theorem duplicate_reviews_counted :
  constraints Review = []
  ∧ Forall (λ f, is_unique f = true → f_name f = "id") (concrete_fields Review)
  ∧ (∀ validate_email,
       full_clean validate_email shop Review true (init Review (review 1 1 3) 103) = [])
  ∧ create shop Review (review 1 1 3) 103 = (shop_reviewed_once, Ok (VInt 1))
  ∧ (∀ validate_email,
       full_clean validate_email shop_reviewed_once Review true
         (init Review (review 1 1 5) 104) = [])
  ∧ create shop_reviewed_once Review (review 1 1 5) 104 = (shop_reviewed, Ok (VInt 2))
  ∧ map (λ rv, (pk_of rv, attr rv "product_id", attr rv "customer_id", attr rv "rating"))
        (table shop_reviewed Review)
    = [(VInt 1, VInt 1, VInt 1, VInt 3); (VInt 2, VInt 1, VInt 1, VInt 5)]
  ∧ ∃ r', with_rating shop_reviewed (objects shop_reviewed Product) = Ok [r']
        ∧ pk_of r' = VInt 1
        ∧ attr r' "review_count" = VInt 2
        ∧ attr r' "avg_rating" = VFloat (Qred ((3 + 5) / 2)).
Proof.
  split; [done|]. split.
  { repeat constructor; vm_compute; first [done | discriminate]. }
  split; [intros; vm_compute; reflexivity|].
  split; [apply injective_projections; [reflexivity | vm_compute; reflexivity]|].
  split; [intros; vm_compute; reflexivity|].
  split; [apply injective_projections; [reflexivity | vm_compute; reflexivity]|].
  split; [vm_compute; reflexivity|].
  eexists. split; [vm_compute; reflexivity|].
  split; [vm_compute; reflexivity|].
  split; vm_compute; reflexivity.
Qed.

(** ** Model.delete on a product *)

Lemma table_apply_collector c db m :
  table (apply_collector c db) m
  = filter (λ r, (m, pk_of r) ∉ data c)
      (map (λ r, foldr (λ u r', if decide (u.1.1 = m ∧ u.2 = pk_of r)
                                then set_attr u.1.2 VNone r' else r')
                       r (field_updates c))
           (table db m)).
Proof. by destruct m. Qed.

Lemma collect_leaf depth db m pks :
  related_objects m = [] →
  collect (S depth) db m pks = Some (Collector (map (λ pk, (m, pk)) pks) [] []).
Proof. intros H. cbn [collect]. by rewrite H. Qed.

(** The rows of [m] whose column [column] holds the key [pk]. *)
Definition referring (db : database) (m : model) (column : string) (pk : Z)
  : list row :=
  filter (λ r, attr r column = VInt pk) (table db m).

Lemma sub_objs_referring db m column pk :
  filter (λ r', attr r' column ≠ VNone ∧ attr r' column ∈ [VInt pk]) (table db m)
  = referring db m column pk.
Proof.
  unfold referring. apply list_filter_iff. intros r. split.
  - intros [_ H]. by apply list_elem_of_singleton in H.
  - intros ->. split; [done | by apply list_elem_of_singleton].
Qed.

(** A cascade to a model nothing points to collects the referring rows and
    nothing else. *)
Lemma collect_related_cascade_leaf depth db pk m' f c :
  related_objects m' = [] →
  get_on_delete f = Some CASCADE →
  collect_related (collect (S depth) db) db [VInt pk] (m', f) (Some c)
  = Some (collector_app
            (Collector (map (λ r, (m', pk_of r)) (referring db m' (attname f) pk)) [] [])
            c).
Proof.
  intros Hleaf Hdel. unfold collect_related.
  rewrite sub_objs_referring, Hdel, collect_leaf by done.
  destruct (referring db m' _ pk) as [|r l] eqn:E.
  - by destruct c.
  - cbn [mbind option_bind]. by rewrite map_map.
Qed.

Lemma collect_related_protect collect_more db pk m' f c :
  get_on_delete f = Some PROTECT →
  collect_related collect_more db [VInt pk] (m', f) (Some c)
  = Some (collector_app
            (Collector [] []
               (if decide (referring db m' (attname f) pk = [])
                then [] else [(m', f_name f)]))
            c).
Proof.
  intros Hdel. unfold collect_related. rewrite sub_objs_referring, Hdel.
  destruct (referring db m' _ pk) as [|r l] eqn:E.
  - rewrite decide_True by done. by destruct c.
  - by rewrite decide_False.
Qed.

Definition cascaded (db : database) (pk : Z) : list (model * value) :=
  map (λ r, (ProductDetail, pk_of r)) (referring db ProductDetail "product_id" pk)
  ++ map (λ r, (ProductSupplier, pk_of r)) (referring db ProductSupplier "product_id" pk)
  ++ map (λ r, (ProductTag, pk_of r)) (referring db ProductTag "product_id" pk)
  ++ map (λ r, (Review, pk_of r)) (referring db Review "product_id" pk)
  ++ [(Product, VInt pk)].

Lemma related_objects_Product :
  related_objects Product
  = [ (ProductDetail,
       Field "product" (OneToOneField Product) [on_delete CASCADE; related_name "details"]);
      (ProductSupplier,
       Field "product" (ForeignKey Product)
         [on_delete CASCADE; related_name "product_suppliers"]);
      (ProductTag,
       Field "product" (ForeignKey Product)
         [on_delete CASCADE; related_name "product_tags"]);
      (OrderItem,
       Field "product" (ForeignKey Product)
         [on_delete PROTECT; related_name "order_items"]);
      (Review,
       Field "product" (ForeignKey Product) [on_delete CASCADE; related_name "reviews"]) ].
Proof. reflexivity. Qed.

Lemma collect_Product db pk :
  collect (length all_models) db Product [VInt pk]
  = Some (Collector (cascaded db pk) []
            (if decide (referring db OrderItem "product_id" pk = [])
             then [] else [(OrderItem, "product")])).
Proof.
  change (length all_models) with 12%nat.
  change (collect 12 db Product [VInt pk])
    with (foldr (collect_related (collect 11 db) db [VInt pk])
            (Some (Collector [(Product, VInt pk)] [] []))
            (related_objects Product)).
  rewrite related_objects_Product. cbn [foldr].
  rewrite collect_related_cascade_leaf by done.
  rewrite collect_related_protect by done.
  rewrite !collect_related_cascade_leaf by done.
  unfold collector_app, cascaded. cbn [data field_updates protected].
  cbn [attname remote_model f_type f_name].
  change ("product" +:+ "_id") with "product_id".
  by destruct (decide (referring db OrderItem "product_id" pk = [])).
Qed.

Lemma elem_of_map {A B} (f : A → B) (l : list A) (y : B) :
  y ∈ map f l ↔ ∃ x, y = f x ∧ x ∈ l.
Proof.
  induction l as [|a l IH]; simpl.
  - split; [by intros ?%elem_of_nil | by intros (? & _ & ?%elem_of_nil)].
  - rewrite elem_of_cons, IH. split.
    + intros [->|(x & -> & ?)]; [exists a | exists x]; split; try done;
        [by left | by right].
    + intros (x & -> & [->|?]%elem_of_cons); [by left | right; eauto].
Qed.

Lemma map_id_ext {A} (f : A → A) (l : list A) : (∀ a, f a = a) → map f l = l.
Proof. intros H. induction l as [|a l IH]; simpl; [done | by rewrite H, IH]. Qed.

Lemma filter_all {A} (P : A → Prop) `{!∀ a, Decision (P a)} (l : list A) :
  (∀ a, a ∈ l → P a) → filter P l = l.
Proof.
  intros HP. induction l as [|a l IH]; [done|].
  rewrite filter_cons_True by (apply HP; left).
  f_equal. apply IH. intros; apply HP. by right.
Qed.

Definition cascade_tables : list model :=
  [ProductDetail; ProductSupplier; ProductTag; Review].

Lemma Product_not_cascaded : Product ∉ cascade_tables.
Proof.
  unfold cascade_tables. intros H.
  repeat (apply elem_of_cons in H as [?|H]; [discriminate|]).
  by apply elem_of_nil in H.
Qed.

Lemma elem_of_cascaded db pk m k :
  (m, k) ∈ cascaded db pk
  ↔ (m = Product ∧ k = VInt pk)
    ∨ (m ∈ cascade_tables ∧ ∃ r, r ∈ referring db m "product_id" pk ∧ k = pk_of r).
Proof.
  unfold cascaded, cascade_tables.
  rewrite !elem_of_app, !elem_of_map, list_elem_of_singleton.
  repeat setoid_rewrite elem_of_cons. setoid_rewrite elem_of_nil.
  split.
  - intros [(r & [= -> ->] & ?)|[(r & [= -> ->] & ?)|[(r & [= -> ->] & ?)
            |[(r & [= -> ->] & ?)|[= -> ->]]]]]; eauto 10.
  - intros [[-> ->]|[[->|[->|[->|[->|[]]]]] (r & ? & ->)]]; eauto 10.
Qed.

(** The state [db'] is [db] without the product [pk] and what referred to
    it: the product is gone, with every detail, supplier link, tag link and
    review that referred to it; no row is added or changed; the other
    products are kept, and so are (in a table with distinct keys) the
    details, links and reviews of other products; the remaining tables are
    as they were. *)
Record product_deleted (db : database) (pk : Z) (db' : database) : Prop := {
  product_gone : ∀ r, r ∈ table db' Product → pk_of r ≠ VInt pk;
  dependents_gone :
    ∀ m r, m ∈ cascade_tables → r ∈ table db' m → attr r "product_id" ≠ VInt pk;
  nothing_new : ∀ m r, r ∈ table db' m → r ∈ table db m;
  products_kept :
    ∀ r, r ∈ table db Product → pk_of r ≠ VInt pk → r ∈ table db' Product;
  dependents_kept :
    ∀ m r, m ∈ cascade_tables → NoDup (map pk_of (table db m)) →
      r ∈ table db m → attr r "product_id" ≠ VInt pk → r ∈ table db' m;
  others_untouched :
    ∀ m, m ∉ Product :: cascade_tables → table db' m = table db m
}.

(** C5. Deleting the product with key [pk]: if an order item refers to it,
    the deletion is refused with [ProtectedError] and the database is left as
    it was; otherwise it succeeds and cascades to the product's detail,
    supplier links, tag links and reviews. *)
Theorem delete_Product_cascades_unless_ordered (db : database) (pk : Z) :
  ((∃ item, item ∈ table db OrderItem ∧ attr item "product_id" = VInt pk) →
     delete db Product (VInt pk) = (db, Err (ProtectedError OrderItem "product")))
  ∧ ((∀ item, item ∈ table db OrderItem → attr item "product_id" ≠ VInt pk) →
     ∃ db' n, delete db Product (VInt pk) = (db', Ok n) ∧ product_deleted db pk db').
Proof.
  assert (Hdel : delete db Product (VInt pk)
    = if decide (referring db OrderItem "product_id" pk = [])
      then (apply_collector (Collector (cascaded db pk) [] []) db,
            Ok (length (all_models ≫= λ m',
                  filter (λ r, (m', pk_of r) ∈ cascaded db pk) (table db m'))))
      else (db, Err (ProtectedError OrderItem "product"))).
  { unfold delete. rewrite decide_False by done. rewrite collect_Product.
    cbn [protected data]. by case_decide. }
  split.
  - intros (item & Hin & Hitem). rewrite Hdel, decide_False; [done|].
    intros Hnil. exact (filter_nil_not_elem_of _ _ item Hnil Hitem Hin).
  - intros Hfree. rewrite Hdel, decide_True.
    2:{ apply elem_of_nil_inv. intros r [Hr ?]%list_elem_of_filter. by eapply Hfree. }
    eexists _, _. split; [done|].
    assert (Htab : ∀ m, table (apply_collector (Collector (cascaded db pk) [] []) db) m
                       = filter (λ r, (m, pk_of r) ∉ cascaded db pk) (table db m)).
    { intros m. rewrite table_apply_collector. cbn [data field_updates foldr].
      by rewrite map_id_ext. }
    split.
    + intros r Hr Hpk. rewrite Htab in Hr. apply list_elem_of_filter in Hr as [Hr _].
      apply Hr, elem_of_cascaded. by left.
    + intros m r Hm Hr Href. rewrite Htab in Hr.
      apply list_elem_of_filter in Hr as [Hr Hin].
      apply Hr, elem_of_cascaded. right. split; [done|].
      exists r. split; [|done]. by apply list_elem_of_filter.
    + intros m r Hr. rewrite Htab in Hr. by apply list_elem_of_filter in Hr as [_ ?].
    + intros r Hr Hpk. rewrite Htab. apply list_elem_of_filter. split; [|done].
      intros [[_ ?]|[Hm _]]%elem_of_cascaded; [done|].
      by apply Product_not_cascaded in Hm.
    + intros m r Hm Hnd Hr Href. rewrite Htab. apply list_elem_of_filter.
      split; [|done].
      intros [[-> _]|[_ (r' & [Href' Hr']%list_elem_of_filter & Hk)]]%elem_of_cascaded.
      { by apply Product_not_cascaded in Hm. }
      assert (r = r') as ->; [|done].
      clear -Hnd Hr Hr' Hk. induction (table db m) as [|x l IH]; [by apply elem_of_nil in Hr|].
      cbn [map] in Hnd. apply NoDup_cons in Hnd as [Hx Hnd].
      apply elem_of_cons in Hr as [->|Hr]; apply elem_of_cons in Hr' as [->|Hr'];
        try done; try by apply IH.
      * exfalso. apply Hx. rewrite Hk. apply elem_of_map. eauto.
      * exfalso. apply Hx. rewrite <- Hk. apply elem_of_map. eauto.
    + intros m Hm. rewrite Htab. apply filter_all. intros r _.
      intros [[-> _]|[Hm' _]]%elem_of_cascaded; apply Hm; [by left | by right].
Qed.

(** The shop after the customer ordered the product. *)
Definition shop_ordered : database :=
  let db := (create shop_reviewed Order
               (kwargs [("customer_id", VInt 1); ("total_amount", VDecimal (999 # 100))])
               105).1 in
  (create db OrderItem
     (kwargs [("order_id", VInt 1); ("product_id", VInt 1); ("quantity", VInt 1);
              ("unit_price", VDecimal (999 # 100))]) 106).1.

Lemma delete_Product_cascades_unless_ordered_witness :
  delete shop_ordered Product (VInt 1)
  = (shop_ordered, Err (ProtectedError OrderItem "product"))
  ∧ ∃ db' n, delete shop_reviewed Product (VInt 1) = (db', Ok n)
           ∧ product_deleted shop_reviewed 1 db'.
Proof.
  split.
  - apply (proj1 (delete_Product_cascades_unless_ordered shop_ordered 1)).
    exists (List.hd [] (table shop_ordered OrderItem)).
    split; [vm_compute; left | vm_compute; reflexivity].
  - apply (proj2 (delete_Product_cascades_unless_ordered shop_reviewed 1)).
    intros item Hin. vm_compute in Hin. by apply elem_of_nil in Hin.
Defined.

(** ** Validation and insertion *)

Arguments table : simpl never.
Arguments Qltb : simpl never.
Arguments next_id : simpl never.
Arguments set_table : simpl never.

Lemma Qltb_inject_Z (a b : Z) : Qltb (inject_Z a) (inject_Z b) = bool_decide (a < b).
Proof.
  unfold Qltb, Qle_bool. simpl. rewrite !Z.mul_1_r.
  destruct (Z.leb_spec b a); [by rewrite bool_decide_eq_false_2 by lia|].
  by rewrite bool_decide_eq_true_2.
Qed.

Lemma table_set_table_eq db m rows : table (set_table db m rows) m = rows.
Proof. unfold table, set_table. by rewrite lookup_insert_eq. Qed.

Lemma table_set_table_ne db m m' rows :
  m ≠ m' → table (set_table db m rows) m' = table db m'.
Proof. intros. unfold table, set_table. by rewrite lookup_insert_ne. Qed.

(** The key handed out next is above every key of the table. *)
Lemma next_id_above db m r k :
  r ∈ table db m → pk_of r = VInt k → k < next_id db m.
Proof.
  unfold next_id. induction (table db m) as [|x l IH]; [by intros ?%elem_of_nil|].
  intros [->|Hr]%elem_of_cons Hk; cbn [foldr].
  - rewrite Hk. lia.
  - specialize (IH Hr Hk). destruct (pk_of x); lia.
Qed.

Lemma next_id_fresh db m :
  filter (λ r, attr r "id" = VInt (next_id db m)) (table db m) = [].
Proof.
  apply elem_of_nil_inv. intros r [Hk Hr]%list_elem_of_filter.
  pose proof (next_id_above db m r _ Hr Hk). lia.
Qed.

(** Whether the table of [m] has a row with key [k]. *)
Definition exists_pk (db : database) (m : model) (k : Z) : Prop :=
  filter (λ r, pk_of r = VInt k) (table db m) ≠ [].

(** The range of an integer column. *)
Definition int32 (z : Z) : Prop := -2147483648 ≤ z ≤ 2147483647.

Ltac eval_fields m :=
  let l := eval vm_compute in (concrete_fields m) in
  change (concrete_fields m) with l.

Ltac eval_init :=
  match goal with
  | |- context [init ?m ?kw ?now] =>
      let r := eval vm_compute in (init m kw now) in
      change (init m kw now) with r
  end.

(** *** Review.rating *)

Lemma clean_fields_Review ve db p c z now :
  exists_pk db Product p → exists_pk db Customer c →
  clean_fields ve db Review (init Review (review p c z) now)
  = (if bool_decide (z < 1) then [ValidationError "rating" "min_value"] else [])
    ++ (if bool_decide (5 < z) then [ValidationError "rating" "max_value"] else []).
Proof.
  intros Hp Hc. unfold clean_fields. eval_fields Review. eval_init.
  simpl. unfold clean, attr, attname. simpl.
  rewrite !bool_decide_eq_false_2 by done. rewrite !Qltb_inject_Z.
  by repeat case_bool_decide.
Qed.

Lemma full_clean_Review ve db p c z now :
  exists_pk db Product p → exists_pk db Customer c →
  full_clean ve db Review true (init Review (review p c z) now)
  = (if bool_decide (z < 1) then [ValidationError "rating" "min_value"] else [])
    ++ (if bool_decide (5 < z) then [ValidationError "rating" "max_value"] else []).
Proof.
  intros Hp Hc. unfold full_clean. rewrite clean_fields_Review by done.
  cut (∀ ex, validate_unique db Review true ex (init Review (review p c z) now) = []
           ∧ validate_constraints db Review true ex (init Review (review p c z) now) = []).
  { intros H.
    match goal with
    | |- context [validate_unique _ _ _ ?ex _] => destruct (H ex) as [-> ->]
    end.
    by rewrite !app_nil_r. }
  intros ex. split; [|done].
  unfold validate_unique. eval_fields Review. eval_init. simpl.
  by rewrite andb_false_r.
Qed.

Lemma create_Review db p c z now :
  exists_pk db Product p → exists_pk db Customer c →
  int32 p → int32 c → int32 z →
  create db Review (review p c z) now
  = (set_table db Review
       (table db Review
        ++ [[("id", VInt (next_id db Review)); ("created_at", VDateTime now);
             ("updated_at", VDateTime now); ("product_id", VInt p);
             ("customer_id", VInt c); ("rating", VInt z); ("comment", VStr "")]]),
     Ok (VInt (next_id db Review))).
Proof.
  intros Hp Hc Rp Rc Rz. unfold create, insert. eval_fields Review. eval_init.
  unfold pre_save. simpl. unfold db_prep, attr, attname. simpl.
  rewrite !bool_decide_eq_true_2 by done. simpl.
  unfold integrity_error. eval_fields Review. simpl.
  unfold not_null_error, check_error, unique_error, foreign_key_error, attr, attname.
  simpl.
  change (λ r' : row, default VNone (get r' "id") = VInt (next_id db Review))
    with (λ r' : row, attr r' "id" = VInt (next_id db Review)).
  rewrite next_id_fresh. simpl.
  change (λ r' : row, pk_of r' = VInt p) with (λ r' : row, pk_of r' = VInt p).
  rewrite !bool_decide_eq_false_2 by done. done.
Qed.

(** Stored as written: a review rated 6, and one rated 0, written with
    [create] into the shop. *)
Lemma Review_rating_out_of_bounds_is_stored :
  (create shop Review (review 1 1 6) 103).2 = Ok (VInt 1)
  ∧ map (λ rv, attr rv "rating") (table (create shop Review (review 1 1 6) 103).1 Review)
    = [VInt 6]
  ∧ (create shop Review (review 1 1 0) 103).2 = Ok (VInt 1)
  ∧ map (λ rv, attr rv "rating") (table (create shop Review (review 1 1 0) 103).1 Review)
    = [VInt 0].
Proof. repeat split; vm_compute; reflexivity. Qed.

(** C4, amended. For an existing product and customer, model validation
    ([full_clean]) of a review fails on [rating] for the ratings 6 and 0 and
    succeeds for 1 and 5; it succeeds exactly for the ratings from 1 to 5.
    The bound lives in the validators only: the table has no constraint on
    [rating], and [create] stores a review with any rating that fits the
    integer column. *)
Theorem Review_rating_validated_not_constrained
    (validate_email : string → bool) (db : database) (p c now : Z) :
  exists_pk db Product p → exists_pk db Customer c → int32 p → int32 c →
  full_clean validate_email db Review true (init Review (review p c 6) now)
    = [ValidationError "rating" "max_value"]
  ∧ full_clean validate_email db Review true (init Review (review p c 0) now)
    = [ValidationError "rating" "min_value"]
  ∧ full_clean validate_email db Review true (init Review (review p c 1) now) = []
  ∧ full_clean validate_email db Review true (init Review (review p c 5) now) = []
  ∧ (∀ z, full_clean validate_email db Review true (init Review (review p c z) now) = []
          ↔ 1 ≤ z ≤ 5)
  ∧ (∀ z, int32 z →
       ∃ db', create db Review (review p c z) now = (db', Ok (VInt (next_id db Review)))
            ∧ map (λ rv, attr rv "rating") (table db' Review)
              = map (λ rv, attr rv "rating") (table db Review) ++ [VInt z]).
Proof.
  intros Hp Hc Rp Rc.
  split; [by rewrite full_clean_Review|].
  split; [by rewrite full_clean_Review|].
  split; [by rewrite full_clean_Review|].
  split; [by rewrite full_clean_Review|].
  split.
  - intros z. rewrite full_clean_Review by done. split.
    + repeat case_bool_decide; (done || lia).
    + intros ?. by rewrite !bool_decide_eq_false_2 by lia.
  - intros z Rz. eexists. split; [by apply create_Review|].
    by rewrite table_set_table_eq, map_app.
Qed.

Lemma Review_rating_validated_not_constrained_witness :
  full_clean (λ _, true) shop Review true (init Review (review 1 1 6) 103)
    = [ValidationError "rating" "max_value"]
  ∧ full_clean (λ _, true) shop Review true (init Review (review 1 1 0) 103)
    = [ValidationError "rating" "min_value"]
  ∧ full_clean (λ _, true) shop Review true (init Review (review 1 1 1) 103) = []
  ∧ full_clean (λ _, true) shop Review true (init Review (review 1 1 5) 103) = []
  ∧ (∀ z, full_clean (λ _, true) shop Review true (init Review (review 1 1 z) 103) = []
          ↔ 1 ≤ z ≤ 5)
  ∧ (∀ z, int32 z →
       ∃ db', create shop Review (review 1 1 z) 103
              = (db', Ok (VInt (next_id shop Review)))
            ∧ map (λ rv, attr rv "rating") (table db' Review)
              = map (λ rv, attr rv "rating") (table shop Review) ++ [VInt z]).
Proof.
  apply (Review_rating_validated_not_constrained (λ _, true) shop 1 1 103).
  - vm_compute. discriminate.
  - vm_compute. discriminate.
  - unfold int32. lia.
  - unfold int32. lia.
Defined.

(** *** Order.status *)

Definition order (customer : Z) (total_amount : Q) : row :=
  kwargs [("customer_id", VInt customer); ("total_amount", VDecimal total_amount)].

Definition order_with_status (customer : Z) (total_amount : Q) (status : string) : row :=
  kwargs [("customer_id", VInt customer); ("total_amount", VDecimal total_amount);
          ("status", VStr status)].

(** A non-negative amount of at most 10 digits, 2 of them after the
    point. *)
Definition valid_amount (q : Q) : Prop := (0 <= q)%Q ∧ decimal_fits 10 2 q = true.

Lemma Qltb_0_false (q : Q) : (0 <= q)%Q → Qltb q (inject_Z 0) = false.
Proof.
  intros H. unfold Qltb. apply negb_false_iff. by apply Qle_bool_iff.
Qed.

Definition status_values : list string := map Status.value Status.members.

Lemma full_clean_Order ve db c total s now :
  exists_pk db Customer c → valid_amount total →
  full_clean ve db Order true (init Order (order_with_status c total s) now)
  = if decide (s ∈ status_values) then []
    else [ValidationError "status"
            (if decide (s = "") then "blank" else "invalid_choice")].
Proof.
  intros Hc [Ht1 Ht2].
  assert (Hcf : clean_fields ve db Order (init Order (order_with_status c total s) now)
    = if decide (s ∈ status_values) then []
      else [ValidationError "status"
              (if decide (s = "") then "blank" else "invalid_choice")]).
  { unfold clean_fields. eval_fields Order. eval_init.
    simpl. unfold clean, attr, attname. simpl.
    rewrite bool_decide_eq_false_2 by done. rewrite Qltb_0_false, Ht2 by done.
    case_decide as Hs.
    - unfold status_values in Hs. simpl in Hs.
      repeat (apply elem_of_cons in Hs as [->|Hs]; [done|]).
      by apply elem_of_nil in Hs.
    - assert (Hn : ¬ VStr s ∈ [VStr "pending"; VStr "completed"; VStr "shipped";
                                VStr "cancelled"]).
      { intros H. apply Hs. unfold status_values. simpl.
        repeat (apply elem_of_cons in H as [[= ->]|H];
                [first [by left | by right; left | by do 2 right; left
                       | by do 3 right; left]|]).
        by apply elem_of_nil in H. }
      rewrite (bool_decide_eq_false_2 _ Hn). by destruct s. }
  unfold full_clean. rewrite Hcf.
  cut (∀ ex, validate_unique db Order true ex (init Order (order_with_status c total s) now) = []
           ∧ validate_constraints db Order true ex
               (init Order (order_with_status c total s) now) = []).
  { intros H.
    match goal with
    | |- context [validate_unique _ _ _ ?ex _] => destruct (H ex) as [-> ->]
    end.
    by rewrite !app_nil_r. }
  intros ex. split; [|done].
  unfold validate_unique. eval_fields Order. eval_init. simpl.
  by rewrite andb_false_r.
Qed.

Lemma create_Order db c total s now :
  exists_pk db Customer c → int32 c → decimal_fits 10 2 total = true →
  (String.length s ≤ 20)%nat →
  create db Order (order_with_status c total s) now
  = (set_table db Order
       (table db Order
        ++ [[("id", VInt (next_id db Order)); ("created_at", VDateTime now);
             ("updated_at", VDateTime now); ("created_by_id", VNone);
             ("is_active", VBool true); ("customer_id", VInt c);
             ("order_date", VDateTime now); ("total_amount", VDecimal total);
             ("status", VStr s)]]),
     Ok (VInt (next_id db Order))).
Proof.
  intros Hc Rc Ht Hs. unfold create, insert. eval_fields Order. eval_init.
  unfold pre_save. simpl. unfold db_prep, attr, attname. simpl.
  rewrite Ht, (bool_decide_eq_true_2 (_ ≤ c ≤ _)) by done.
  rewrite (bool_decide_eq_false_2 (20 < _)%nat) by lia. simpl.
  unfold integrity_error. eval_fields Order. simpl.
  unfold not_null_error, check_error, unique_error, foreign_key_error, attr, attname.
  simpl.
  change (λ r' : row, default VNone (get r' "id") = VInt (next_id db Order))
    with (λ r' : row, attr r' "id" = VInt (next_id db Order)).
  rewrite next_id_fresh. simpl.
  by rewrite !bool_decide_eq_false_2 by done.
Qed.

Lemma init_Order_default_status c total now :
  init Order (order c total) now = init Order (order_with_status c total "pending") now.
Proof. reflexivity. Qed.

(** Stored as written: an order whose status is none of the four. *)
Lemma Order_status_outside_choices_is_stored :
  (create shop Order (order_with_status 1 0 "refunded") 105).2 = Ok (VInt 1)
  ∧ map (λ o, attr o "status")
        (table (create shop Order (order_with_status 1 0 "refunded") 105).1 Order)
    = [VStr "refunded"]
  ∧ "refunded" ∉ status_values.
Proof.
  split; [vm_compute; reflexivity|]. split; [vm_compute; reflexivity|].
  unfold status_values. simpl. intros H.
  repeat (apply elem_of_cons in H as [?|H]; [discriminate|]).
  by apply elem_of_nil in H.
Qed.

(** C9, amended. [Order.Status] has exactly the four members [pending],
    [completed], [shipped] and [cancelled], and an order passes model
    validation ([full_clean]) exactly when its status is one of their
    values; an order created without a status gets [pending].  The column
    itself is a string of at most 20 characters: [create] stores whatever
    such string the order carries. *)
Theorem Order_status_choices_validated_default_pending
    (validate_email : string → bool) (db : database) (c : Z) (total : Q) (now : Z) :
  exists_pk db Customer c → int32 c → valid_amount total →
  status_values = ["pending"; "completed"; "shipped"; "cancelled"]
  ∧ (∀ s, full_clean validate_email db Order true
            (init Order (order_with_status c total s) now) = []
          ↔ s ∈ status_values)
  ∧ attr (init Order (order c total) now) "status" = VStr "pending"
  ∧ (∃ db', create db Order (order c total) now = (db', Ok (VInt (next_id db Order)))
          ∧ map (λ o, attr o "status") (table db' Order)
            = map (λ o, attr o "status") (table db Order) ++ [VStr "pending"])
  ∧ (∀ s, (String.length s ≤ 20)%nat →
       ∃ db', create db Order (order_with_status c total s) now
              = (db', Ok (VInt (next_id db Order)))
            ∧ map (λ o, attr o "status") (table db' Order)
              = map (λ o, attr o "status") (table db Order) ++ [VStr s]).
Proof.
  intros Hc Rc Ht.
  split; [done|]. split.
  { intros s. rewrite full_clean_Order by done. by case_decide. }
  split; [done|]. split.
  - eexists. split.
    + unfold create. rewrite init_Order_default_status.
      apply (create_Order db c total "pending" now); try done; [apply Ht | simpl; lia].
    + by rewrite table_set_table_eq, map_app.
  - intros s Hs. eexists. split; [apply create_Order; try done; apply Ht|].
    by rewrite table_set_table_eq, map_app.
Qed.

Lemma Order_status_choices_validated_default_pending_witness :
  status_values = ["pending"; "completed"; "shipped"; "cancelled"]
  ∧ (∀ s, full_clean (λ _, true) shop Order true
            (init Order (order_with_status 1 (999 # 100) s) 105) = []
          ↔ s ∈ status_values)
  ∧ attr (init Order (order 1 (999 # 100)) 105) "status" = VStr "pending"
  ∧ (∃ db', create shop Order (order 1 (999 # 100)) 105
            = (db', Ok (VInt (next_id shop Order)))
          ∧ map (λ o, attr o "status") (table db' Order)
            = map (λ o, attr o "status") (table shop Order) ++ [VStr "pending"])
  ∧ (∀ s, (String.length s ≤ 20)%nat →
       ∃ db', create shop Order (order_with_status 1 (999 # 100) s) 105
              = (db', Ok (VInt (next_id shop Order)))
            ∧ map (λ o, attr o "status") (table db' Order)
              = map (λ o, attr o "status") (table shop Order) ++ [VStr s]).
Proof.
  apply (Order_status_choices_validated_default_pending (λ _, true) shop 1 (999 # 100) 105).
  - vm_compute. discriminate.
  - unfold int32. lia.
  - split; [vm_compute; discriminate | vm_compute; reflexivity].
Defined.

(** *** OrderItem *)

Definition order_item (order product quantity : Z) (unit_price : Q) : row :=
  kwargs [("order_id", VInt order); ("product_id", VInt product);
          ("quantity", VInt quantity); ("unit_price", VDecimal unit_price)].

(** The items of order [o] with product [p]. *)
Definition items_of (db : database) (o p : Z) : list row :=
  filter (λ r, attr r "order_id" = VInt o ∧ attr r "product_id" = VInt p)
         (table db OrderItem).

Lemma duplicates_pair m n1 n2 c1 c2 rows r v1 v2 :
  column_of m n1 = c1 → column_of m n2 = c2 →
  attr r c1 = v1 → attr r c2 = v2 → v1 ≠ VNone → v2 ≠ VNone →
  duplicates m [n1; n2] rows r
  = negb (bool_decide (filter (λ r', attr r' c1 = v1 ∧ attr r' c2 = v2) rows = [])).
Proof.
  intros <- <- <- <- H1 H2. unfold duplicates, key_of. cbn [map].
  rewrite bool_decide_eq_false_2.
  2:{ intros [?|[?|?%elem_of_nil]%elem_of_cons]%elem_of_cons; congruence. }
  cbn [negb andb]. do 2 f_equal. apply bool_decide_ext.
  erewrite list_filter_iff; [done|].
  intros r'. split; [by intros [= -> ->] | by intros [-> ->]].
Qed.

Lemma create_OrderItem db o p q price now :
  exists_pk db Order o → exists_pk db Product p → int32 o → int32 p →
  decimal_fits 10 2 price = true → 0 ≤ q → int32 q →
  create db OrderItem (order_item o p q price) now
  = if decide (items_of db o p = [])
    then (set_table db OrderItem
            (table db OrderItem
             ++ [[("id", VInt (next_id db OrderItem)); ("created_at", VDateTime now);
                  ("updated_at", VDateTime now); ("order_id", VInt o);
                  ("product_id", VInt p); ("quantity", VInt q);
                  ("unit_price", VDecimal price)]]),
          Ok (VInt (next_id db OrderItem)))
    else (db, Err (IntegrityError Unique "uniq_order_product")).
Proof.
  intros Ho Hp Ro Rp Hprice Hq Rq.
  unfold create, insert. eval_fields OrderItem. eval_init.
  unfold pre_save. simpl. unfold db_prep, attr, attname. simpl.
  rewrite Hprice, !bool_decide_eq_true_2 by done. simpl.
  unfold integrity_error. eval_fields OrderItem. simpl.
  unfold not_null_error, check_error, unique_error, foreign_key_error, attr, attname.
  simpl.
  change (λ r' : row, default VNone (get r' "id") = VInt (next_id db OrderItem))
    with (λ r' : row, attr r' "id" = VInt (next_id db OrderItem)).
  rewrite next_id_fresh. simpl.
  rewrite (bool_decide_eq_false_2 (q < 0)) by lia.
  rewrite (duplicates_pair OrderItem "order" "product" "order_id" "product_id"
             _ _ (VInt o) (VInt p)) by done.
  fold (items_of db o p).
  case_decide as Hit.
  - rewrite bool_decide_eq_true_2 by done. simpl.
    by rewrite !bool_decide_eq_false_2 by done.
  - by rewrite bool_decide_eq_false_2 by done.
Qed.

Lemma full_clean_OrderItem ve db o p q price now :
  exists_pk db Order o → exists_pk db Product p → valid_amount price →
  items_of db o p = [] →
  full_clean ve db OrderItem true (init OrderItem (order_item o p q price) now)
  = (if bool_decide (q < 1) then [ValidationError "quantity" "min_value"] else [])
    ++ (if bool_decide (2147483647 < q)
        then [ValidationError "quantity" "max_value"] else []).
Proof.
  intros Ho Hp [Hp1 Hp2] Hit.
  assert (Hcf : clean_fields ve db OrderItem (init OrderItem (order_item o p q price) now)
    = (if bool_decide (q < 1) then [ValidationError "quantity" "min_value"] else [])
      ++ (if bool_decide (2147483647 < q)
          then [ValidationError "quantity" "max_value"] else [])).
  { unfold clean_fields. eval_fields OrderItem. eval_init.
    simpl. unfold clean, attr, attname. simpl.
    rewrite !bool_decide_eq_false_2 by done.
    rewrite Qltb_0_false, Hp2, !Qltb_inject_Z by done.
    by repeat case_bool_decide. }
  unfold full_clean. rewrite Hcf.
  cut (∀ ex, validate_unique db OrderItem true ex
               (init OrderItem (order_item o p q price) now) = []
           ∧ validate_constraints db OrderItem true ex
               (init OrderItem (order_item o p q price) now) = []).
  { intros H.
    match goal with
    | |- context [validate_unique _ _ _ ?ex _] => destruct (H ex) as [-> ->]
    end.
    by rewrite !app_nil_r. }
  intros ex. split.
  - unfold validate_unique. eval_fields OrderItem. eval_init. simpl.
    by rewrite andb_false_r.
  - unfold validate_constraints. eval_init. simpl. unfold others.
    rewrite (duplicates_pair OrderItem "order" "product" "order_id" "product_id"
               _ _ (VInt o) (VInt p)) by done.
    fold (items_of db o p). rewrite Hit. simpl.
    by rewrite andb_false_r.
Qed.

(** The shop with an order of the customer and no item yet. *)
Definition shop_with_order : database :=
  (create shop Order (order 1 (999 # 100)) 105).1.

(** Stored as written: an order item with quantity 0. *)
Lemma OrderItem_quantity_0_is_stored :
  (create shop_with_order OrderItem (order_item 1 1 0 (999 # 100)) 106).2 = Ok (VInt 1)
  ∧ map (λ i, attr i "quantity")
        (table (create shop_with_order OrderItem (order_item 1 1 0 (999 # 100)) 106).1
               OrderItem)
    = [VInt 0].
Proof. split; vm_compute; reflexivity. Qed.

(** C7, amended. For an existing order and product and a valid price:
    model validation ([full_clean]) of an item with quantity 0 fails on
    [quantity] and with quantity 1 it succeeds; [create], which does not
    validate, stores the item for any quantity from 0 up (1 and 0 alike);
    and once an item of the order for the product is stored, inserting a
    second one for the same pair fails with the uniqueness error
    [uniq_order_product] and leaves the database as it was. *)
Theorem OrderItem_quantity_validated_pair_unique
    (validate_email : string → bool) (db : database) (o p : Z) (price : Q) (now : Z) :
  exists_pk db Order o → exists_pk db Product p → int32 o → int32 p →
  valid_amount price → items_of db o p = [] →
  full_clean validate_email db OrderItem true
      (init OrderItem (order_item o p 0 price) now)
    = [ValidationError "quantity" "min_value"]
  ∧ full_clean validate_email db OrderItem true
      (init OrderItem (order_item o p 1 price) now) = []
  ∧ ∀ q, 0 ≤ q → int32 q →
      ∃ db1, create db OrderItem (order_item o p q price) now
             = (db1, Ok (VInt (next_id db OrderItem)))
           ∧ map (λ i, attr i "quantity") (table db1 OrderItem)
             = map (λ i, attr i "quantity") (table db OrderItem) ++ [VInt q]
           ∧ ∀ q' price' now', 0 ≤ q' → int32 q' → decimal_fits 10 2 price' = true →
               create db1 OrderItem (order_item o p q' price') now'
               = (db1, Err (IntegrityError Unique "uniq_order_product")).
Proof.
  intros Ho Hp Ro Rp Hprice Hit.
  split; [by rewrite full_clean_OrderItem|].
  split; [by rewrite full_clean_OrderItem|].
  intros q Hq Rq. eexists. split.
  { rewrite create_OrderItem by (done || apply Hprice). by rewrite decide_True. }
  split; [by rewrite table_set_table_eq, map_app|].
  intros q' price' now' Hq' Rq' Hprice'.
  rewrite create_OrderItem; try done.
  - rewrite decide_False; [done|]. unfold items_of.
    rewrite table_set_table_eq, filter_app, filter_cons_True by done.
    by destruct (filter _ (table db OrderItem)).
  - unfold exists_pk. by rewrite table_set_table_ne.
  - unfold exists_pk. by rewrite table_set_table_ne.
Qed.

Lemma OrderItem_quantity_validated_pair_unique_witness :
  full_clean (λ _, true) shop_with_order OrderItem true
      (init OrderItem (order_item 1 1 0 (999 # 100)) 106)
    = [ValidationError "quantity" "min_value"]
  ∧ full_clean (λ _, true) shop_with_order OrderItem true
      (init OrderItem (order_item 1 1 1 (999 # 100)) 106) = []
  ∧ ∀ q, 0 ≤ q → int32 q →
      ∃ db1, create shop_with_order OrderItem (order_item 1 1 q (999 # 100)) 106
             = (db1, Ok (VInt (next_id shop_with_order OrderItem)))
           ∧ map (λ i, attr i "quantity") (table db1 OrderItem)
             = map (λ i, attr i "quantity") (table shop_with_order OrderItem) ++ [VInt q]
           ∧ ∀ q' price' now', 0 ≤ q' → int32 q' → decimal_fits 10 2 price' = true →
               create db1 OrderItem (order_item 1 1 q' price') now'
               = (db1, Err (IntegrityError Unique "uniq_order_product")).
Proof.
  apply (OrderItem_quantity_validated_pair_unique
           (λ _, true) shop_with_order 1 1 (999 # 100) 106).
  - vm_compute. discriminate.
  - vm_compute. discriminate.
  - unfold int32. lia.
  - unfold int32. lia.
  - split; [vm_compute; discriminate | vm_compute; reflexivity].
  - vm_compute. reflexivity.
Defined.

(** *** Product: unique in its category *)

Definition product (name : string) (price : Q) (category stock_quantity : Z) : row :=
  kwargs [("name", VStr name); ("price", VDecimal price);
          ("category_id", VInt category); ("stock_quantity", VInt stock_quantity)].

(** The products called [name] in category [c]. *)
Definition products_named (db : database) (name : string) (c : Z) : list row :=
  filter (λ r, attr r "name" = VStr name ∧ attr r "category_id" = VInt c)
         (table db Product).

Lemma create_Product db name price c stock now :
  exists_pk db Category c → int32 c → decimal_fits 10 2 price = true →
  (String.length name ≤ 200)%nat → 0 ≤ stock → int32 stock →
  create db Product (product name price c stock) now
  = if decide (products_named db name c = [])
    then (set_table db Product
            (table db Product
             ++ [[("id", VInt (next_id db Product)); ("created_at", VDateTime now);
                  ("updated_at", VDateTime now); ("created_by_id", VNone);
                  ("is_active", VBool true); ("name", VStr name);
                  ("description", VStr ""); ("price", VDecimal price);
                  ("category_id", VInt c); ("stock_quantity", VInt stock)]]),
          Ok (VInt (next_id db Product)))
    else (db, Err (IntegrityError Unique "uniq_product_in_category")).
Proof.
  intros Hc Rc Hprice Hname Hs Rs.
  unfold create, insert. eval_fields Product. eval_init.
  unfold pre_save. simpl. unfold db_prep, attr, attname. simpl.
  rewrite Hprice, (bool_decide_eq_true_2 (_ ≤ c ≤ _)) by done.
  rewrite (bool_decide_eq_true_2 (_ ≤ stock ≤ _)) by done.
  rewrite (bool_decide_eq_false_2 (200 < _)%nat) by lia. simpl.
  unfold integrity_error. eval_fields Product. simpl.
  unfold not_null_error, check_error, unique_error, foreign_key_error, attr, attname.
  simpl.
  change (λ r' : row, default VNone (get r' "id") = VInt (next_id db Product))
    with (λ r' : row, attr r' "id" = VInt (next_id db Product)).
  rewrite next_id_fresh. simpl.
  rewrite (bool_decide_eq_false_2 (stock < 0)) by lia.
  rewrite (duplicates_pair Product "name" "category" "name" "category_id"
             _ _ (VStr name) (VInt c)) by done.
  fold (products_named db name c).
  case_decide as Hdup.
  - rewrite Hdup. simpl. by rewrite !bool_decide_eq_false_2 by done.
  - by rewrite bool_decide_eq_false_2 by done.
Qed.

(** C6. Two products with the same name, each acceptable to the table
    (existing category, price and stock in range) and not yet in it: after
    the first is inserted, inserting the second into the same category
    fails with the uniqueness error [uniq_product_in_category] and leaves
    the database as the first insertion left it; inserting it into a
    different category succeeds, and both rows are stored. *)
Theorem Product_unique_in_category
    (db : database) (name : string) (price1 price2 : Q)
    (c1 c2 stock1 stock2 now1 now2 : Z) :
  exists_pk db Category c1 → exists_pk db Category c2 → int32 c1 → int32 c2 →
  decimal_fits 10 2 price1 = true → decimal_fits 10 2 price2 = true →
  (String.length name ≤ 200)%nat →
  0 ≤ stock1 → int32 stock1 → 0 ≤ stock2 → int32 stock2 →
  products_named db name c1 = [] → products_named db name c2 = [] →
  ∃ db1 pk1,
    create db Product (product name price1 c1 stock1) now1 = (db1, Ok pk1)
    ∧ create db1 Product (product name price2 c1 stock2) now2
      = (db1, Err (IntegrityError Unique "uniq_product_in_category"))
    ∧ (c1 ≠ c2 →
       ∃ db2 pk2,
         create db1 Product (product name price2 c2 stock2) now2 = (db2, Ok pk2)
         ∧ pk1 ≠ pk2
         ∧ map (λ r, (attr r "name", attr r "category_id")) (table db2 Product)
           = map (λ r, (attr r "name", attr r "category_id")) (table db Product)
             ++ [(VStr name, VInt c1); (VStr name, VInt c2)]).
Proof.
  intros Hc1 Hc2 Rc1 Rc2 Hp1 Hp2 Hname Hs1 Rs1 Hs2 Rs2 Hn1 Hn2.
  eexists _, _. split.
  { rewrite create_Product by done. by rewrite decide_True. }
  set (db1 := set_table db Product _).
  assert (Hcat : ∀ c, exists_pk db Category c → exists_pk db1 Category c).
  { intros c H. unfold exists_pk, db1. by rewrite table_set_table_ne. }
  split.
  - rewrite create_Product by auto.
    rewrite decide_False; [done|]. unfold products_named, db1.
    rewrite table_set_table_eq, filter_app, filter_cons_True by done.
    by destruct (filter _ (table db Product)).
  - intros Hne. eexists _, _. split.
    { rewrite create_Product by auto. rewrite decide_True; [done|].
      unfold products_named, db1.
      rewrite table_set_table_eq, filter_app, filter_cons_False, filter_nil.
      - fold (products_named db name c2). by rewrite Hn2.
      - intros [_ [= ?]]. done. }
    split.
    + intros [= Heq]. 
      assert (next_id db Product < next_id db1 Product); [|lia].
      eapply (next_id_above db1 Product _ (next_id db Product)).
      * unfold db1. rewrite table_set_table_eq. apply elem_of_app. right. left.
      * reflexivity.
    + unfold db1. rewrite !table_set_table_eq, !map_app. simpl.
      by rewrite <- app_assoc.
Qed.

(** The shop with a second category. *)
Definition shop_two_categories : database :=
  (create shop Category (kwargs [("name", VStr "Maps")]) 103).1.

Lemma Product_unique_in_category_witness :
  ∃ db1 pk1,
    create shop_two_categories Product (product "Atlas" (1999 # 100) 1 3) 104
    = (db1, Ok pk1)
    ∧ create db1 Product (product "Atlas" (2499 # 100) 1 7) 105
      = (db1, Err (IntegrityError Unique "uniq_product_in_category"))
    ∧ (1 ≠ 2 →
       ∃ db2 pk2,
         create db1 Product (product "Atlas" (2499 # 100) 2 7) 105 = (db2, Ok pk2)
         ∧ pk1 ≠ pk2
         ∧ map (λ r, (attr r "name", attr r "category_id")) (table db2 Product)
           = map (λ r, (attr r "name", attr r "category_id"))
                 (table shop_two_categories Product)
             ++ [(VStr "Atlas", VInt 1); (VStr "Atlas", VInt 2)]).
Proof.
  apply (Product_unique_in_category shop_two_categories "Atlas"
           (1999 # 100) (2499 # 100) 1 2 3 7 104 105).
  - vm_compute. discriminate.
  - vm_compute. discriminate.
  - unfold int32. lia.
  - unfold int32. lia.
  - vm_compute. reflexivity.
  - vm_compute. reflexivity.
  - simpl. lia.
  - lia.
  - unfold int32. lia.
  - lia.
  - unfold int32. lia.
  - vm_compute. reflexivity.
  - vm_compute. reflexivity.
Defined.

(** ** Deletion in general

    [Model.delete] for every model of the schema.  All cascades of
    [models.py] lead to a model that nothing points to, so a collection is
    at most two levels deep and can be described without recursion. *)

(** The rows of [m'] that refer, through [f], to one of the keys [pks]. *)
Definition sub_objs (db : database) (pks : list value) (m' : model) (f : field)
  : list row :=
  filter (λ r', attr r' (attname f) ≠ VNone ∧ attr r' (attname f) ∈ pks) (table db m').

(** What a relation adds to the collection, when cascades stop after one
    step. *)
Definition collected_step (db : database) (pks : list value) (rel : model * field)
    (c : collector) : collector :=
  match sub_objs db pks rel.1 rel.2 with
  | [] => c
  | sub =>
      match get_on_delete rel.2 with
      | Some CASCADE =>
          collector_app (Collector (map (λ r, (rel.1, pk_of r)) sub) [] []) c
      | Some PROTECT =>
          collector_app (Collector [] [] [(rel.1, f_name rel.2)]) c
      | Some SET_NULL =>
          collector_app
            (Collector [] (map (λ r, (rel.1, attname rel.2, pk_of r)) sub) []) c
      | None => c
      end
  end.

Definition collected (db : database) (m : model) (pks : list value) : collector :=
  foldr (collected_step db pks) (Collector (map (λ pk, (m, pk)) pks) [] [])
        (related_objects m).

(** Every relation says what to do on deletion, and a cascade leads to a
    model that nothing points to. *)
Lemma relations_shallow m m' f :
  (m', f) ∈ related_objects m →
  is_Some (get_on_delete f)
  ∧ (get_on_delete f = Some CASCADE → related_objects m' = []).
Proof.
  intros H.
  assert (Hall : Forall (λ rel : model * field,
                   is_Some (get_on_delete rel.2)
                   ∧ (get_on_delete rel.2 = Some CASCADE → related_objects rel.1 = []))
                 (related_objects m)).
  { destruct m; vm_compute related_objects;
      repeat (constructor; [split; [by eexists | by vm_compute]|]); constructor. }
  by apply (proj1 (Forall_forall _ _) Hall (m', f)).
Qed.


Lemma collect_collected depth db m pks :
  collect (S (S depth)) db m pks = Some (collected db m pks).
Proof.
  change (collect (S (S depth)) db m pks)
    with (foldr (collect_related (collect (S depth) db) db pks)
            (Some (Collector (map (λ pk, (m, pk)) pks) [] []))
            (related_objects m)).
  unfold collected.
  pose proof (relations_shallow m) as Hrel.
  induction (related_objects m) as [|[m' f] rels IH]; [done|].
  cbn [foldr]. rewrite IH by (intros; apply Hrel; by right).
  destruct (Hrel m' f) as [[p Hp] Hleaf]; [left|].
  unfold collect_related, collected_step, sub_objs. cbn [fst snd].
  destruct (filter _ (table db m')) as [|r sub] eqn:E; [done|].
  rewrite Hp. destruct p; try done.
  rewrite collect_leaf by auto. cbn [mbind option_bind]. by rewrite map_map.
Qed.

(** [delete] never runs out of depth: it refuses a missing key, or is
    refused by a protecting relation and changes nothing, or goes through. *)
Lemma delete_collected db m pk :
  pk ≠ VNone →
  delete db m pk
  = match protected (collected db m [pk]) with
    | (m', f) :: _ => (db, Err (ProtectedError m' f))
    | [] =>
        (apply_collector (collected db m [pk]) db,
         Ok (length (all_models ≫= λ m',
               filter (λ r, (m', pk_of r) ∈ data (collected db m [pk])) (table db m'))))
    end.
Proof.
  intros Hpk. unfold delete. rewrite decide_False by done.
  change (length all_models) with 12%nat. by rewrite collect_collected.
Qed.


Lemma elem_of_related_objects m m' f :
  (m', f) ∈ related_objects m ↔ f ∈ fields m' ∧ remote_model f = Some m.
Proof.
  unfold related_objects. rewrite list_elem_of_bind. split.
  - intros (m0 & Hin & _). apply elem_of_map in Hin as (f0 & [= -> ->] & Hf).
    by apply list_elem_of_filter in Hf as [? ?].
  - intros [Hf Hm]. exists m'. split.
    + apply elem_of_map. exists f. split; [done|]. by apply list_elem_of_filter.
    + destruct m'; unfold all_models; repeat (first [by left | right]).
Qed.

#[global] Instance deletion_eq_dec : EqDecision deletion.
Proof. solve_decision. Defined.

(** What each relation contributes to the three parts of a collection. *)
Definition cascade_of (db : database) (pks : list value) (rel : model * field)
  : list (model * value) :=
  if decide (get_on_delete rel.2 = Some CASCADE)
  then map (λ r, (rel.1, pk_of r)) (sub_objs db pks rel.1 rel.2) else [].

Definition set_null_of (db : database) (pks : list value) (rel : model * field)
  : list (model * string * value) :=
  if decide (get_on_delete rel.2 = Some SET_NULL)
  then map (λ r, (rel.1, attname rel.2, pk_of r)) (sub_objs db pks rel.1 rel.2) else [].

Definition protect_of (db : database) (pks : list value) (rel : model * field)
  : list (model * string) :=
  if decide (get_on_delete rel.2 = Some PROTECT ∧ sub_objs db pks rel.1 rel.2 ≠ [])
  then [(rel.1, f_name rel.2)] else [].

Lemma collected_step_parts db pks rel c :
  collected_step db pks rel c
  = Collector (cascade_of db pks rel ++ data c)
              (set_null_of db pks rel ++ field_updates c)
              (protect_of db pks rel ++ protected c).
Proof.
  unfold collected_step, cascade_of, set_null_of, protect_of.
  destruct (sub_objs db pks rel.1 rel.2) as [|r sub] eqn:E.
  { rewrite (decide_False (P := _ ∧ _)) by (by intros [_ ?]).
    destruct c. by repeat case_decide. }
  destruct (get_on_delete rel.2) as [[]|]; destruct c;
    repeat case_decide; try done; try (by destruct_and?).
  exfalso. match goal with H : ¬ _ |- _ => apply H; by split end.
Qed.

Lemma collected_parts db m pks :
  collected db m pks
  = Collector ((related_objects m ≫= cascade_of db pks) ++ map (λ pk, (m, pk)) pks)
              (related_objects m ≫= set_null_of db pks)
              (related_objects m ≫= protect_of db pks).
Proof.
  unfold collected. induction (related_objects m) as [|rel rels IH]; cbn [foldr].
  - done.
  - rewrite collected_step_parts, IH. cbn [data field_updates protected].
    by rewrite !bind_cons, <- !app_assoc.
Qed.


(** *** The state after a deletion *)

Lemma attr_set_attr (r : row) a b v :
  attr (set_attr a v r) b = if decide (a = b) then v else attr r b.
Proof.
  case_decide as Hab; [subst; apply attr_set_attr_eq | by apply attr_set_attr_ne].
Qed.

(** A row after the updates of a collection. *)
Definition nullified (c : collector) (m : model) (r : row) : row :=
  foldr (λ u r', if decide (u.1.1 = m ∧ u.2 = pk_of r)
                 then set_attr u.1.2 VNone r' else r')
        r (field_updates c).

Lemma attr_nullified c m r a :
  attr (nullified c m r) a
  = if decide ((m, a, pk_of r) ∈ field_updates c) then VNone else attr r a.
Proof.
  unfold nullified. generalize (pk_of r) as k. intros k.
  induction (field_updates c) as [|[[m0 a0] k0] us IH]; cbn [foldr].
  { by rewrite decide_False by apply not_elem_of_nil. }
  cbn [fst snd].
  destruct (decide (m0 = m ∧ k0 = k)) as [[-> ->]|Hu]; rewrite ?attr_set_attr, IH.
  - destruct (decide (a0 = a)) as [->|Ha]; [by rewrite decide_True by left|].
    destruct (decide ((m, a, k) ∈ us)) as [Hin|Hin].
    + by rewrite decide_True by (by right).
    + rewrite decide_False; [done|]. by intros [[= ?]|?]%elem_of_cons.
  - destruct (decide ((m, a, k) ∈ us)) as [Hin|Hin].
    + by rewrite decide_True by (by right).
    + rewrite decide_False; [done|].
      intros [[= -> -> ->]|?]%elem_of_cons; [by destruct Hu | done].
Qed.

Lemma table_after_delete c db m :
  table (apply_collector c db) m
  = filter (λ r, (m, pk_of r) ∉ data c) (map (nullified c m) (table db m)).
Proof. apply table_apply_collector. Qed.

Lemma relation_column_not_id (s : string) : s +:+ "_id" ≠ "id".
Proof.
  destruct s as [|a [|b s']]; simpl; intros H.
  - discriminate H.
  - injection H as H1 H2. discriminate H2.
  - injection H as H1 H2 H3. destruct s'; discriminate H3.
Qed.

Lemma attname_relation f to : remote_model f = Some to → attname f = f_name f +:+ "_id".
Proof. intros H. unfold attname. by rewrite H. Qed.

Section Delete.
Variables (db : database) (m : model) (pk : value).

Let c := collected db m [pk].

Lemma elem_of_updates m0 a k :
  (m0, a, k) ∈ field_updates c
  ↔ ∃ f r, (m0, f) ∈ related_objects m ∧ get_on_delete f = Some SET_NULL
           ∧ a = attname f ∧ r ∈ sub_objs db [pk] m0 f ∧ k = pk_of r.
Proof.
  unfold c. rewrite collected_parts. cbn [field_updates].
  rewrite list_elem_of_bind. split.
  - intros ([m' f] & Hin & Hrel). unfold set_null_of in Hin. cbn [fst snd] in Hin.
    case_decide; [|by apply elem_of_nil in Hin].
    apply elem_of_map in Hin as (r & [= -> -> ->] & Hr). eauto 10.
  - intros (f & r & Hrel & Hd & -> & Hr & ->). exists (m0, f). split; [|done].
    unfold set_null_of. cbn [fst snd]. rewrite decide_True by done.
    apply elem_of_map. eauto.
Qed.

Lemma elem_of_data m0 k :
  (m0, k) ∈ data c
  ↔ (m0 = m ∧ k = pk)
    ∨ ∃ f r, (m0, f) ∈ related_objects m ∧ get_on_delete f = Some CASCADE
             ∧ r ∈ sub_objs db [pk] m0 f ∧ k = pk_of r.
Proof.
  unfold c. rewrite collected_parts. cbn [data map].
  rewrite elem_of_app, list_elem_of_singleton, list_elem_of_bind. split.
  - intros [([m' f] & Hin & Hrel)|[= -> ->]]; [right|by left].
    unfold cascade_of in Hin. cbn [fst snd] in Hin.
    case_decide; [|by apply elem_of_nil in Hin].
    apply elem_of_map in Hin as (r & [= -> ->] & Hr). eauto 10.
  - intros [[-> ->]|(f & r & Hrel & Hd & Hr & ->)]; [by right|left].
    exists (m0, f). split; [|done].
    unfold cascade_of. cbn [fst snd]. rewrite decide_True by done.
    apply elem_of_map. eauto.
Qed.

Lemma protected_nil :
  protected c = []
  ↔ ∀ m' f, (m', f) ∈ related_objects m → get_on_delete f = Some PROTECT →
            sub_objs db [pk] m' f = [].
Proof.
  unfold c. rewrite collected_parts. cbn [protected]. split.
  - intros Hnil m' f Hrel Hd.
    destruct (sub_objs db [pk] m' f) as [|r sub] eqn:E; [done|]. exfalso.
    assert ((m', f_name f) ∈ related_objects m ≫= protect_of db [pk]) as Hin.
    { apply list_elem_of_bind. exists (m', f). split; [|done].
      unfold protect_of. cbn [fst snd]. rewrite decide_True; [left|].
      split; [done|]. by rewrite E. }
    rewrite Hnil in Hin. by apply elem_of_nil in Hin.
  - intros Hall. apply elem_of_nil_inv. intros x ([m' f] & Hin & Hrel)%list_elem_of_bind.
    unfold protect_of in Hin. cbn [fst snd] in Hin.
    case_decide as Hp; [|by apply elem_of_nil in Hin].
    destruct Hp as [Hd Hne]. by apply Hne, Hall.
Qed.

Lemma pk_of_nullified m0 r : pk_of (nullified c m0 r) = pk_of r.
Proof.
  unfold pk_of at 1. rewrite attr_nullified, decide_False; [done|].
  intros (f & r0 & Hrel & _ & Hid & _)%elem_of_updates.
  apply elem_of_related_objects in Hrel as [_ Hrem].
  rewrite (attname_relation _ _ Hrem) in Hid. symmetry in Hid.
  by apply relation_column_not_id in Hid.
Qed.

End Delete.


Lemma elem_of_sub_objs db pk m' f r :
  pk ≠ VNone →
  r ∈ sub_objs db [pk] m' f ↔ r ∈ table db m' ∧ attr r (attname f) = pk.
Proof.
  intros Hpk. unfold sub_objs. rewrite list_elem_of_filter, list_elem_of_singleton.
  split; [by intros [[_ ?] ?] | intros [? Heq]; by rewrite Heq].
Qed.

(** Some stored row refers to the key [pk] of model [m] through a relation
    declared with [on_delete=PROTECT]. *)
Definition protecting (db : database) (m : model) (pk : value) : Prop :=
  ∃ m' f r, (m', f) ∈ related_objects m ∧ get_on_delete f = Some PROTECT
            ∧ r ∈ table db m' ∧ attr r (attname f) = pk.

Lemma delete_protecting db m pk :
  pk ≠ VNone → protecting db m pk →
  ∃ m' f, delete db m pk = (db, Err (ProtectedError m' (f_name f)))
          ∧ (m', f) ∈ related_objects m ∧ get_on_delete f = Some PROTECT.
Proof.
  intros Hpk (m' & f & r & Hrel & Hd & Hr & Hattr). rewrite delete_collected by done.
  destruct (protected (collected db m [pk])) as [|[m1 n1] ps] eqn:E.
  - exfalso. pose proof (proj1 (protected_nil db m pk) E m' f Hrel Hd) as Hnil.
    assert (r ∈ sub_objs db [pk] m' f) as Hin by (by apply elem_of_sub_objs).
    rewrite Hnil in Hin. by apply elem_of_nil in Hin.
  - assert ((m1, n1) ∈ protected (collected db m [pk])) as Hin by (rewrite E; left).
    rewrite collected_parts in Hin. cbn [protected] in Hin.
    apply list_elem_of_bind in Hin as ([m2 f2] & Hin & Hrel2).
    unfold protect_of in Hin. cbn [fst snd] in Hin.
    case_decide as Hp; [|by apply elem_of_nil in Hin].
    apply list_elem_of_singleton in Hin as [= -> ->]. destruct Hp. eauto.
Qed.

Lemma delete_unprotected db m pk :
  pk ≠ VNone → ¬ protecting db m pk → ∃ db' n, delete db m pk = (db', Ok n).
Proof.
  intros Hpk Hfree. rewrite delete_collected by done.
  rewrite (proj2 (protected_nil db m pk)); [eauto|].
  intros m' f Hrel Hd. apply elem_of_nil_inv. intros r Hr.
  apply elem_of_sub_objs in Hr as [??]; [|done]. apply Hfree.
  exists m', f, r. eauto.
Qed.

(** X1. For every model and every key: the deletion is refused, with
    [ProtectedError] and the database left as it was, when a row refers to
    the key through a [PROTECT] relation, and goes through when none does.
    In particular the collector never runs out of depth. *)
Theorem delete_refused_iff_protecting (db : database) (m : model) (pk : value) :
  pk ≠ VNone →
  (protecting db m pk →
     ∃ m' f, delete db m pk = (db, Err (ProtectedError m' (f_name f)))
             ∧ (m', f) ∈ related_objects m ∧ get_on_delete f = Some PROTECT)
  ∧ (¬ protecting db m pk → ∃ db' n, delete db m pk = (db', Ok n)).
Proof.
  intros Hpk. split; [by apply delete_protecting | by apply delete_unprotected].
Qed.

Section AfterDelete.
Variables (db db' : database) (m : model) (pk : value) (n : nat).
Hypothesis deleted : delete db m pk = (db', Ok n).

Lemma deleted_key : pk ≠ VNone.
Proof.
  intros ->. pose proof deleted as H. unfold delete in H.
  by rewrite decide_True in H.
Qed.

Lemma deleted_protected : protected (collected db m [pk]) = [].
Proof.
  pose proof deleted as H. rewrite (delete_collected _ _ _ deleted_key) in H.
  by destruct (protected _) as [|[??]?].
Qed.

Lemma deleted_table m0 :
  table db' m0
  = filter (λ r, (m0, pk_of r) ∉ data (collected db m [pk]))
           (map (nullified (collected db m [pk]) m0) (table db m0)).
Proof.
  pose proof deleted as H.
  rewrite (delete_collected _ _ _ deleted_key), deleted_protected in H.
  injection H as <- _. apply table_after_delete.
Qed.

(** A row of the new state comes from a row of the old one, with the same
    key, that was not collected. *)
Lemma deleted_row m0 r' :
  r' ∈ table db' m0 →
  ∃ r, r ∈ table db m0 ∧ r' = nullified (collected db m [pk]) m0 r
       ∧ pk_of r' = pk_of r ∧ (m0, pk_of r) ∉ data (collected db m [pk]).
Proof.
  rewrite deleted_table. intros [Hnot (r & -> & Hr)%elem_of_map]%list_elem_of_filter.
  rewrite pk_of_nullified in Hnot. exists r. by rewrite pk_of_nullified.
Qed.

(** A reference that is still there was there before, and its row was
    neither collected nor set to null. *)
Lemma deleted_reference m0 f r r' :
  r' = nullified (collected db m [pk]) m0 r →
  attr r' (attname f) ≠ VNone →
  attr r (attname f) = attr r' (attname f)
  ∧ (m0, attname f, pk_of r) ∉ field_updates (collected db m [pk]).
Proof.
  intros -> Hne. rewrite attr_nullified in Hne |- *. by case_decide.
Qed.

Lemma no_reference_left m' f r' :
  (m', f) ∈ related_objects m → r' ∈ table db' m' → attr r' (attname f) ≠ pk.
Proof.
  intros Hrel Hr' Hattr. pose proof deleted_key as Hpk.
  destruct (deleted_row _ _ Hr') as (r & Hr & Heq & Hk & Hdata).
  destruct (deleted_reference m' f r r' Heq) as [Hsame Hupd]; [by rewrite Hattr|].
  assert (r ∈ sub_objs db [pk] m' f) as Hsub.
  { apply elem_of_sub_objs; [done|]. by rewrite Hsame. }
  destruct (relations_shallow _ _ _ Hrel) as [[[] Hd] _].
  - apply Hdata, elem_of_data. right. eauto 10.
  - pose proof (proj1 (protected_nil db m pk) deleted_protected m' f Hrel Hd) as Hnil.
    rewrite Hnil in Hsub. by apply elem_of_nil in Hsub.
  - apply Hupd, elem_of_updates. eauto 10.
Qed.

End AfterDelete.


(** X2. After a deletion that went through, the row is gone and no row of
    any table still refers to its key: what referred to it was deleted
    ([CASCADE]) or had its reference set to null ([SET_NULL]). *)
Theorem delete_leaves_no_reference
    (db db' : database) (m : model) (pk : value) (n : nat) :
  delete db m pk = (db', Ok n) →
  (∀ r, r ∈ table db' m → pk_of r ≠ pk)
  ∧ (∀ m' f r, f ∈ fields m' → remote_model f = Some m →
       r ∈ table db' m' → attr r (attname f) ≠ pk).
Proof.
  intros Hdel. split.
  - intros r' Hr' Hk.
    destruct (deleted_row _ _ _ _ _ Hdel _ _ Hr') as (r & Hr & _ & Hpk & Hdata).
    apply Hdata, elem_of_data. left. split; [done|]. by rewrite <- Hpk.
  - intros m' f r Hf Hrem. apply (no_reference_left _ _ _ _ _ Hdel).
    by apply elem_of_related_objects.
Qed.

(** Referential integrity: every reference that is not null leads to a
    stored row. *)
Definition references_resolve (db : database) : Prop :=
  ∀ m f to r, f ∈ fields m → remote_model f = Some to → r ∈ table db m →
    attr r (attname f) ≠ VNone →
    ∃ x, x ∈ table db to ∧ pk_of x = attr r (attname f).

(** A deletion that fails writes nothing. *)
Lemma delete_failed db m pk db' e : delete db m pk = (db', Err e) → db' = db.
Proof.
  unfold delete. intros E. case_decide; [by injection E|].
  destruct (collect _ _ _ _) as [c|]; [|by injection E].
  destruct (protected c) as [|[??]?]; [discriminate | by injection E].
Qed.

Lemma delete_references db m pk :
  references_resolve db → references_resolve (delete db m pk).1.
Proof.
  intros Hdb. destruct (delete db m pk) as [db' [n|e]] eqn:E; cbn [fst].
  - destruct (decide (pk = VNone)) as [->|Hpk].
    { unfold delete in E. rewrite decide_True in E by done. discriminate. }
    intros m0 f to r' Hf Hrem Hr' Hne.
    destruct (deleted_row _ _ _ _ _ E _ _ Hr') as (r & Hr & Heq & _ & Hdata).
    destruct (deleted_reference db m pk m0 f r r' Heq Hne) as [Hsame _].
    destruct (Hdb m0 f to r Hf Hrem Hr) as (x & Hx & Hk); [by rewrite Hsame|].
    exists (nullified (collected db m [pk]) to x).
    rewrite pk_of_nullified, Hk, Hsame. split; [|done].
    rewrite (deleted_table _ _ _ _ _ E). apply list_elem_of_filter. split.
    + rewrite pk_of_nullified, Hk, Hsame.
      intros [[-> Hk']|(f1 & r1 & Hrel1 & Hd1 & _)]%elem_of_data.
      * eapply (no_reference_left _ _ _ _ _ E); [|exact Hr'|exact Hk'].
        by apply elem_of_related_objects.
      * destruct (relations_shallow _ _ _ Hrel1) as [_ Hleaf].
        assert ((m0, f) ∈ related_objects to) as Hin
          by (by apply elem_of_related_objects).
        rewrite (Hleaf Hd1) in Hin. by apply elem_of_nil in Hin.
    + apply elem_of_map. eauto.
  - by rewrite (delete_failed _ _ _ _ _ E).
Qed.

Lemma NoDup_map_elem_eq {A B} (f : A → B) (l : list A) x y :
  NoDup (map f l) → x ∈ l → y ∈ l → f x = f y → x = y.
Proof.
  induction l as [|a l IH]; [by intros _ ?%elem_of_nil|].
  cbn [map]. intros [Ha Hnd]%NoDup_cons [->|Hx]%elem_of_cons [->|Hy]%elem_of_cons Heq;
    try done; try by apply IH.
  - exfalso. apply Ha. rewrite Heq. apply elem_of_map. eauto.
  - exfalso. apply Ha. rewrite <- Heq. apply elem_of_map. eauto.
Qed.

Lemma NoDup_map_filter {A B} (f : A → B) (P : A → Prop) `{!∀ a, Decision (P a)}
    (l : list A) :
  NoDup (map f l) → NoDup (map f (filter P l)).
Proof.
  induction l as [|a l IH]; [done|]. cbn [map].
  intros [Ha Hnd]%NoDup_cons. rewrite filter_cons. case_decide; [|by apply IH].
  cbn [map]. apply NoDup_cons. split; [|by apply IH].
  intros (x & Hx & [_ ?]%list_elem_of_filter)%elem_of_map.
  apply Ha, elem_of_map. eauto.
Qed.

(** X3. A deletion invents and rewrites nothing: in a table with distinct
    keys, every row of the new state is a row of the old one with the same
    key, and each of its attributes is as it was, or was a reference to the
    deleted key through a [SET_NULL] relation and is now null.  Keys that
    were distinct stay distinct. *)
Theorem delete_only_nullifies
    (db db' : database) (m : model) (pk : value) (n : nat) (m0 : model) :
  delete db m pk = (db', Ok n) →
  NoDup (map pk_of (table db m0)) →
  NoDup (map pk_of (table db' m0))
  ∧ ∀ r', r' ∈ table db' m0 →
      ∃ r, r ∈ table db m0 ∧ pk_of r' = pk_of r
         ∧ ∀ a, attr r' a = attr r a
                ∨ (attr r' a = VNone ∧ attr r a = pk
                   ∧ ∃ f, f ∈ fields m0 ∧ remote_model f = Some m
                          ∧ get_on_delete f = Some SET_NULL ∧ a = attname f).
Proof.
  intros Hdel Hnd. pose proof (deleted_key _ _ _ _ _ Hdel) as Hpk. split.
  - rewrite (deleted_table _ _ _ _ _ Hdel).
    assert (Hkeys : map pk_of (map (nullified (collected db m [pk]) m0) (table db m0))
                    = map pk_of (table db m0)).
    { rewrite map_map. apply map_ext. intros r. apply pk_of_nullified. }
    apply NoDup_map_filter. by rewrite Hkeys.
  - intros r' Hr'.
    destruct (deleted_row _ _ _ _ _ Hdel _ _ Hr') as (r & Hr & -> & Hk & _).
    exists r. split; [done|]. split; [done|]. intros a.
    rewrite attr_nullified. case_decide as Hu; [right|by left].
    apply elem_of_updates in Hu as (f & r0 & Hrel & Hd & -> & Hr0 & Hk0).
    apply elem_of_sub_objs in Hr0 as [Hr0 Hattr]; [|done].
    apply elem_of_related_objects in Hrel as [Hf Hrem].
    assert (r = r0) as -> by (by apply (NoDup_map_elem_eq pk_of (table db m0))).
    split; [done|]. split; [done|]. eauto 10.
Qed.


(** *** Tables a deletion does not write *)

Ltac relations H :=
  vm_compute in H;
  repeat (apply elem_of_cons in H as [H|H]; [simplify_eq|]);
  try (by apply elem_of_nil in H).

Lemma no_self_reference m f : (m, f) ∉ related_objects m.
Proof. intros H. destruct m; relations H. Qed.

Section Untouched.
Variables (db db' : database) (m : model) (pk : value) (n : nat).
Hypothesis deleted : delete db m pk = (db', Ok n).

(** The table of the deleted row loses the rows with that key. *)
Lemma deleted_own_table :
  table db' m = filter (λ r, pk_of r ≠ pk) (table db m).
Proof.
  rewrite (deleted_table _ _ _ _ _ deleted).
  rewrite map_id_ext.
  2:{ intros r. unfold nullified.
      assert (Hnone : ∀ u, u ∈ field_updates (collected db m [pk]) → u.1.1 ≠ m).
      { intros [[m0 a] k] (f & _ & Hrel & _)%elem_of_updates Heq.
        cbn [fst snd] in Heq. subst. by apply no_self_reference in Hrel. }
      induction (field_updates (collected db m [pk])) as [|u us IH]; [done|].
      cbn [foldr]. rewrite IH by (intros; apply Hnone; by right).
      rewrite decide_False; [done|]. intros [? _]. by apply (Hnone u); [left|]. }
  apply list_filter_iff. intros r. rewrite elem_of_data. split.
  - intros H Heq. apply H. by left.
  - intros H [[_ ?]|(f & _ & Hrel & _)]; [done|]. by apply no_self_reference in Hrel.
Qed.

(** A table whose rows are not deleted keeps its keys, in their order. *)
Lemma deleted_keeps_keys m0 :
  m0 ≠ m →
  (∀ f, (m0, f) ∈ related_objects m → get_on_delete f ≠ Some CASCADE) →
  map pk_of (table db' m0) = map pk_of (table db m0).
Proof.
  intros Hne Hrels. rewrite (deleted_table _ _ _ _ _ deleted).
  rewrite filter_all.
  - rewrite map_map. apply map_ext. intros r. apply pk_of_nullified.
  - intros r _ [[? _]|(f & _ & Hrel & Hd & _)]%elem_of_data; [done|].
    by apply (Hrels f).
Qed.

(** A table that refers to the model through [PROTECT] only, or not at
    all, is left as it was. *)
Lemma deleted_untouched m0 :
  m0 ≠ m →
  (∀ f, (m0, f) ∈ related_objects m → get_on_delete f = Some PROTECT) →
  table db' m0 = table db m0.
Proof.
  intros Hne Hrels. rewrite (deleted_table _ _ _ _ _ deleted).
  rewrite map_id_ext.
  2:{ intros r. unfold nullified.
      assert (Hnone : ∀ u, u ∈ field_updates (collected db m [pk]) → u.1.1 ≠ m0).
      { intros [[m1 a] k] (f & _ & Hrel & Hd & _)%elem_of_updates Heq.
        cbn [fst snd] in Heq. subst. rewrite (Hrels f Hrel) in Hd. discriminate. }
      induction (field_updates (collected db m [pk])) as [|u us IH]; [done|].
      cbn [foldr]. rewrite IH by (intros; apply Hnone; by right).
      rewrite decide_False; [done|]. intros [? _]. by apply (Hnone u); [left|]. }
  apply filter_all.
  intros r _ [[? _]|(f & _ & Hrel & Hd & _)]%elem_of_data; [done|].
  rewrite (Hrels f Hrel) in Hd. discriminate.
Qed.

End Untouched.


(** *** Category, Order, Supplier, User *)

(** X4. A category that has a product cannot be deleted: the deletion
    raises [ProtectedError] for [Product.category] and changes nothing.  A
    category without products is deleted, and nothing else is touched. *)
Theorem delete_Category_protected_by_products (db : database) (k : Z) :
  ((∃ p, p ∈ table db Product ∧ attr p "category_id" = VInt k) →
     delete db Category (VInt k) = (db, Err (ProtectedError Product "category")))
  ∧ ((∀ p, p ∈ table db Product → attr p "category_id" ≠ VInt k) →
     ∃ db' n, delete db Category (VInt k) = (db', Ok n)
       ∧ table db' Category = filter (λ c, pk_of c ≠ VInt k) (table db Category)
       ∧ ∀ m, m ≠ Category → table db' m = table db m).
Proof.
  split.
  - intros (p & Hp & Hattr).
    destruct (delete_protecting db Category (VInt k)) as (m' & f & -> & Hrel & _);
      [done| |].
    + exists Product,
        (Field "category" (ForeignKey Category) [on_delete PROTECT; related_name "products"]),
        p.
      split; [vm_compute; left|]. by split.
    + by relations Hrel.
  - intros Hfree.
    destruct (delete_unprotected db Category (VInt k)) as (db' & n & Hdel); [done| |].
    + intros (m' & f & p & Hrel & _ & Hp & Hattr). relations Hrel.
      by apply (Hfree p).
    + exists db', n. split; [done|]. split.
      * apply (deleted_own_table _ _ _ _ _ Hdel).
      * intros m Hm. apply (deleted_untouched _ _ _ _ _ Hdel); [done|].
        intros f Hrel. by relations Hrel.
Qed.


(** A table whose rows a deletion neither collects nor updates keeps the
    attributes of its rows. *)
Lemma deleted_attr_kept db db' m pk n m0 r' :
  delete db m pk = (db', Ok n) →
  r' ∈ table db' m0 →
  ∃ r, r ∈ table db m0 ∧ pk_of r' = pk_of r
     ∧ ∀ a, (∀ f, (m0, f) ∈ related_objects m →
               get_on_delete f = Some SET_NULL → attname f ≠ a) →
            attr r' a = attr r a.
Proof.
  intros Hdel Hr'.
  destruct (deleted_row _ _ _ _ _ Hdel _ _ Hr') as (r & Hr & -> & Hk & _).
  exists r. split; [done|]. split; [done|]. intros a Hcols.
  rewrite attr_nullified, decide_False; [done|].
  intros (f & _ & Hrel & Hd & Ha & _)%elem_of_updates. by apply (Hcols f).
Qed.

(** X5. Deleting an order is never refused and takes its items with it;
    and once the order that holds all the items of a product is deleted,
    the product, which could not be deleted before, can be. *)
Theorem delete_Order_frees_Product (db : database) (o p : Z) :
  (∀ item, item ∈ table db OrderItem →
     attr item "product_id" = VInt p → attr item "order_id" = VInt o) →
  ∃ db1 n1,
    delete db Order (VInt o) = (db1, Ok n1)
    ∧ (∀ item, item ∈ table db1 OrderItem → attr item "order_id" ≠ VInt o)
    ∧ (∀ m, m ∉ [Order; OrderItem] → table db1 m = table db m)
    ∧ ((∃ item, item ∈ table db OrderItem ∧ attr item "product_id" = VInt p) →
       delete db Product (VInt p) = (db, Err (ProtectedError OrderItem "product")))
    ∧ ∃ db2 n2, delete db1 Product (VInt p) = (db2, Ok n2).
Proof.
  intros Hall.
  destruct (delete_unprotected db Order (VInt o)) as (db1 & n1 & Hdel); [done| |].
  { intros (m' & f & r & Hrel & Hd & _). by relations Hrel. }
  assert (Hgone : ∀ item, item ∈ table db1 OrderItem → attr item "order_id" ≠ VInt o).
  { intros item Hitem.
    apply (no_reference_left _ _ _ _ _ Hdel OrderItem
             (Field "order" (ForeignKey Order) [on_delete CASCADE; related_name "items"]));
      [vm_compute; left | done]. }
  exists db1, n1. split; [done|]. split; [done|]. split.
  { intros m Hm. apply (deleted_untouched _ _ _ _ _ Hdel).
    - intros ->. apply Hm. left.
    - intros f Hrel. relations Hrel. exfalso. apply Hm. right. left. }
  split.
  { intros (item & Hitem & Hattr).
    destruct (delete_protecting db Product (VInt p)) as (m' & f & -> & Hrel & Hd);
      [done| |].
    - exists OrderItem,
        (Field "product" (ForeignKey Product)
           [on_delete PROTECT; related_name "order_items"]), item.
      split; [vm_compute; do 3 right; left|]. by split.
    - by relations Hrel. }
  apply delete_unprotected; [done|].
  intros (m' & f & item & Hrel & Hd & Hitem & Hattr).
  relations Hrel; try discriminate Hd.
  destruct (deleted_attr_kept _ _ _ _ _ OrderItem item Hdel Hitem)
    as (r & Hr & _ & Hsame).
  assert (Hcols : ∀ a f, (OrderItem, f) ∈ related_objects Order →
                    get_on_delete f = Some SET_NULL → attname f ≠ a).
  { intros a f Hrel Hd'. relations Hrel; by vm_compute in Hd'. }
  apply (Hgone item Hitem). rewrite (Hsame "order_id") by apply Hcols.
  apply Hall; [done|]. rewrite <- (Hsame "product_id") by apply Hcols. exact Hattr.
Qed.


(** A column that a deletion neither deletes rows of nor sets to null
    reads the same before and after. *)
Lemma deleted_keeps_column db db' m pk n m0 a :
  delete db m pk = (db', Ok n) →
  m0 ≠ m →
  (∀ f, (m0, f) ∈ related_objects m →
        get_on_delete f ≠ Some CASCADE
        ∧ (get_on_delete f = Some SET_NULL → attname f ≠ a)) →
  map (λ r, attr r a) (table db' m0) = map (λ r, attr r a) (table db m0).
Proof.
  intros Hdel Hne Hrels. rewrite (deleted_table _ _ _ _ _ Hdel).
  rewrite filter_all.
  - rewrite map_map. apply map_ext. intros r.
    rewrite attr_nullified, decide_False; [done|].
    intros (f & _ & Hrel & Hd & Ha & _)%elem_of_updates.
    by apply (proj2 (Hrels f Hrel)).
  - intros r _ [[? _]|(f & _ & Hrel & Hd & _)]%elem_of_data; [done|].
    by apply (proj1 (Hrels f Hrel)).
Qed.

(** X6. Deleting a supplier is never refused.  Its links to products go
    with it; the categories that had it as main supplier all stay, with
    their names, and no longer name it; every other table is left as it
    was. *)
Theorem delete_Supplier_nullifies_main_supplier (db : database) (k : Z) :
  ∃ db' n,
    delete db Supplier (VInt k) = (db', Ok n)
    ∧ map pk_of (table db' Category) = map pk_of (table db Category)
    ∧ map (λ c, attr c "name") (table db' Category)
      = map (λ c, attr c "name") (table db Category)
    ∧ (∀ c, c ∈ table db' Category → attr c "main_supplier_id" ≠ VInt k)
    ∧ (∀ l, l ∈ table db' ProductSupplier → attr l "supplier_id" ≠ VInt k)
    ∧ (∀ m, m ∉ [Supplier; Category; ProductSupplier] → table db' m = table db m).
Proof.
  destruct (delete_unprotected db Supplier (VInt k)) as (db' & n & Hdel); [done| |].
  { intros (m' & f & r & Hrel & Hd & _). by relations Hrel. }
  exists db', n. split; [done|]. split.
  { apply (deleted_keeps_keys _ _ _ _ _ Hdel); [done|].
    intros f Hrel. by relations Hrel. }
  split.
  { apply (deleted_keeps_column _ _ _ _ _ _ _ Hdel); [done|].
    intros f Hrel. by relations Hrel. }
  split.
  { intros c Hc.
    apply (no_reference_left _ _ _ _ _ Hdel Category
             (Field "main_supplier" (ForeignKey Supplier)
                [on_delete SET_NULL; null true; blank true;
                 related_name "main_categories"])); [vm_compute; left | done]. }
  split.
  { intros l Hl.
    apply (no_reference_left _ _ _ _ _ Hdel ProductSupplier
             (Field "supplier" (ForeignKey Supplier)
                [on_delete CASCADE; related_name "product_suppliers"]));
      [vm_compute; right; left | done]. }
  intros m Hm. apply (deleted_untouched _ _ _ _ _ Hdel).
  - intros ->. apply Hm. left.
  - intros f Hrel. relations Hrel; exfalso; apply Hm; [right; left | do 2 right; left].
Qed.

Definition tracked_models : list model := [Category; Supplier; Product; Customer; Order].

(** X7. Deleting a user is never refused and deletes nothing else: every
    other table keeps its rows, with all their attributes but [created_by],
    and no tracked row names the user as its creator any more. *)
Theorem delete_User_nullifies_created_by (db : database) (k : Z) :
  ∃ db' n,
    delete db User (VInt k) = (db', Ok n)
    ∧ (∀ m, m ≠ User → map pk_of (table db' m) = map pk_of (table db m))
    ∧ (∀ m a, m ≠ User → a ≠ "created_by_id" →
         map (λ r, attr r a) (table db' m) = map (λ r, attr r a) (table db m))
    ∧ (∀ m r, m ∈ tracked_models → r ∈ table db' m → attr r "created_by_id" ≠ VInt k).
Proof.
  destruct (delete_unprotected db User (VInt k)) as (db' & n & Hdel); [done| |].
  { intros (m' & f & r & Hrel & Hd & _). by relations Hrel. }
  exists db', n. split; [done|]. split.
  { intros m Hm. apply (deleted_keeps_keys _ _ _ _ _ Hdel); [done|].
    intros f Hrel. by relations Hrel. }
  split.
  { intros m a Hm Ha. apply (deleted_keeps_column _ _ _ _ _ _ _ Hdel); [done|].
    intros f Hrel. relations Hrel; (split; [done|]); intros _ ?; by apply Ha. }
  intros m r Hm Hr.
  assert ((m, Field "created_by" (ForeignKey User)
                [on_delete SET_NULL; null true; blank true;
                 related_name ("created_" +:+ model_name m)]) ∈ related_objects User)
    as Hrel.
  { unfold tracked_models in Hm.
    repeat (apply elem_of_cons in Hm as [->|Hm];
            [vm_compute; repeat (first [by left | right])|]).
    by apply elem_of_nil in Hm. }
  apply (no_reference_left _ _ _ _ _ Hdel _ _ _ Hrel Hr).
Qed.


Lemma filter_iff_elem {A} (P Q : A → Prop) `{!∀ x, Decision (P x), !∀ x, Decision (Q x)}
    (l : list A) :
  (∀ x, x ∈ l → P x ↔ Q x) → filter P l = filter Q l.
Proof.
  induction l as [|a l IH]; [done|]. intros Hl.
  rewrite !filter_cons, IH by (intros; apply Hl; by right).
  destruct (decide (P a)) as [Hp|Hp], (decide (Q a)) as [Hq|Hq]; try done.
  - by apply Hl in Hp; [|left].
  - by apply Hl in Hq; [|left].
Qed.

(** A table with distinct keys that refers to the model through one
    [CASCADE] relation, and through nothing else, loses the rows that refer
    to the deleted key and keeps the others as they are. *)
Lemma deleted_cascade_table db db' m pk n m0 f :
  delete db m pk = (db', Ok n) →
  m0 ≠ m →
  (m0, f) ∈ related_objects m →
  get_on_delete f = Some CASCADE →
  (∀ f', (m0, f') ∈ related_objects m → f' = f) →
  NoDup (map pk_of (table db m0)) →
  table db' m0 = filter (λ r, attr r (attname f) ≠ pk) (table db m0).
Proof.
  intros Hdel Hne Hrel Hd Honly Hnd. pose proof (deleted_key _ _ _ _ _ Hdel) as Hpk.
  rewrite (deleted_table _ _ _ _ _ Hdel).
  rewrite map_id_ext.
  2:{ intros r. unfold nullified.
      assert (Hnone : ∀ u, u ∈ field_updates (collected db m [pk]) → u.1.1 ≠ m0).
      { intros [[m1 a] k] (f' & _ & Hrel' & Hd' & _)%elem_of_updates Heq.
        cbn [fst snd] in Heq. subst.
        rewrite (Honly f' Hrel'), Hd in Hd'. discriminate. }
      induction (field_updates (collected db m [pk])) as [|u us IH]; [done|].
      cbn [foldr]. rewrite IH by (intros; apply Hnone; by right).
      rewrite decide_False; [done|]. intros [? _]. by apply (Hnone u); [left|]. }
  apply filter_iff_elem. intros r Hr. rewrite elem_of_data. split.
  - intros H Hattr. apply H. right. exists f, r. split; [done|]. split; [done|].
    split; [|done]. by apply elem_of_sub_objs.
  - intros H [[? _]|(f' & r0 & Hrel' & _ & Hr0 & Hk)]; [done|].
    rewrite (Honly f' Hrel') in Hr0.
    apply elem_of_sub_objs in Hr0 as [Hr0 Hattr]; [|done].
    assert (r = r0) as -> by (by apply (NoDup_map_elem_eq pk_of (table db m0))).
    done.
Qed.

(** X8. A customer who has an order cannot be deleted: the deletion raises
    [ProtectedError] for [Order.customer] and changes nothing.  A customer
    without orders is deleted together with the reviews they wrote; the
    other reviews and all other tables are left as they were. *)
Theorem delete_Customer_protected_by_orders (db : database) (k : Z) :
  ((∃ o, o ∈ table db Order ∧ attr o "customer_id" = VInt k) →
     delete db Customer (VInt k) = (db, Err (ProtectedError Order "customer")))
  ∧ ((∀ o, o ∈ table db Order → attr o "customer_id" ≠ VInt k) →
     ∃ db' n, delete db Customer (VInt k) = (db', Ok n)
       ∧ table db' Customer = filter (λ c, pk_of c ≠ VInt k) (table db Customer)
       ∧ (∀ rv, rv ∈ table db' Review → attr rv "customer_id" ≠ VInt k)
       ∧ (NoDup (map pk_of (table db Review)) →
          table db' Review
          = filter (λ rv, attr rv "customer_id" ≠ VInt k) (table db Review))
       ∧ ∀ m, m ∉ [Customer; Review] → table db' m = table db m).
Proof.
  split.
  - intros (o & Ho & Hattr).
    destruct (delete_protecting db Customer (VInt k)) as (m' & f & -> & Hrel & Hd);
      [done| |].
    + exists Order,
        (Field "customer" (ForeignKey Customer) [on_delete PROTECT; related_name "orders"]),
        o.
      split; [vm_compute; left|]. by split.
    + by relations Hrel.
  - intros Hfree.
    destruct (delete_unprotected db Customer (VInt k)) as (db' & n & Hdel); [done| |].
    { intros (m' & f & o & Hrel & Hd & Ho & Hattr).
      relations Hrel; try discriminate Hd. by apply (Hfree o). }
    exists db', n. split; [done|]. split.
    { apply (deleted_own_table _ _ _ _ _ Hdel). }
    split.
    { intros rv Hrv.
      apply (no_reference_left _ _ _ _ _ Hdel Review
               (Field "customer" (ForeignKey Customer)
                  [on_delete CASCADE; related_name "reviews"]));
        [vm_compute; right; left | done]. }
    split.
    { intros Hnd.
      apply (deleted_cascade_table _ _ _ _ _ _
               (Field "customer" (ForeignKey Customer)
                  [on_delete CASCADE; related_name "reviews"]) Hdel);
        [done | vm_compute; right; left | done | | done].
      intros f Hrel. by relations Hrel. }
    intros m Hm. apply (deleted_untouched _ _ _ _ _ Hdel).
    + intros ->. apply Hm. left.
    + intros f Hrel. relations Hrel; [done|]. exfalso. apply Hm. right. left.
Qed.

(** X9. Deleting a tag is never refused: its links to products go with
    it, and the products themselves and every other table are left as they
    were. *)
Theorem delete_Tag_unlinks_products (db : database) (k : Z) :
  ∃ db' n,
    delete db Tag (VInt k) = (db', Ok n)
    ∧ table db' Tag = filter (λ t, pk_of t ≠ VInt k) (table db Tag)
    ∧ (∀ l, l ∈ table db' ProductTag → attr l "tag_id" ≠ VInt k)
    ∧ (NoDup (map pk_of (table db ProductTag)) →
       table db' ProductTag
       = filter (λ l, attr l "tag_id" ≠ VInt k) (table db ProductTag))
    ∧ ∀ m, m ∉ [Tag; ProductTag] → table db' m = table db m.
Proof.
  destruct (delete_unprotected db Tag (VInt k)) as (db' & n & Hdel); [done| |].
  { intros (m' & f & r & Hrel & Hd & _). by relations Hrel. }
  exists db', n. split; [done|]. split.
  { apply (deleted_own_table _ _ _ _ _ Hdel). }
  split.
  { intros l Hl.
    apply (no_reference_left _ _ _ _ _ Hdel ProductTag
             (Field "tag" (ForeignKey Tag) [on_delete CASCADE; related_name "product_tags"]));
      [vm_compute; left | done]. }
  split.
  { intros Hnd.
    apply (deleted_cascade_table _ _ _ _ _ _
             (Field "tag" (ForeignKey Tag) [on_delete CASCADE; related_name "product_tags"])
             Hdel);
      [done | vm_compute; left | done | | done].
    intros f Hrel. by relations Hrel. }
  intros m Hm. apply (deleted_untouched _ _ _ _ _ Hdel).
  - intros ->. apply Hm. left.
  - intros f Hrel. relations Hrel. exfalso. apply Hm. right. left.
Qed.


(** *** The count a deletion returns *)

(** The number of rows of a database. *)
Definition size (db : database) : nat :=
  sum_list (map (λ m, length (table db m)) all_models).

Lemma length_filter_split {A} (P : A → Prop) `{!∀ x, Decision (P x)} (l : list A) :
  length l = (length (filter (λ x, ¬ P x) l) + length (filter P l))%nat.
Proof.
  induction l as [|a l IH]; [done|].
  rewrite !filter_cons. destruct (decide (P a)) as [Hp|Hp].
  - rewrite decide_False by tauto. cbn [length]. lia.
  - rewrite decide_True by done. cbn [length]. lia.
Qed.

Lemma length_bind_sum {A B} (f : A → list B) (l : list A) :
  length (l ≫= f) = sum_list (map (λ a, length (f a)) l).
Proof.
  induction l as [|a l IH]; [done|].
  cbn [mbind list_bind map sum_list_with id]. fold (l ≫= f) in *.
  by rewrite length_app, IH.
Qed.

Lemma sum_list_map_add {A} (f g h : A → nat) (l : list A) :
  (∀ a, f a = (g a + h a)%nat) →
  sum_list (map f l) = (sum_list (map g l) + sum_list (map h l))%nat.
Proof.
  intros Hf. induction l as [|a l IH]; [done|].
  cbn [map sum_list_with id]. rewrite Hf, IH. lia.
Qed.

Lemma sum_list_pos {A} (g : A → nat) (l : list A) (a : A) :
  a ∈ l → (0 < g a)%nat → (0 < sum_list (map g l))%nat.
Proof.
  intros Ha Hpos. induction l as [|b l IH]; [by apply elem_of_nil in Ha|].
  cbn [map sum_list_with id].
  apply elem_of_cons in Ha as [->|Ha]; [lia|]. specialize (IH Ha). lia.
Qed.

Lemma filter_map_keys {A B} (f : A → A) (k : A → B) (P : B → Prop)
    `{!∀ b, Decision (P b)} (l : list A) :
  (∀ a, k (f a) = k a) →
  length (filter (λ a, P (k a)) (map f l)) = length (filter (λ a, P (k a)) l).
Proof.
  intros Hk. induction l as [|a l IH]; [done|].
  cbn [map]. rewrite !filter_cons, Hk.
  destruct (decide (P (k a))); cbn [length]; by rewrite IH.
Qed.

(** X10. The number a deletion returns is the number of rows that left the
    database, and it counts the deleted row itself when there was one. *)
Theorem delete_counts_rows (db db' : database) (m : model) (pk : value) (n : nat) :
  delete db m pk = (db', Ok n) →
  size db = (size db' + n)%nat
  ∧ ((∃ r, r ∈ table db m ∧ pk_of r = pk) → (0 < n)%nat).
Proof.
  intros Hdel. pose proof (deleted_key _ _ _ _ _ Hdel) as Hpk.
  assert (n = length (all_models ≫= λ m',
                filter (λ r, (m', pk_of r) ∈ data (collected db m [pk])) (table db m')))
    as Hn.
  { pose proof Hdel as H.
    rewrite (delete_collected _ _ _ Hpk), (deleted_protected _ _ _ _ _ Hdel) in H.
    injection H as _ H. symmetry. exact H. }
  split.
  - rewrite Hn, length_bind_sum. unfold size. apply sum_list_map_add. intros m0.
    rewrite (deleted_table _ _ _ _ _ Hdel).
    pose proof (filter_map_keys (nullified (collected db m [pk]) m0) pk_of
                  (λ k, (m0, k) ∉ data (collected db m [pk])) (table db m0)
                  (pk_of_nullified _ _ _ m0)) as Hkeys.
    cbn beta in Hkeys. rewrite Hkeys.
    apply (length_filter_split (λ r, (m0, pk_of r) ∈ data (collected db m [pk]))).
  - intros (r & Hr & Hk). rewrite Hn, length_bind_sum.
    assert (Hm : m ∈ all_models) by (destruct m; vm_compute; repeat (first [by left | right])).
    assert (Hpos : (0 < length (filter (λ r, (m, pk_of r) ∈ data (collected db m [pk]))
                                  (table db m)))%nat).
    { assert (r ∈ filter (λ r, (m, pk_of r) ∈ data (collected db m [pk])) (table db m))
        as Hin.
      { apply list_elem_of_filter. split; [|done]. apply elem_of_data. by left. }
      destruct (filter _ (table db m)); [by apply elem_of_nil in Hin | cbn [length]; lia]. }
    apply (sum_list_pos _ _ m Hm). exact Hpos.
Qed.


(** ** Beyond single rows: what every database satisfies

    The tables refuse a row that breaks one of their constraints, and a
    deletion takes or releases what refers to the row it deletes.  So a
    database that was built from the empty one by saving and deleting rows
    satisfies the constraints as a whole. *)

(** *** What [insert] does *)

Lemma insert_inv db m r now db' res :
  insert db m r now = (db', res) →
  (∃ e, res = Err e ∧ db' = db)
  ∨ (∃ r1 r2, db_prep_row (concrete_fields m) (pre_save m now r) = Ok r1
              ∧ r2 = assign_id db m r1
              ∧ integrity_error db m r2 = None
              ∧ res = Ok (pk_of r2)
              ∧ db' = set_table db m (table db m ++ [r2])).
Proof.
  unfold insert.
  destruct (db_prep_row _ _) as [r1|e]; [|intros [= <- <-]; left; eauto].
  destruct (integrity_error _ _ _) as [e|] eqn:E; intros [= <- <-]; [left; eauto|].
  right. eauto 10.
Qed.

Lemma integrity_error_None db m r :
  integrity_error db m r = None →
  (∀ f, f ∈ concrete_fields m →
     not_null_error f r = None ∧ check_error f r = None
     ∧ unique_error db m f r = None ∧ foreign_key_error db f r = None)
  ∧ (∀ c, c ∈ constraints m → constraint_error db m c r = None).
Proof.
  unfold integrity_error. intros H.
  pose proof (proj1 (first_some_None _ _) H) as Hall. clear H. cbn [id] in Hall.
  split.
  - intros f Hf. repeat split; apply Hall; rewrite !elem_of_app.
    + left. apply elem_of_map. eauto.
    + right. left. apply elem_of_map. eauto.
    + right. right. left. apply elem_of_map. eauto.
    + do 4 right. apply elem_of_map. eauto.
  - intros c Hc. apply Hall. rewrite !elem_of_app.
    do 3 right. left. apply elem_of_map. eauto.
Qed.

Lemma table_insert db m r m0 :
  table (set_table db m (table db m ++ [r])) m0
  = if decide (m0 = m) then table db m ++ [r] else table db m0.
Proof.
  case_decide as Hm; [subst; apply table_set_table_eq|].
  by apply table_set_table_ne.
Qed.

Lemma attr_assign_id db m r a :
  attr (assign_id db m r) a
  = if decide (pk_of r = VNone ∧ a = "id") then VInt (next_id db m) else attr r a.
Proof.
  unfold assign_id. destruct (decide (pk_of r = VNone)) as [Hk|Hk].
  - rewrite attr_set_attr. destruct (decide ("id" = a)) as [<-|Ha].
    + by rewrite decide_True.
    + rewrite decide_False; [done|]. by intros [_ ->].
  - rewrite decide_False; [done|]. by intros [? _].
Qed.

(** The columns of a model have distinct names, and [id] is the key. *)
Lemma attnames_distinct m : NoDup (map attname (concrete_fields m)).
Proof. destruct m; vm_compute; apply (bool_decide_unpack _); vm_compute; exact I. Qed.

Lemma id_field_concrete m : id_field ∈ concrete_fields m.
Proof. destruct m; vm_compute; left. Qed.

Lemma concrete_field_eq m f f' :
  f ∈ concrete_fields m → f' ∈ concrete_fields m → attname f = attname f' → f = f'.
Proof.
  intros. by apply (NoDup_map_elem_eq attname (concrete_fields m));
    [apply attnames_distinct|..].
Qed.

Lemma related_concrete m f to :
  f ∈ fields m → remote_model f = Some to → f ∈ concrete_fields m.
Proof.
  intros Hf Hrem. unfold concrete_fields. apply list_elem_of_filter. split; [|done].
  unfold many_to_many. unfold remote_model in Hrem. by destruct (f_type f).
Qed.

(** The row that goes to the table holds, in the column of each field, the
    value prepared for it. *)
Lemma db_prep_row_attr fs r r1 f :
  db_prep_row fs r = Ok r1 → NoDup (map attname fs) → f ∈ fs →
  db_prep f (attr r (attname f)) = Ok (attr r1 (attname f)).
Proof.
  revert r1. induction fs as [|f0 fs IH]; intros r1 Hprep Hnd Hf.
  { by apply elem_of_nil in Hf. }
  cbn [db_prep_row] in Hprep.
  destruct (db_prep f0 _) as [x|] eqn:Ex; [|discriminate].
  destruct (db_prep_row fs r) as [r'|]; [|discriminate].
  cbn [mbind result_bind] in Hprep. injection Hprep as <-.
  cbn [map] in Hnd. apply NoDup_cons in Hnd as [Hf0 Hnd].
  apply elem_of_cons in Hf as [->|Hf].
  - rewrite Ex. f_equal. unfold attr. cbn [get]. by rewrite String.eqb_refl.
  - rewrite (IH r') by done. f_equal. unfold attr. cbn [get].
    destruct (String.eqb (attname f0) (attname f)) eqn:E; [|done].
    apply String.eqb_eq in E. exfalso. apply Hf0. rewrite E. apply elem_of_map. eauto.
Qed.


(** *** Referential integrity *)

Lemma insert_references db m r now :
  references_resolve db → references_resolve (insert db m r now).1.
Proof.
  intros Hdb. destruct (insert db m r now) as [db' res] eqn:E. cbn [fst].
  apply insert_inv in E as [(e & _ & ->)|(r1 & r2 & _ & _ & Hint & _ & ->)]; [done|].
  apply integrity_error_None in Hint as [Hfields _].
  assert (Hgrow : ∀ to x, x ∈ table db to →
            x ∈ table (set_table db m (table db m ++ [r2])) to).
  { intros to x Hx. rewrite table_insert. case_decide; [subst; apply elem_of_app|]; eauto. }
  intros m0 f to r0 Hf Hrem Hr0 Hne. rewrite table_insert in Hr0.
  assert (Hold : r0 ∈ table db m0 →
            ∃ x, x ∈ table (set_table db m (table db m ++ [r2])) to
                 ∧ pk_of x = attr r0 (attname f)).
  { intros Hin. destruct (Hdb m0 f to r0 Hf Hrem Hin Hne) as (x & Hx & Hk). eauto. }
  case_decide as Hm; [subst m0|by apply Hold].
  apply elem_of_app in Hr0 as [Hr0|Heq%list_elem_of_singleton]; [by apply Hold|].
  subst r0.
  destruct (Hfields f) as (_ & _ & _ & Hfk); [by eapply related_concrete|].
  unfold foreign_key_error in Hfk. rewrite Hrem in Hfk.
  rewrite (bool_decide_eq_false_2 _ Hne) in Hfk. cbn [negb andb] in Hfk.
  case_bool_decide as Hnil; [discriminate|].
  destruct (filter _ (table db to)) as [|x l] eqn:Ex; [done|].
  assert (x ∈ filter (λ r', pk_of r' = attr r2 (attname f)) (table db to)) as Hx
    by (rewrite Ex; left).
  apply list_elem_of_filter in Hx as [Hk Hx]. eauto.
Qed.


(** *** Properties of the stored rows, one by one *)

Section Rows.
Variable P : model → row → Prop.

Lemma insert_rows db m r now :
  (∀ m0 r0, r0 ∈ table db m0 → P m0 r0) →
  (∀ r1, db_prep_row (concrete_fields m) (pre_save m now r) = Ok r1 →
         integrity_error db m (assign_id db m r1) = None →
         P m (assign_id db m r1)) →
  ∀ m0 r0, r0 ∈ table (insert db m r now).1 m0 → P m0 r0.
Proof.
  intros Hdb Hnew m0 r0. destruct (insert db m r now) as [db' res] eqn:E. cbn [fst].
  apply insert_inv in E as [(e & _ & ->)|(r1 & r2 & Hprep & -> & Hint & _ & ->)];
    [by apply Hdb|].
  rewrite table_insert. case_decide as Hm; [subst m0|by apply Hdb].
  intros [Hr0|Heq%list_elem_of_singleton]%elem_of_app; [by apply Hdb|].
  subst r0. by apply Hnew.
Qed.

Lemma delete_rows db m pk :
  (∀ m0 r0, r0 ∈ table db m0 → P m0 r0) →
  (∀ m0 r0, r0 ∈ table db m0 → P m0 r0 → P m0 (nullified (collected db m [pk]) m0 r0)) →
  ∀ m0 r0, r0 ∈ table (delete db m pk).1 m0 → P m0 r0.
Proof.
  intros Hdb Hnull m0 r'. destruct (delete db m pk) as [db' [n|e]] eqn:E; cbn [fst].
  - intros Hr'. destruct (deleted_row _ _ _ _ _ E _ _ Hr') as (r & Hr & -> & _).
    apply Hnull; [done|]. by apply Hdb.
  - rewrite (delete_failed _ _ _ _ _ E). apply Hdb.
Qed.

End Rows.

(** A relation declared with [SET_NULL] is nullable, as the system check
    [fields.E320] demands. *)
Lemma set_null_is_nullable m m0 f :
  (m0, f) ∈ related_objects m → get_on_delete f = Some SET_NULL → is_null f = true.
Proof.
  intros Hrel. destruct m; relations Hrel; intros Hd; vm_compute in Hd |- *; congruence.
Qed.

(** A column that a deletion sets to null belongs to a nullable field. *)
Lemma nullified_column db m pk m0 r f :
  f ∈ concrete_fields m0 →
  attr (nullified (collected db m [pk]) m0 r) (attname f) = attr r (attname f)
  ∨ (attr (nullified (collected db m [pk]) m0 r) (attname f) = VNone
     ∧ is_null f = true).
Proof.
  intros Hf. rewrite attr_nullified. case_decide as Hu; [right|by left].
  split; [done|].
  apply elem_of_updates in Hu as (f' & _ & Hrel & Hd & Ha & _).
  pose proof (set_null_is_nullable _ _ _ Hrel Hd) as Hnull.
  apply elem_of_related_objects in Hrel as [Hf' Hrem].
  by rewrite (concrete_field_eq m0 f f' Hf (related_concrete _ _ _ Hf' Hrem) Ha).
Qed.


(** *** What a column accepts *)

(** The value is of the kind the field stores, it is null only in a nullable
    column, and it is not negative in the column of a
    [PositiveIntegerField]. *)
Definition column_accepts (f : field) (v : value) : Prop :=
  to_python f true v = Some v
  ∧ (is_null f = false → v ≠ VNone)
  ∧ (∀ z, f_type f = PositiveIntegerField → v = VInt z → 0 ≤ z).

Definition columns_hold (db : database) : Prop :=
  ∀ m f r, f ∈ concrete_fields m → r ∈ table db m →
    column_accepts f (attr r (attname f)).

Lemma db_prep_typed f v x : db_prep f v = Ok x → to_python f true x = Some x.
Proof.
  unfold db_prep.
  destruct (to_python f true v) as [y|] eqn:E; [|discriminate].
  assert (to_python f true y = Some y) as Hy.
  { unfold to_python in *.
    destruct (f_type f), v; simpl in E; try destruct (get_max_digits f);
      simplify_eq; done. }
  intros H. assert (x = y) as ->; [|done].
  destruct y; repeat case_match; simplify_eq; done.
Qed.

Lemma attname_id_field : attname id_field = "id".
Proof. reflexivity. Qed.

Lemma insert_columns db m r now : columns_hold db → columns_hold (insert db m r now).1.
Proof.
  intros Hdb m0 f r0 Hf Hr0. revert f Hf.
  apply (insert_rows (λ m0 r0, ∀ f, f ∈ concrete_fields m0 →
           column_accepts f (attr r0 (attname f))) db m r now); [| |exact Hr0].
  { intros m1 r1 Hr1 f Hf. by apply (Hdb m1). }
  intros r1 Hprep Hint f Hf.
  apply integrity_error_None in Hint as [Hfields _].
  destruct (Hfields f Hf) as (Hnn & Hck & _).
  split; [|split].
  - rewrite attr_assign_id. case_decide as Hid.
    + destruct Hid as [_ Hid].
      rewrite (concrete_field_eq m f id_field Hf (id_field_concrete m)); [done|].
      by rewrite attname_id_field.
    + eapply db_prep_typed, db_prep_row_attr; [exact Hprep|apply attnames_distinct|done].
  - intros Hnull. unfold not_null_error in Hnn. rewrite Hnull in Hnn.
    case_bool_decide; [discriminate | done].
  - intros z Hty Hz. unfold check_error in Hck. rewrite Hty, Hz in Hck.
    case_bool_decide; [discriminate | lia].
Qed.

Lemma delete_columns db m pk : columns_hold db → columns_hold (delete db m pk).1.
Proof.
  intros Hdb m0 f r0 Hf Hr0. revert f Hf.
  apply (delete_rows (λ m0 r0, ∀ f, f ∈ concrete_fields m0 →
           column_accepts f (attr r0 (attname f))) db m pk); [| |exact Hr0].
  { intros m1 r1 Hr1 f Hf. by apply (Hdb m1). }
  intros m1 r1 _ Hok f Hf.
  destruct (nullified_column db m pk m1 r1 f Hf) as [->|[-> Hnull]]; [by apply Hok|].
  split; [|split].
  - unfold to_python. by destruct (f_type f).
  - by rewrite Hnull.
  - done.
Qed.


(** *** Uniqueness *)

(** No two rows hold the same non-null value in a unique column; no two
    rows hold the same non-null values in the columns of a
    [UniqueConstraint]. *)
Definition unique_columns (db : database) : Prop :=
  ∀ m f, f ∈ concrete_fields m → is_unique f = true →
    NoDup (filter (λ v, v ≠ VNone) (map (λ r, attr r (attname f)) (table db m))).

Definition unique_constraints (db : database) : Prop :=
  ∀ m names cname, UniqueConstraint names cname ∈ constraints m →
    NoDup (filter (λ k, VNone ∉ k) (map (key_of m names) (table db m))).

Section Keys.
Context {K : Type} (key : row → K) (P : K → Prop) `{!∀ k, Decision (P k)}.

Lemma NoDup_key_snoc (l : list row) (r : row) :
  NoDup (filter P (map key l)) →
  (P (key r) → ∀ r', r' ∈ l → key r' ≠ key r) →
  NoDup (filter P (map key (l ++ [r]))).
Proof.
  intros Hnd Hnew. rewrite map_app, filter_app. cbn [map].
  rewrite filter_cons, filter_nil. case_decide as Hp; [|by rewrite app_nil_r].
  apply NoDup_app. split; [done|]. split; [|apply NoDup_singleton].
  intros k [_ (r' & -> & Hr')%elem_of_map]%list_elem_of_filter Hk%list_elem_of_singleton.
  by apply (Hnew Hp r').
Qed.

Lemma elem_of_key_sub (g : row → row) (Q : row → Prop) `{!∀ r, Decision (Q r)}
    (l : list row) k :
  (∀ r, r ∈ l → P (key (g r)) → key (g r) = key r) →
  k ∈ filter P (map key (filter Q (map g l))) → k ∈ filter P (map key l).
Proof.
  intros Hg [Hp (r' & -> & [_ (r & -> & Hr)%elem_of_map]%list_elem_of_filter)%elem_of_map]
    %list_elem_of_filter.
  rewrite (Hg r Hr Hp) in Hp |- *. apply list_elem_of_filter. split; [done|].
  apply elem_of_map. eauto.
Qed.

Lemma NoDup_key_sub (g : row → row) (Q : row → Prop) `{!∀ r, Decision (Q r)}
    (l : list row) :
  (∀ r, r ∈ l → P (key (g r)) → key (g r) = key r) →
  NoDup (filter P (map key l)) →
  NoDup (filter P (map key (filter Q (map g l)))).
Proof.
  induction l as [|a l IH]; [done|]. intros Hg Hnd.
  assert (Hl : ∀ r, r ∈ l → P (key (g r)) → key (g r) = key r)
    by (intros; apply Hg; [by right | done]).
  assert (Hnd' : NoDup (filter P (map key l))).
  { cbn [map] in Hnd. rewrite filter_cons in Hnd. case_decide; [|done].
    by apply NoDup_cons in Hnd as [_ ?]. }
  cbn [map]. rewrite (filter_cons Q). case_decide as Hq; [|by apply IH].
  cbn [map]. rewrite (filter_cons P). case_decide as Hp; [|by apply IH].
  apply NoDup_cons. split; [|by apply IH].
  intros Hin%(elem_of_key_sub g Q l); [|done].
  pose proof (Hg a (list_elem_of_here _ _) Hp) as Ha. rewrite Ha in Hp, Hin.
  cbn [map] in Hnd. rewrite filter_cons, decide_True in Hnd by done.
  by apply NoDup_cons in Hnd as [? _].
Qed.

End Keys.

Lemma insert_unique_columns db m r now :
  unique_columns db → unique_columns (insert db m r now).1.
Proof.
  intros Hdb. destruct (insert db m r now) as [db' res] eqn:E. cbn [fst].
  apply insert_inv in E as [(e & _ & ->)|(r1 & r2 & _ & _ & Hint & _ & ->)]; [done|].
  apply integrity_error_None in Hint as [Hfields _].
  intros m0 f Hf Hu. rewrite table_insert. case_decide as Hm; [subst m0|by apply Hdb].
  apply NoDup_key_snoc; [by apply Hdb|].
  intros Hne r' Hr' Heq. destruct (Hfields f Hf) as (_ & _ & Huniq & _).
  unfold unique_error in Huniq.
  rewrite Hu, (bool_decide_eq_false_2 _ Hne) in Huniq. cbn [negb andb] in Huniq.
  case_bool_decide as Hnil; [|discriminate].
  by eapply (filter_nil_not_elem_of _ _ r' Hnil).
Qed.

Lemma insert_unique_constraints db m r now :
  unique_constraints db → unique_constraints (insert db m r now).1.
Proof.
  intros Hdb. destruct (insert db m r now) as [db' res] eqn:E. cbn [fst].
  apply insert_inv in E as [(e & _ & ->)|(r1 & r2 & _ & _ & Hint & _ & ->)]; [done|].
  apply integrity_error_None in Hint as [_ Hcons].
  intros m0 names cname Hc. rewrite table_insert.
  case_decide as Hm; [subst m0|by eapply Hdb].
  apply NoDup_key_snoc; [by eapply Hdb|].
  intros Hne r' Hr' Heq. pose proof (Hcons _ Hc) as Hdup.
  cbn [constraint_error] in Hdup. unfold duplicates in Hdup.
  rewrite (bool_decide_eq_false_2 _ Hne) in Hdup. cbn [negb andb] in Hdup.
  case_bool_decide as Hnil; [|discriminate].
  by eapply (filter_nil_not_elem_of _ _ r' Hnil).
Qed.

Lemma delete_unique_columns db m pk :
  unique_columns db → unique_columns (delete db m pk).1.
Proof.
  intros Hdb. destruct (delete db m pk) as [db' [n|e]] eqn:E; cbn [fst].
  2:{ by rewrite (delete_failed _ _ _ _ _ E). }
  intros m0 f Hf Hu. rewrite (deleted_table _ _ _ _ _ E).
  apply (NoDup_key_sub (λ r, attr r (attname f)) (λ v, v ≠ VNone)); [|by apply Hdb].
  intros r _ Hne. rewrite attr_nullified in Hne |- *. by case_decide.
Qed.

Lemma delete_unique_constraints db m pk :
  unique_constraints db → unique_constraints (delete db m pk).1.
Proof.
  intros Hdb. destruct (delete db m pk) as [db' [n|e]] eqn:E; cbn [fst].
  2:{ by rewrite (delete_failed _ _ _ _ _ E). }
  intros m0 names cname Hc. rewrite (deleted_table _ _ _ _ _ E).
  apply (NoDup_key_sub (key_of m0 names) (λ k, VNone ∉ k)); [|by eapply Hdb].
  intros r _ Hne. unfold key_of in *. apply map_ext_in. intros name Hname.
  rewrite attr_nullified. case_decide as Hu; [|done].
  exfalso. apply Hne. apply elem_of_map. exists name.
  rewrite attr_nullified, decide_True by done. split; [done|].
  by apply list_elem_of_In.
Qed.


(** *** Every database the calls can build *)

(** The calls that write: [Model.objects.create] with keyword arguments,
    [instance.save(force_insert=True)] and [instance.delete()]. *)
Inductive call :=
  | Create (m : model) (kwargs : row) (now : Z)
  | Save (m : model) (instance : row) (now : Z)
  | Delete (m : model) (pk : value).

(** Whether the outcome of a write is determined here.  [NotModelled]
    stands for what the backend decides (an integer out of the range of its
    column, a string longer than its column, a decimal that needs rounding),
    and the [ValueError] of [insert] for a value that is not of the kind of
    its field, which Python may still coerce.  In both cases the code may
    store a row: nothing is said about the state such a call leaves. *)
Definition settled {A} (res : result A) : bool :=
  match res with
  | Err (NotModelled _) | Err (ValueError _) => false
  | _ => true
  end.

(** The state a call leaves, whether it went through or raised; none when
    its outcome is left open. *)
Definition run (db : database) (c : call) : option database :=
  match c with
  | Create m kwargs now =>
      if settled (create db m kwargs now).2 then Some (create db m kwargs now).1 else None
  | Save m instance now =>
      if settled (insert db m instance now).2 then Some (insert db m instance now).1
      else None
  | Delete m pk => Some (delete db m pk).1
  end.

(** The database after a sequence of calls on the empty one, when the
    outcome of every call is determined. *)
Definition history (calls : list call) : option database :=
  foldl (λ state c, state ≫= λ db, run db c) (Some empty_db) calls.

Lemma history_ind (I : database → Prop) :
  I empty_db →
  (∀ db m r now, I db → I (insert db m r now).1) →
  (∀ db m pk, I db → I (delete db m pk).1) →
  ∀ calls db, history calls = Some db → I db.
Proof.
  intros Hempty Hins Hdel calls. unfold history.
  induction calls as [|c calls IH] using rev_ind; intros db.
  { by intros [= <-]. }
  rewrite foldl_app. cbn [foldl].
  destruct (foldl _ (Some empty_db) calls) as [db0|]; [|done].
  specialize (IH db0 eq_refl). cbn [mbind option_bind].
  destruct c; cbn [run]; [case_match; [|done]..|]; intros [= <-];
    [apply Hins | apply Hins | apply Hdel]; exact IH.
Qed.

Lemma table_empty_db m : table empty_db m = [].
Proof. done. Qed.

Lemma history_columns calls db : history calls = Some db → columns_hold db.
Proof.
  revert db. apply history_ind.
  - intros m f r _ Hr. rewrite table_empty_db in Hr. by apply elem_of_nil in Hr.
  - intros. by apply insert_columns.
  - intros. by apply delete_columns.
Qed.

Lemma history_unique_columns calls db : history calls = Some db → unique_columns db.
Proof.
  revert db. apply history_ind.
  - intros m f _ _. rewrite table_empty_db. apply NoDup_nil_2.
  - intros. by apply insert_unique_columns.
  - intros. by apply delete_unique_columns.
Qed.

Lemma history_keys calls db m :
  history calls = Some db →
  NoDup (map pk_of (table db m)) ∧ ∀ r, r ∈ table db m → pk_of r ≠ VNone.
Proof.
  intros Hdb.
  assert (Hnn : ∀ r, r ∈ table db m → pk_of r ≠ VNone).
  { intros r Hr.
    by apply (history_columns calls db Hdb m id_field r (id_field_concrete m) Hr). }
  split; [|done].
  pose proof (history_unique_columns calls db Hdb m id_field (id_field_concrete m) eq_refl)
    as H.
  rewrite filter_all in H; [done|].
  intros v (r & -> & Hr)%elem_of_map. by apply Hnn.
Qed.

(** X11. In a database built by a sequence of [create], [save] and [delete]
    calls, each of which went through or raised an error that leaves the
    tables as they were, every reference that is not null leads to a stored
    row: a row cannot be saved with a reference to nothing, and a row that
    is referred to cannot vanish while the reference stays.  (Sequences with
    a call whose outcome depends on the backend, or on a coercion of Python,
    are not covered: [history] is not defined on them.) *)
Theorem history_references_resolve (calls : list call) (db : database) :
  history calls = Some db → references_resolve db.
Proof.
  revert db. apply history_ind.
  - intros m f to r _ _ Hr. rewrite table_empty_db in Hr. by apply elem_of_nil in Hr.
  - intros. by apply insert_references.
  - intros. by apply delete_references.
Qed.

(** X12. In a database built by such a sequence of calls, every stored
    value is of the kind its field stores, a column that is not nullable
    holds no null, and the column of a [PositiveIntegerField] holds no
    negative number: a product's [stock_quantity] is an integer that is not
    negative, although the calls run no validator. *)
Theorem history_columns_hold (calls : list call) (db : database) :
  history calls = Some db →
  columns_hold db
  ∧ ∀ p, p ∈ table db Product → ∃ n, attr p "stock_quantity" = VInt n ∧ 0 ≤ n.
Proof.
  intros Hdb. split; [by apply (history_columns calls)|]. intros p Hp.
  destruct (history_columns calls db Hdb Product
              (Field "stock_quantity" PositiveIntegerField
                 [default_ (Value (VInt 0)); db_index true]) p)
    as (Hty & Hnn & Hck); [vm_compute; do 9 right; left | done |].
  unfold to_python in Hty. cbn [attname remote_model f_type f_name] in *.
  destruct (attr p "stock_quantity") as [| |n| | | |] eqn:E; try discriminate Hty.
  - by destruct Hnn.
  - exists n. split; [done|]. by apply Hck.
Qed.

Lemma history_unique_constraints calls db :
  history calls = Some db → unique_constraints db.
Proof.
  revert db. apply history_ind.
  - intros m names cname _. rewrite table_empty_db. apply NoDup_nil_2.
  - intros. by apply insert_unique_constraints.
  - intros. by apply delete_unique_constraints.
Qed.

Lemma NoDup_key_elem_eq {K} (key : row → K) (P : K → Prop) `{!∀ k, Decision (P k)}
    (l : list row) (x y : row) :
  NoDup (filter P (map key l)) → x ∈ l → y ∈ l → P (key x) → key x = key y → x = y.
Proof.
  induction l as [|a l IH]; [by intros _ ?%elem_of_nil|].
  cbn [map]. rewrite filter_cons. intros Hnd Hx Hy Hp Heq.
  assert (Hin : ∀ z, z ∈ l → P (key z) → key z ∈ filter P (map key l)).
  { intros z Hz Hpz. apply list_elem_of_filter. split; [done|]. apply elem_of_map. eauto. }
  apply elem_of_cons in Hx as [->|Hx]; apply elem_of_cons in Hy as [->|Hy]; [done|..].
  - rewrite decide_True in Hnd by done. apply NoDup_cons in Hnd as [Ha _].
    exfalso. apply Ha. rewrite Heq. apply Hin; [done|]. by rewrite <- Heq.
  - rewrite <- Heq in *. rewrite decide_True in Hnd by done.
    apply NoDup_cons in Hnd as [Ha _]. exfalso. apply Ha. by apply Hin.
  - apply IH; try done. case_decide; [by apply NoDup_cons in Hnd as [_ ?]|done].
Qed.

(** X13. In a database built by such a sequence of calls, the keys of a
    table are distinct and not null; two rows that hold the same non-null
    value in a unique column ([Category.name], [Supplier.company_name],
    [Tag.name], [Customer.email], the product of a [ProductDetail]) are one
    row; and so are two rows that hold the same non-null values in the
    columns of a [UniqueConstraint]. *)
Theorem history_unique (calls : list call) (db : database) (m : model) :
  history calls = Some db →
  NoDup (map pk_of (table db m))
  ∧ (∀ r, r ∈ table db m → pk_of r ≠ VNone)
  ∧ (∀ f r1 r2, f ∈ concrete_fields m → is_unique f = true →
       r1 ∈ table db m → r2 ∈ table db m →
       attr r1 (attname f) ≠ VNone →
       attr r1 (attname f) = attr r2 (attname f) → r1 = r2)
  ∧ (∀ names cname r1 r2, UniqueConstraint names cname ∈ constraints m →
       r1 ∈ table db m → r2 ∈ table db m →
       VNone ∉ key_of m names r1 →
       key_of m names r1 = key_of m names r2 → r1 = r2).
Proof.
  intros Hdb.
  split; [by apply (history_keys calls)|]. split; [by apply (history_keys calls)|]. split.
  - intros f r1 r2 Hf Hu Hr1 Hr2 Hne Heq.
    by apply (NoDup_key_elem_eq (λ r, attr r (attname f)) (λ v, v ≠ VNone) (table db m));
      [apply (history_unique_columns calls)|..].
  - intros names cname r1 r2 Hc Hr1 Hr2 Hne Heq.
    by apply (NoDup_key_elem_eq (key_of m names) (λ k, VNone ∉ k) (table db m));
      [eapply (history_unique_constraints calls)|..].
Qed.

(** ** What [create] stores *)

Lemma attr_map_fields (g : field → value) (fs : list field) (f : field) :
  NoDup (map attname fs) → f ∈ fs →
  attr (map (λ f, (attname f, g f)) fs) (attname f) = g f.
Proof.
  induction fs as [|f0 fs IH]; [by intros _ ?%elem_of_nil|].
  cbn [map]. intros [Hf0 Hnd]%NoDup_cons [->|Hf]%elem_of_cons.
  - unfold attr. cbn [get]. by rewrite String.eqb_refl.
  - unfold attr. cbn [get]. destruct (String.eqb (attname f0) (attname f)) eqn:E.
    + apply String.eqb_eq in E. exfalso. apply Hf0. rewrite E. apply elem_of_map. eauto.
    + by apply IH.
Qed.

Lemma attr_init m kwargs now f :
  f ∈ concrete_fields m →
  attr (init m kwargs now) (attname f)
  = default (field_default now f) (get kwargs (attname f)).
Proof.
  intros Hf. unfold init.
  by rewrite (attr_map_fields (λ f, default (field_default now f) (get kwargs (attname f))))
    by (apply attnames_distinct || done).
Qed.

Lemma attr_pre_save m now r f :
  f ∈ concrete_fields m →
  attr (pre_save m now r) (attname f)
  = if is_auto_now f || is_auto_now_add f then VDateTime now else attr r (attname f).
Proof.
  unfold pre_save. pose proof (attnames_distinct m) as Hnd.
  induction (concrete_fields m) as [|f0 fs IH]; [by intros ?%elem_of_nil|].
  cbn [map] in Hnd. apply NoDup_cons in Hnd as [Hf0 Hnd]. cbn [foldr].
  intros [->|Hf]%elem_of_cons.
  - destruct (is_auto_now f0 || is_auto_now_add f0) eqn:E; [apply attr_set_attr_eq|].
    clear IH. induction fs as [|f1 fs IH]; [done|]. cbn [foldr].
    destruct (is_auto_now f1 || is_auto_now_add f1).
    + rewrite attr_set_attr_ne.
      * apply IH; [|by apply NoDup_cons in Hnd as [_ ?]].
        intros Hin. apply Hf0. cbn [map]. by right.
      * intros Heq. apply Hf0. cbn [map]. rewrite Heq. left.
    + apply IH; [|by apply NoDup_cons in Hnd as [_ ?]].
      intros Hin. apply Hf0. cbn [map]. by right.
  - destruct (is_auto_now f0 || is_auto_now_add f0); [|by apply IH].
    rewrite attr_set_attr_ne; [by apply IH|].
    intros Heq. apply Hf0. rewrite Heq. apply elem_of_map. eauto.
Qed.

(** The value [create] hands to the column of [f]. *)
Definition given (m : model) (kwargs : row) (now : Z) (f : field) : value :=
  if is_auto_now f || is_auto_now_add f then VDateTime now
  else default (field_default now f) (get kwargs (attname f)).

(** A [create] that goes through appends one row to the table of its model
    and leaves the other tables alone; the row holds, in every column but
    the key, the value given for it, as the column stores it. *)
Lemma create_inv db m kwargs now db' pk :
  create db m kwargs now = (db', Ok pk) →
  ∃ r, table db' m = table db m ++ [r]
     ∧ (∀ m0, m0 ≠ m → table db' m0 = table db m0)
     ∧ pk_of r = pk
     ∧ ∀ f, f ∈ concrete_fields m → f ≠ id_field →
         db_prep f (given m kwargs now f) = Ok (attr r (attname f)).
Proof.
  unfold create. intros E.
  apply insert_inv in E as [(e & [=] & _)|(r1 & r2 & Hprep & -> & _ & [= ->] & ->)].
  eexists. split; [apply table_set_table_eq|].
  split; [intros; by apply table_set_table_ne|]. split; [done|].
  intros f Hf Hid. rewrite attr_assign_id, decide_False.
  - rewrite <- (db_prep_row_attr _ _ _ f Hprep) by (apply attnames_distinct || done).
    by rewrite attr_pre_save, attr_init.
  - intros [_ Heq]. apply Hid.
    by apply (concrete_field_eq m); [|apply id_field_concrete|].
Qed.

Lemma db_prep_datetime f t x : db_prep f (VDateTime t) = Ok x → x = VDateTime t.
Proof.
  unfold db_prep. destruct (to_python _ _ _) as [y|] eqn:E; [|discriminate].
  assert (y = VDateTime t) as ->.
  { unfold to_python in E. destruct (f_type f); simpl in E; by simplify_eq. }
  by intros [= <-].
Qed.

Lemma elem_of_concrete_fields m f :
  f ∈ concrete_fields m ↔ f ∈ fields m ∧ many_to_many f = None.
Proof. unfold concrete_fields. rewrite list_elem_of_filter. tauto. Qed.

(** X14. [created_at] and [updated_at] are set by the clock, not by the
    caller: the row a [create] stores holds the time of the call in every
    column of a field declared with [auto_now] or [auto_now_add], whatever
    the keyword arguments say; and every model but [ProductTag] and the
    [User] of Django has both columns. *)
Theorem create_sets_timestamps
    (db db' : database) (m : model) (kwargs : row) (now : Z) (pk : value) :
  create db m kwargs now = (db', Ok pk) →
  ∃ r, table db' m = table db m ++ [r]
     ∧ pk_of r = pk
     ∧ (∀ f, f ∈ concrete_fields m → is_auto_now f || is_auto_now_add f = true →
          attr r (attname f) = VDateTime now)
     ∧ (m ∉ [User; ProductTag] →
          attr r "created_at" = VDateTime now ∧ attr r "updated_at" = VDateTime now).
Proof.
  intros (r & Htab & _ & Hpk & Hcols)%create_inv. exists r.
  split; [done|]. split; [done|].
  assert (Hauto : ∀ f, f ∈ concrete_fields m → is_auto_now f || is_auto_now_add f = true →
            attr r (attname f) = VDateTime now).
  { intros f Hf Hauto. apply (db_prep_datetime f).
    rewrite <- (Hcols f Hf); [unfold given; by rewrite Hauto|].
    intros ->. discriminate Hauto. }
  split; [done|]. intros Hm.
  assert (TimeStampedModel ⊆ concrete_fields m) as Hsub.
  { intros f Hf. destruct m; try (exfalso; apply Hm; by repeat (left || right));
      vm_compute in Hf |- *;
      repeat (apply elem_of_cons in Hf as [->|Hf]; [by repeat (left || right)|]);
      by apply elem_of_nil in Hf. }
  split.
  - apply (Hauto (Field "created_at" DateTimeField
                    [auto_now_add true; verbose_name "Создано"])); [|done].
    apply Hsub. left.
  - apply (Hauto (Field "updated_at" DateTimeField
                    [auto_now true; verbose_name "Обновлено"])); [|done].
    apply Hsub. right. left.
Qed.


Lemma given_default m kwargs now f :
  is_auto_now f || is_auto_now_add f = false →
  get kwargs (attname f) = None →
  given m kwargs now f = field_default now f.
Proof. intros Hauto Hkw. unfold given. by rewrite Hauto, Hkw. Qed.

Lemma given_kwarg m kwargs now f v :
  is_auto_now f || is_auto_now_add f = false →
  get kwargs (attname f) = Some v →
  given m kwargs now f = v.
Proof. intros Hauto Hkw. unfold given. by rewrite Hauto, Hkw. Qed.

Ltac concrete_field :=
  vm_compute; repeat (first [by left | right]).

(** X15. What a [create] stores for an argument that is left out: a row of
    a tracked model is active, a product has stock 0, a supplier link has 0
    delivery days, and the registration date of a customer and the date of
    an order are the time of the call; unlike [created_at], a date that is
    given is kept. *)
Theorem create_fills_defaults
    (db db' : database) (m : model) (kwargs : row) (now : Z) (pk : value) :
  create db m kwargs now = (db', Ok pk) →
  ∃ r, table db' m = table db m ++ [r]
     ∧ pk_of r = pk
     ∧ (m ∈ tracked_models → get kwargs "is_active" = None →
          attr r "is_active" = VBool true)
     ∧ (m = Product → get kwargs "stock_quantity" = None →
          attr r "stock_quantity" = VInt 0)
     ∧ (m = ProductSupplier → get kwargs "delivery_days" = None →
          attr r "delivery_days" = VInt 0)
     ∧ (m = Customer →
          (get kwargs "registration_date" = None →
             attr r "registration_date" = VDateTime now)
          ∧ ∀ t, get kwargs "registration_date" = Some (VDateTime t) →
                 attr r "registration_date" = VDateTime t)
     ∧ (m = Order →
          (get kwargs "order_date" = None → attr r "order_date" = VDateTime now)
          ∧ ∀ t, get kwargs "order_date" = Some (VDateTime t) →
                 attr r "order_date" = VDateTime t).
Proof.
  intros (r & Htab & _ & Hpk & Hcols)%create_inv. exists r.
  split; [done|]. split; [done|].
  assert (Hdef : ∀ f v, f ∈ concrete_fields m → f ≠ id_field →
            is_auto_now f || is_auto_now_add f = false →
            get kwargs (attname f) = None →
            db_prep f (field_default now f) = Ok v → attr r (attname f) = v).
  { intros f v Hf Hid Hauto Hkw Hprep.
    pose proof (Hcols f Hf Hid) as H. rewrite given_default, Hprep in H by done.
    by injection H. }
  assert (Hkept : ∀ f x v, f ∈ concrete_fields m → f ≠ id_field →
            is_auto_now f || is_auto_now_add f = false →
            get kwargs (attname f) = Some x →
            db_prep f x = Ok v → attr r (attname f) = v).
  { intros f x v Hf Hid Hauto Hkw Hprep.
    pose proof (Hcols f Hf Hid) as H. rewrite (given_kwarg _ _ _ _ x), Hprep in H by done.
    by injection H. }
  split.
  { intros Hm Hkw. unfold tracked_models in Hm.
    apply (Hdef (Field "is_active" BooleanField [default_ (Value (VBool true)); db_index true]));
      try done.
    repeat (apply elem_of_cons in Hm as [->|Hm]; [concrete_field|]).
    by apply elem_of_nil in Hm. }
  split.
  { intros -> Hkw.
    apply (Hdef (Field "stock_quantity" PositiveIntegerField
                   [default_ (Value (VInt 0)); db_index true])); try done.
    concrete_field. }
  split.
  { intros -> Hkw.
    apply (Hdef (Field "delivery_days" PositiveIntegerField [default_ (Value (VInt 0))]));
      try done.
    concrete_field. }
  split.
  { intros ->. split.
    - intros Hkw.
      apply (Hdef (Field "registration_date" DateTimeField
                     [default_ timezone_now; db_index true])); try done.
      concrete_field.
    - intros t Hkw.
      apply (Hkept (Field "registration_date" DateTimeField
                      [default_ timezone_now; db_index true]) (VDateTime t)); try done.
      concrete_field. }
  intros ->. split.
  - intros Hkw.
    apply (Hdef (Field "order_date" DateTimeField [default_ timezone_now; db_index true]));
      try done.
    concrete_field.
  - intros t Hkw.
    apply (Hkept (Field "order_date" DateTimeField [default_ timezone_now; db_index true])
             (VDateTime t)); try done.
    concrete_field.
Qed.


(** ** The query helpers together *)

Lemma available_filter db self :
  available db self = Ok (filter in_stock_and_active self).
Proof.
  unfold available, filter_.
  change (mapM_result (build_filter Product) _)
    with (Ok [Cond [] (OnColumn (Field "stock_quantity" PositiveIntegerField
                                   [default_ (Value (VInt 0)); db_index true]))
                   gt (VInt 0);
              Cond [] (OnColumn (Field "is_active" BooleanField
                                   [default_ (Value (VBool true)); db_index true]))
                   exact (VBool true)]).
  simpl. f_equal. apply bind_replicate_filter. intros r.
  cbn [foldr]. rewrite !multiplicity_local by done.
  cbn [c_op c_target c_value cell attname remote_model f_type f_name].
  rewrite Nat.mul_1_r.
  destruct (holds gt _ _) eqn:E1; destruct (holds exact _ _) eqn:E2;
    case_decide as HP; try done; exfalso.
  - apply HP; split; [by apply holds_gt_Z | by apply holds_exact_bool].
  - destruct HP as [_ HP]. apply holds_exact_bool in HP. congruence.
  - destruct HP as [HP _]. apply holds_gt_Z in HP. congruence.
  - destruct HP as [HP _]. apply holds_gt_Z in HP. congruence.
Qed.

Lemma filter_filter_and {A} (P Q : A → Prop)
    `{!∀ x, Decision (P x), !∀ x, Decision (Q x)} (l : list A) :
  filter Q (filter P l) = filter (λ x, P x ∧ Q x) l.
Proof.
  induction l as [|a l IH]; [done|]. rewrite !filter_cons.
  destruct (decide (P a)) as [Hp|Hp].
  - rewrite filter_cons. destruct (decide (Q a)) as [Hq|Hq].
    + rewrite decide_True by done. by rewrite IH.
    + rewrite decide_False by tauto. done.
  - rewrite decide_False by tauto. done.
Qed.

(** X16. The two filters of [ProductQuerySet] chain in either order with
    the same outcome, and applying a filter twice changes nothing.  With
    bounds whose decimals fit the column the chain never fails and gives the
    products of the query set, in their order, that are in stock, active and
    priced within the decimals of the bounds; and when the decimal of the
    upper bound is below that of the lower one the range is empty. *)
Theorem available_priced_between_chain
    (db : database) (self : list row) (low high : Q) :
  (priced_between db self low high ≫= available db)
  = (available db self ≫= λ qs, priced_between db qs low high)
  ∧ (available db self ≫= available db) = available db self
  ∧ (priced_between db self low high ≫= λ qs, priced_between db qs low high)
    = priced_between db self low high
  ∧ (decimal_fits 10 2 (price_bound low) = true →
     decimal_fits 10 2 (price_bound high) = true →
     (available db self ≫= λ qs, priced_between db qs low high)
     = Ok (filter (λ r, in_stock_and_active r
                        ∧ priced_within (price_bound low) (price_bound high) r) self)
     ∧ ((price_bound high < price_bound low)%Q →
        priced_between db self low high = Ok [])).
Proof.
  rewrite !available_filter, !priced_between_cases. cbn [mbind result_bind].
  rewrite !available_filter, !priced_between_cases.
  destruct (decimal_fits 10 2 (price_bound low) && decimal_fits 10 2 (price_bound high))
    eqn:E; cbn [mbind result_bind].
  2:{ split; [done|]. split.
      { rewrite filter_filter_and. f_equal. apply list_filter_iff. intros r. tauto. }
      split; [done|]. intros Hl Hh. by rewrite Hl, Hh in E. }
  rewrite !available_filter, !priced_between_cases, E.
  split.
  { rewrite !filter_filter_and. f_equal. apply list_filter_iff. intros r. tauto. }
  split.
  { rewrite filter_filter_and. f_equal. apply list_filter_iff. intros r. tauto. }
  split.
  { rewrite filter_filter_and. f_equal. apply list_filter_iff. intros r. tauto. }
  intros _ _. split; [by rewrite filter_filter_and|].
  intros Hlt. f_equal. apply elem_of_nil_inv.
  intros r [(p & _ & H1 & H2) _]%list_elem_of_filter.
  apply (Qlt_not_le _ _ Hlt). by apply (Qle_trans _ p).
Qed.

Lemma available_priced_between_chain_witness :
  (available empty_db
     [product_at 1 (999 # 100); product_at 2 10; product_at 3 (1999 # 100)]
   ≫= λ qs, priced_between empty_db qs (binary64 (999 # 100)) (binary64 (1999 # 100)))
  = Ok (filter (λ r, in_stock_and_active r
                     ∧ priced_within (price_bound (binary64 (999 # 100)))
                                     (price_bound (binary64 (1999 # 100))) r)
          [product_at 1 (999 # 100); product_at 2 10; product_at 3 (1999 # 100)])
  ∧ ((price_bound (binary64 (1999 # 100)) < price_bound (binary64 (999 # 100)))%Q →
     priced_between empty_db
       [product_at 1 (999 # 100); product_at 2 10; product_at 3 (1999 # 100)]
       (binary64 (999 # 100)) (binary64 (1999 # 100)) = Ok []).
Proof.
  exact (proj2 (proj2 (proj2
           (available_priced_between_chain empty_db
              [product_at 1 (999 # 100); product_at 2 10; product_at 3 (1999 # 100)]
              (binary64 (999 # 100)) (binary64 (1999 # 100)))))
           eq_refl eq_refl).
Defined.

(** What [with_rating] adds to a row. *)
Definition rated (db : database) (r : row) : row :=
  set_attr "review_count"
    (VInt (Z.of_nat (length (remove_dups (non_null (map pk_of (reviews_of db r)))))))
    (set_attr "avg_rating"
       (mean (omap to_Q (map (λ rv, attr rv "rating") (reviews_of db r)))) r).

Lemma with_rating_map db self :
  (∀ r, r ∈ self → pk_of r ≠ VNone) →
  with_rating db self = Ok (map (rated db) self).
Proof.
  intros Hkeys. unfold with_rating, annotate.
  induction self as [|r self IH]; [done|].
  cbn [mapM_result map].
  rewrite annotate_row_with_rating by (apply Hkeys; left).
  rewrite IH by (intros; apply Hkeys; by right). done.
Qed.

Lemma filter_map_iff {A} (g : A → A) (P : A → Prop) `{!∀ x, Decision (P x)} (l : list A) :
  (∀ x, P (g x) ↔ P x) → filter P (map g l) = map g (filter P l).
Proof.
  intros Hg. induction l as [|a l IH]; [done|].
  cbn [map]. rewrite !filter_cons.
  destruct (decide (P (g a))) as [Hp|Hp], (decide (P a)) as [Hq|Hq].
  - cbn [map]. by rewrite IH.
  - exfalso. apply Hq. by apply Hg.
  - exfalso. apply Hp. by apply Hg.
  - exact IH.
Qed.

Lemma rated_attr db r a :
  a ≠ "review_count" → a ≠ "avg_rating" → attr (rated db r) a = attr r a.
Proof. intros. unfold rated. by rewrite !attr_set_attr_ne. Qed.

(** X17. Rating and filtering commute: on products with a key, filtering
    the rated products by availability or by price gives the same rows,
    with the same ratings, as rating the filtered products.  The ratings of
    a product do not depend on which other products the query set holds. *)
Theorem with_rating_commutes_with_filters
    (db : database) (self : list row) (low high : Q) :
  (∀ r, r ∈ self → pk_of r ≠ VNone) →
  (with_rating db self ≫= available db) = (available db self ≫= with_rating db)
  ∧ (with_rating db self ≫= λ qs, priced_between db qs low high)
    = (priced_between db self low high ≫= with_rating db)
  ∧ (available db self ≫= with_rating db)
    = Ok (map (rated db) (filter in_stock_and_active self)).
Proof.
  intros Hkeys.
  assert (Hsub : ∀ (P : row → Prop) `{!∀ x, Decision (P x)} r,
            r ∈ filter P self → pk_of r ≠ VNone).
  { intros P ? r [_ ?]%list_elem_of_filter. by apply Hkeys. }
  rewrite available_filter, priced_between_cases, with_rating_map by done.
  cbn [mbind result_bind].
  rewrite available_filter, priced_between_cases, !with_rating_map by (by apply Hsub).
  split; [|split; [|done]].
  - f_equal. apply filter_map_iff. intros r.
    unfold in_stock_and_active. by rewrite !rated_attr.
  - destruct (decimal_fits 10 2 (price_bound low) && decimal_fits 10 2 (price_bound high));
      cbn [mbind result_bind]; [|done].
    rewrite with_rating_map by (by apply Hsub).
    f_equal. apply filter_map_iff. intros r.
    unfold priced_within. by rewrite !rated_attr.
Qed.


Lemma db_prep_int f z x :
  f_type f = PositiveIntegerField → db_prep f (VInt z) = Ok x → x = VInt z.
Proof.
  unfold db_prep, to_python. intros ->. cbn [integer_field_range].
  case_bool_decide; [by intros [= <-] | discriminate].
Qed.

(** X18. A product that is created without [is_active] is offered by
    [available()] exactly when it was given a stock above 0.  Up to the
    order of the rows, which follows [Meta.ordering]: created without
    [stock_quantity], or with 0, it leaves the available products as they
    were; created with a positive stock, it joins them. *)
Theorem created_Product_available
    (db db' : database) (kwargs : row) (now : Z) (pk : value) :
  create db Product kwargs now = (db', Ok pk) →
  get kwargs "is_active" = None →
  ∃ r before after,
    pk_of r = pk
    ∧ objects db' Product ≡ₚ r :: objects db Product
    ∧ available db (objects db Product) = Ok before
    ∧ available db' (objects db' Product) = Ok after
    ∧ (get kwargs "stock_quantity" = None ∨ get kwargs "stock_quantity" = Some (VInt 0) →
         after ≡ₚ before)
    ∧ (∀ n, get kwargs "stock_quantity" = Some (VInt n) → 0 < n →
         after ≡ₚ r :: before).
Proof.
  intros Hcreate Hactive.
  destruct (create_inv _ _ _ _ _ _ Hcreate) as (r & Htab & _ & Hpk & Hcols).
  exists r, (filter in_stock_and_active (objects db Product)),
    (filter in_stock_and_active (objects db' Product)).
  split; [done|].
  pose proof (Hcols (Field "is_active" BooleanField
                       [default_ (Value (VBool true)); db_index true])
                ltac:(concrete_field) ltac:(done)) as Hact.
  rewrite given_default in Hact by done. injection Hact as Hact.
  pose proof (Hcols (Field "stock_quantity" PositiveIntegerField
                       [default_ (Value (VInt 0)); db_index true])
                ltac:(concrete_field) ltac:(done)) as Hstock.
  cbn [attname remote_model f_type f_name] in Hact, Hstock.
  rewrite !available_filter. unfold objects. rewrite Htab, filter_app.
  split; [symmetry; apply Permutation_cons_append|].
  split; [done|]. split; [done|]. split.
  - intros Hkw. rewrite filter_cons_False, filter_nil, app_nil_r; [done|].
    intros [(n & Hn & Hpos) _].
    assert (attr r "stock_quantity" = VInt 0) as H0; [|rewrite H0 in Hn; simplify_eq; lia].
    destruct Hkw as [Hkw|Hkw].
    + rewrite given_default in Hstock by done. by injection Hstock.
    + rewrite (given_kwarg _ _ _ _ (VInt 0)) in Hstock by done. by injection Hstock.
  - intros n Hkw Hpos. rewrite filter_cons_True, filter_nil.
    { symmetry. apply Permutation_cons_append. }
    rewrite (given_kwarg _ _ _ _ (VInt n)) in Hstock by done.
    apply db_prep_int in Hstock; [|done].
    cbn [attname remote_model f_type f_name] in Hstock.
    unfold in_stock_and_active. rewrite Hstock, <- Hact. eauto.
Qed.

(** ** Validation and the tables disagree *)

Lemma field_names_distinct m : NoDup (map f_name (concrete_fields m)).
Proof. destruct m; vm_compute; apply (bool_decide_unpack _); vm_compute; exact I. Qed.

Lemma field_not_called_all m f : f ∈ concrete_fields m → f_name f ≠ "__all__".
Proof.
  intros Hf. destruct m; vm_compute in Hf;
    repeat (apply elem_of_cons in Hf as [->|Hf]; [discriminate|]);
    by apply elem_of_nil in Hf.
Qed.

Section Blank.
Variable validate_email : string → bool.

(** X19. [blank=True] without [null=True]: an instance that holds [None]
    in such a field ([description], [phone], [comment], ...) passes
    validation as far as the field goes, since [clean_fields] skips a blank
    field that is empty; but the column is [NOT NULL], and saving the
    instance fails and writes nothing. *)
Theorem blank_None_validated_not_saved
    (db : database) (m : model) (adding : bool) (r : row) (now : Z) (f : field) :
  f ∈ concrete_fields m →
  is_blank f = true → is_null f = false →
  f ≠ id_field → is_auto_now f || is_auto_now_add f = false →
  attr r (attname f) = VNone →
  (∀ code, ValidationError (f_name f) code ∉ full_clean validate_email db m adding r)
  ∧ ∃ e, insert db m r now = (db, Err e).
Proof.
  intros Hf Hblank Hnull Hid Hauto Hnone. split.
  - intros code. unfold full_clean. rewrite !elem_of_app.
    assert (Hsame : ∀ f', f' ∈ concrete_fields m → f_name f' = f_name f → f' = f).
    { intros f' Hf' Heq.
      by apply (NoDup_map_elem_eq f_name (concrete_fields m));
        [apply field_names_distinct|..]. }
    intros [Hin|[Hin|Hin]].
    + unfold clean_fields in Hin. apply list_elem_of_bind in Hin as (f' & Hin & Hf').
      cbn zeta in Hin.
      destruct (is_blank f' && empty_value (attr r (attname f'))) eqn:E.
      { by apply elem_of_nil in Hin. }
      apply elem_of_map in Hin as (c & [= Heq _] & _).
      rewrite (Hsame f' Hf' (eq_sym Heq)), Hblank, Hnone in E. discriminate.
    + unfold validate_unique in Hin. apply list_elem_of_bind in Hin as (f' & Hin & Hf').
      destruct (is_unique f' && _ && _ && negb (bool_decide (attr r (attname f') = VNone))
                && _) eqn:E; [|by apply elem_of_nil in Hin].
      apply list_elem_of_singleton in Hin as [= Heq _].
      rewrite (Hsame f' Hf' (eq_sym Heq)) in E.
      rewrite (bool_decide_eq_true_2 _ Hnone) in E.
      cbn [negb] in E. by rewrite andb_false_r in E.
    + unfold validate_constraints in Hin.
      apply list_elem_of_bind in Hin as ([names cname] & Hin & _).
      case_match; [|by apply elem_of_nil in Hin].
      apply list_elem_of_singleton in Hin as [= Heq _].
      by apply (field_not_called_all m f).
  - destruct (insert db m r now) as [db' [pk|e]] eqn:E.
    2:{ apply insert_inv in E as [(e' & _ & ->)|(? & ? & _ & _ & _ & [=] & _)]. eauto. }
    exfalso.
    apply insert_inv in E as [(e' & [=] & _)|(r1 & r2 & Hprep & -> & Hint & _ & _)].
    apply integrity_error_None in Hint as [Hfields _].
    destruct (Hfields f Hf) as (Hnn & _).
    pose proof (db_prep_row_attr _ _ _ f Hprep (attnames_distinct m) Hf) as Hcol.
    rewrite attr_pre_save, Hauto, Hnone in Hcol by done.
    assert (attr r1 (attname f) = VNone) as Hr1.
    { unfold db_prep, to_python in Hcol.
      by destruct (f_type f); simpl in Hcol; injection Hcol. }
    unfold not_null_error in Hnn.
    rewrite attr_assign_id, decide_False, Hr1, Hnull in Hnn; [discriminate|].
    intros [_ Heq]. apply Hid.
    by apply (concrete_field_eq m); [|apply id_field_concrete|].
Qed.

End Blank.


Section Validators.
Variable validate_email : string → bool.

Lemma clean_fields_error db m adding r f code :
  f ∈ concrete_fields m →
  is_blank f && empty_value (attr r (attname f)) = false →
  code ∈ clean validate_email db f (attr r (attname f)) →
  ValidationError (f_name f) code ∈ full_clean validate_email db m adding r.
Proof.
  intros Hf Hblank Hcode. unfold full_clean. apply elem_of_app. left.
  unfold clean_fields. apply list_elem_of_bind. exists f. split; [|done].
  cbn zeta. rewrite Hblank. apply elem_of_map. eauto.
Qed.

Lemma create_Product_negative_stock db name price c stock now :
  int32 c → decimal_fits 10 2 price = true → (String.length name ≤ 200)%nat →
  stock < 0 → int32 stock →
  create db Product (product name price c stock) now
  = (db, Err (IntegrityError Check "stock_quantity")).
Proof.
  intros Rc Hprice Hname Hs Rs.
  unfold create, insert. eval_fields Product. eval_init.
  unfold pre_save. simpl. unfold db_prep, attr, attname. simpl.
  rewrite Hprice, (bool_decide_eq_true_2 (_ ≤ c ≤ _)) by done.
  rewrite (bool_decide_eq_true_2 (_ ≤ stock ≤ _)) by done.
  rewrite (bool_decide_eq_false_2 (200 < _)%nat) by lia. simpl.
  unfold integrity_error. eval_fields Product. simpl.
  unfold not_null_error, check_error, unique_error, foreign_key_error, attr, attname.
  simpl.
  by rewrite (bool_decide_eq_true_2 (stock < 0)) by lia.
Qed.

(** X20. The sign of a price and the sign of a stock are not guarded
    alike.  A negative [price] is refused by validation only
    ([MinValueValidator(0)]): [create] stores it.  A negative
    [stock_quantity] is refused by validation and by the table, whose
    [PositiveIntegerField] column carries a check. *)
Theorem Product_price_validated_stock_checked
    (db : database) (name : string) (price : Q) (c stock now : Z) :
  exists_pk db Category c → int32 c → decimal_fits 10 2 price = true →
  (String.length name ≤ 200)%nat → int32 stock → products_named db name c = [] →
  ((price < 0)%Q →
     ValidationError "price" "min_value"
     ∈ full_clean validate_email db Product true (init Product (product name price c stock) now))
  ∧ (0 ≤ stock →
     ∃ db', create db Product (product name price c stock) now
            = (db', Ok (VInt (next_id db Product)))
          ∧ map (λ p, attr p "price") (table db' Product)
            = map (λ p, attr p "price") (table db Product) ++ [VDecimal price])
  ∧ (stock < 0 →
     ValidationError "stock_quantity" "min_value"
     ∈ full_clean validate_email db Product true (init Product (product name price c stock) now)
     ∧ create db Product (product name price c stock) now
       = (db, Err (IntegrityError Check "stock_quantity"))).
Proof.
  intros Hc Rc Hprice Hname Rs Hnew. split; [|split].
  - intros Hneg.
    apply (clean_fields_error db Product true _
             (Field "price" DecimalField
                [max_digits 10; decimal_places 2; validators [MinValueValidator 0]]));
      [concrete_field | done |].
    eval_init. unfold clean, attr, attname. simpl.
    assert (Qltb price (inject_Z 0) = true) as ->.
    { unfold Qltb. apply negb_true_iff. apply not_true_is_false.
      intros H%Qle_bool_iff. by apply (Qlt_not_le _ _ Hneg). }
    left.
  - intros Hs. eexists. split.
    + rewrite create_Product by done. by rewrite decide_True.
    + by rewrite table_set_table_eq, map_app.
  - intros Hs. split; [|by apply create_Product_negative_stock].
    apply (clean_fields_error db Product true _
             (Field "stock_quantity" PositiveIntegerField
                [default_ (Value (VInt 0)); db_index true]));
      [concrete_field | done |].
    eval_init. unfold clean, attr, attname. simpl.
    rewrite Qltb_inject_Z, (bool_decide_eq_true_2 (stock < 0)) by done.
    left.
Qed.

End Validators.


(** ** The properties at work in the small shop *)

(** The shop with a supplier that is the main supplier of a second category
    and supplies the product. *)
Definition shop_supplied : database :=
  let db := (create shop Supplier (kwargs [("company_name", VStr "Paper Ltd")]) 103).1 in
  let db := (create db Category
               (kwargs [("name", VStr "Maps"); ("main_supplier_id", VInt 1)]) 104).1 in
  (create db ProductSupplier
     (kwargs [("product_id", VInt 1); ("supplier_id", VInt 1);
              ("purchase_price", VDecimal (5 # 1))]) 105).1.

(** The same shop after the supplier was deleted. *)
Definition shop_unsupplied : database := (delete shop_supplied Supplier (VInt 1)).1.

Lemma delete_refused_iff_protecting_witness :
  (∃ m' f, delete shop_ordered Product (VInt 1)
           = (shop_ordered, Err (ProtectedError m' (f_name f)))
           ∧ (m', f) ∈ related_objects Product ∧ get_on_delete f = Some PROTECT)
  ∧ ∃ db' n, delete shop_reviewed Product (VInt 1) = (db', Ok n).
Proof.
  split.
  - apply (proj1 (delete_refused_iff_protecting shop_ordered Product (VInt 1)
                    ltac:(discriminate))).
    exists OrderItem,
      (Field "product" (ForeignKey Product) [on_delete PROTECT; related_name "order_items"]),
      (List.hd [] (table shop_ordered OrderItem)).
    split; [vm_compute; do 3 right; left|]. split; [reflexivity|].
    split; [vm_compute; left | vm_compute; reflexivity].
  - apply (proj2 (delete_refused_iff_protecting shop_reviewed Product (VInt 1)
                    ltac:(discriminate))).
    intros (m' & f & r & Hrel & Hd & Hr & _).
    relations Hrel; try discriminate Hd.
    vm_compute in Hr. by apply elem_of_nil in Hr.
Defined.

Lemma delete_leaves_no_reference_witness :
  (∀ r, r ∈ table shop_unsupplied Supplier → pk_of r ≠ VInt 1)
  ∧ (∀ m' f r, f ∈ fields m' → remote_model f = Some Supplier →
       r ∈ table shop_unsupplied m' → attr r (attname f) ≠ VInt 1).
Proof.
  apply (delete_leaves_no_reference shop_supplied shop_unsupplied Supplier (VInt 1) 2).
  vm_compute. reflexivity.
Defined.


(** The calls that built it, one of them refused. *)
Definition shop_calls : list call :=
  [ Create Category (kwargs [("name", VStr "Books")]) 100;
    Create Product
      (kwargs [("name", VStr "Novel"); ("price", VDecimal (999 # 100));
               ("category_id", VInt 1); ("stock_quantity", VInt 5)]) 101;
    Create Customer
      (kwargs [("first_name", VStr "Ada"); ("last_name", VStr "Lovelace");
               ("email", VStr "ada@example.org")]) 102;
    Create Category (kwargs [("name", VStr "Books")]) 103;
    Create Supplier (kwargs [("company_name", VStr "Paper Ltd")]) 103;
    Create Category (kwargs [("name", VStr "Maps"); ("main_supplier_id", VInt 1)]) 104;
    Create ProductSupplier
      (kwargs [("product_id", VInt 1); ("supplier_id", VInt 1);
               ("purchase_price", VDecimal (5 # 1))]) 105;
    Delete Supplier (VInt 1) ].

Lemma history_references_resolve_witness : references_resolve shop_unsupplied.
Proof.
  apply (history_references_resolve shop_calls shop_unsupplied).
  vm_compute. reflexivity.
Defined.

Lemma history_columns_hold_witness :
  columns_hold shop_unsupplied
  ∧ ∀ p, p ∈ table shop_unsupplied Product →
      ∃ n, attr p "stock_quantity" = VInt n ∧ 0 ≤ n.
Proof.
  apply (history_columns_hold shop_calls shop_unsupplied).
  vm_compute. reflexivity.
Defined.

Lemma history_unique_witness :
  NoDup (map pk_of (table shop_unsupplied Category))
  ∧ (∀ r, r ∈ table shop_unsupplied Category → pk_of r ≠ VNone)
  ∧ (∀ f r1 r2, f ∈ concrete_fields Category → is_unique f = true →
       r1 ∈ table shop_unsupplied Category → r2 ∈ table shop_unsupplied Category →
       attr r1 (attname f) ≠ VNone →
       attr r1 (attname f) = attr r2 (attname f) → r1 = r2)
  ∧ (∀ names cname r1 r2, UniqueConstraint names cname ∈ constraints Category →
       r1 ∈ table shop_unsupplied Category → r2 ∈ table shop_unsupplied Category →
       VNone ∉ key_of Category names r1 →
       key_of Category names r1 = key_of Category names r2 → r1 = r2).
Proof.
  apply (history_unique shop_calls shop_unsupplied Category).
  vm_compute. reflexivity.
Defined.

Lemma delete_only_nullifies_witness :
  NoDup (map pk_of (table shop_unsupplied Category))
  ∧ ∀ r', r' ∈ table shop_unsupplied Category →
      ∃ r, r ∈ table shop_supplied Category ∧ pk_of r' = pk_of r
         ∧ ∀ a, attr r' a = attr r a
                ∨ (attr r' a = VNone ∧ attr r a = VInt 1
                   ∧ ∃ f, f ∈ fields Category ∧ remote_model f = Some Supplier
                          ∧ get_on_delete f = Some SET_NULL ∧ a = attname f).
Proof.
  apply (delete_only_nullifies shop_supplied shop_unsupplied Supplier (VInt 1) 2 Category).
  - vm_compute. reflexivity.
  - apply (bool_decide_unpack _). vm_compute. exact I.
Defined.

Lemma delete_Category_protected_by_products_witness :
  delete shop_two_categories Category (VInt 1)
  = (shop_two_categories, Err (ProtectedError Product "category"))
  ∧ ∃ db' n, delete shop_two_categories Category (VInt 2) = (db', Ok n)
      ∧ table db' Category
        = filter (λ c, pk_of c ≠ VInt 2) (table shop_two_categories Category)
      ∧ ∀ m, m ≠ Category → table db' m = table shop_two_categories m.
Proof.
  split.
  - apply (proj1 (delete_Category_protected_by_products shop_two_categories 1)).
    exists (List.hd [] (table shop_two_categories Product)).
    split; [vm_compute; left | vm_compute; reflexivity].
  - apply (proj2 (delete_Category_protected_by_products shop_two_categories 2)).
    intros p Hp. vm_compute in Hp.
    repeat (apply elem_of_cons in Hp as [->|Hp]; [vm_compute; discriminate|]).
    by apply elem_of_nil in Hp.
Defined.

Lemma delete_Order_frees_Product_witness :
  ∃ db1 n1,
    delete shop_ordered Order (VInt 1) = (db1, Ok n1)
    ∧ (∀ item, item ∈ table db1 OrderItem → attr item "order_id" ≠ VInt 1)
    ∧ (∀ m, m ∉ [Order; OrderItem] → table db1 m = table shop_ordered m)
    ∧ ((∃ item, item ∈ table shop_ordered OrderItem ∧ attr item "product_id" = VInt 1) →
       delete shop_ordered Product (VInt 1)
       = (shop_ordered, Err (ProtectedError OrderItem "product")))
    ∧ ∃ db2 n2, delete db1 Product (VInt 1) = (db2, Ok n2).
Proof.
  apply (delete_Order_frees_Product shop_ordered 1 1).
  intros item Hitem _. vm_compute in Hitem.
  repeat (apply elem_of_cons in Hitem as [->|Hitem]; [vm_compute; reflexivity|]).
  by apply elem_of_nil in Hitem.
Defined.

Lemma delete_Customer_protected_by_orders_witness :
  delete shop_ordered Customer (VInt 1)
  = (shop_ordered, Err (ProtectedError Order "customer"))
  ∧ ∃ db' n, delete shop_reviewed Customer (VInt 1) = (db', Ok n)
      ∧ table db' Customer
        = filter (λ c, pk_of c ≠ VInt 1) (table shop_reviewed Customer)
      ∧ (∀ rv, rv ∈ table db' Review → attr rv "customer_id" ≠ VInt 1)
      ∧ (NoDup (map pk_of (table shop_reviewed Review)) →
         table db' Review
         = filter (λ rv, attr rv "customer_id" ≠ VInt 1) (table shop_reviewed Review))
      ∧ ∀ m, m ∉ [Customer; Review] → table db' m = table shop_reviewed m.
Proof.
  split.
  - apply (proj1 (delete_Customer_protected_by_orders shop_ordered 1)).
    exists (List.hd [] (table shop_ordered Order)).
    split; [vm_compute; left | vm_compute; reflexivity].
  - apply (proj2 (delete_Customer_protected_by_orders shop_reviewed 1)).
    intros o Ho. vm_compute in Ho. by apply elem_of_nil in Ho.
Defined.

Lemma delete_counts_rows_witness :
  size shop_supplied = (size shop_unsupplied + 2)%nat
  ∧ ((∃ r, r ∈ table shop_supplied Supplier ∧ pk_of r = VInt 1) → (0 < 2)%nat).
Proof.
  apply (delete_counts_rows shop_supplied shop_unsupplied Supplier (VInt 1) 2).
  vm_compute. reflexivity.
Defined.

Lemma create_sets_timestamps_witness :
  ∃ r, table shop_two_categories Category = table shop Category ++ [r]
     ∧ pk_of r = VInt 2
     ∧ (∀ f, f ∈ concrete_fields Category → is_auto_now f || is_auto_now_add f = true →
          attr r (attname f) = VDateTime 103)
     ∧ (Category ∉ [User; ProductTag] →
          attr r "created_at" = VDateTime 103 ∧ attr r "updated_at" = VDateTime 103).
Proof.
  apply (create_sets_timestamps shop shop_two_categories Category
           (kwargs [("name", VStr "Maps")]) 103 (VInt 2)).
  vm_compute. reflexivity.
Defined.

(** A product that is created without a stock, and one with a stock of 3. *)
Definition atlas : row :=
  kwargs [("name", VStr "Atlas"); ("price", VDecimal (1999 # 100)); ("category_id", VInt 2)].

Definition shop_with_atlas : database := (create shop_two_categories Product atlas 104).1.

Definition shop_with_atlas_in_stock : database :=
  (create shop_two_categories Product (product "Atlas" (1999 # 100) 2 3) 104).1.

Lemma create_fills_defaults_witness :
  ∃ r, table shop_with_atlas Product = table shop_two_categories Product ++ [r]
     ∧ pk_of r = VInt 2
     ∧ (Product ∈ tracked_models → get atlas "is_active" = None →
          attr r "is_active" = VBool true)
     ∧ (Product = Product → get atlas "stock_quantity" = None →
          attr r "stock_quantity" = VInt 0)
     ∧ (Product = ProductSupplier → get atlas "delivery_days" = None →
          attr r "delivery_days" = VInt 0)
     ∧ (Product = Customer →
          (get atlas "registration_date" = None →
             attr r "registration_date" = VDateTime 104)
          ∧ ∀ t, get atlas "registration_date" = Some (VDateTime t) →
                 attr r "registration_date" = VDateTime t)
     ∧ (Product = Order →
          (get atlas "order_date" = None → attr r "order_date" = VDateTime 104)
          ∧ ∀ t, get atlas "order_date" = Some (VDateTime t) →
                 attr r "order_date" = VDateTime t).
Proof.
  apply (create_fills_defaults shop_two_categories shop_with_atlas Product atlas 104 (VInt 2)).
  vm_compute. reflexivity.
Defined.

Lemma with_rating_commutes_with_filters_witness :
  (with_rating shop_reviewed (objects shop_reviewed Product) ≫= available shop_reviewed)
  = (available shop_reviewed (objects shop_reviewed Product) ≫= with_rating shop_reviewed)
  ∧ (with_rating shop_reviewed (objects shop_reviewed Product)
       ≫= λ qs, priced_between shop_reviewed qs 5 10)
    = (priced_between shop_reviewed (objects shop_reviewed Product) 5 10
         ≫= with_rating shop_reviewed)
  ∧ (available shop_reviewed (objects shop_reviewed Product) ≫= with_rating shop_reviewed)
    = Ok (map (rated shop_reviewed)
            (filter in_stock_and_active (objects shop_reviewed Product))).
Proof.
  apply (with_rating_commutes_with_filters shop_reviewed (objects shop_reviewed Product) 5 10).
  intros r Hr. vm_compute in Hr.
  repeat (apply elem_of_cons in Hr as [->|Hr]; [vm_compute; discriminate|]).
  by apply elem_of_nil in Hr.
Defined.

Lemma created_Product_available_witness :
  (∃ r before after,
     pk_of r = VInt 2
     ∧ objects shop_with_atlas Product ≡ₚ r :: objects shop_two_categories Product
     ∧ available shop_two_categories (objects shop_two_categories Product) = Ok before
     ∧ available shop_with_atlas (objects shop_with_atlas Product) = Ok after
     ∧ (get atlas "stock_quantity" = None ∨ get atlas "stock_quantity" = Some (VInt 0) →
          after ≡ₚ before)
     ∧ (∀ n, get atlas "stock_quantity" = Some (VInt n) → 0 < n → after ≡ₚ r :: before))
  ∧ get atlas "stock_quantity" = None
  ∧ get (product "Atlas" (1999 # 100) 2 3) "stock_quantity" = Some (VInt 3)
  ∧ ∃ r before after,
      pk_of r = VInt 2
      ∧ objects shop_with_atlas_in_stock Product ≡ₚ r :: objects shop_two_categories Product
      ∧ available shop_two_categories (objects shop_two_categories Product) = Ok before
      ∧ available shop_with_atlas_in_stock (objects shop_with_atlas_in_stock Product)
        = Ok after
      ∧ (get (product "Atlas" (1999 # 100) 2 3) "stock_quantity" = None
         ∨ get (product "Atlas" (1999 # 100) 2 3) "stock_quantity" = Some (VInt 0) →
           after ≡ₚ before)
      ∧ (∀ n, get (product "Atlas" (1999 # 100) 2 3) "stock_quantity" = Some (VInt n) →
           0 < n → after ≡ₚ r :: before).
Proof.
  split; [|split; [reflexivity|split; [reflexivity|]]].
  - apply (created_Product_available shop_two_categories shop_with_atlas atlas 104 (VInt 2)).
    + vm_compute. reflexivity.
    + reflexivity.
  - apply (created_Product_available shop_two_categories shop_with_atlas_in_stock
             (product "Atlas" (1999 # 100) 2 3) 104 (VInt 2)).
    + vm_compute. reflexivity.
    + reflexivity.
Defined.

(** A category whose description is [None]. *)
Definition undescribed : row :=
  init Category (kwargs [("name", VStr "Maps"); ("description", VNone)]) 103.

Lemma blank_None_validated_not_saved_witness :
  (∀ code, ValidationError "description" code
           ∉ full_clean (λ _, true) shop Category true undescribed)
  ∧ ∃ e, insert shop Category undescribed 103 = (shop, Err e).
Proof.
  apply (blank_None_validated_not_saved (λ _, true) shop Category true undescribed 103
           (Field "description" TextField [blank true])).
  - vm_compute. do 6 right. left.
  - reflexivity.
  - reflexivity.
  - discriminate.
  - reflexivity.
  - reflexivity.
Defined.

Lemma Product_price_validated_stock_checked_witness :
  ValidationError "price" "min_value"
  ∈ full_clean (λ _, true) shop Product true (init Product (product "Atlas" (-1) 1 3) 104)
  ∧ (∃ db', create shop Product (product "Atlas" (-1) 1 3) 104
            = (db', Ok (VInt (next_id shop Product)))
          ∧ map (λ p, attr p "price") (table db' Product)
            = map (λ p, attr p "price") (table shop Product) ++ [VDecimal (-1)])
  ∧ ValidationError "stock_quantity" "min_value"
    ∈ full_clean (λ _, true) shop Product true (init Product (product "Atlas" 5 1 (-3)) 104)
  ∧ create shop Product (product "Atlas" 5 1 (-3)) 104
    = (shop, Err (IntegrityError Check "stock_quantity")).
Proof.
  assert (Hc : exists_pk shop Category 1) by (vm_compute; discriminate).
  assert (Hnew : products_named shop "Atlas" 1 = []) by (vm_compute; reflexivity).
  split; [|split].
  - apply (proj1 (Product_price_validated_stock_checked (λ _, true) shop "Atlas" (-1) 1 3 104
                    Hc ltac:(unfold int32; lia) eq_refl ltac:(simpl; lia)
                    ltac:(unfold int32; lia) Hnew)).
    reflexivity.
  - apply (proj1 (proj2 (Product_price_validated_stock_checked (λ _, true) shop "Atlas"
                    (-1) 1 3 104
                    Hc ltac:(unfold int32; lia) eq_refl ltac:(simpl; lia)
                    ltac:(unfold int32; lia) Hnew))).
    lia.
  - apply (proj2 (proj2 (Product_price_validated_stock_checked (λ _, true) shop "Atlas"
                    5 1 (-3) 104
                    Hc ltac:(unfold int32; lia) eq_refl ltac:(simpl; lia)
                    ltac:(unfold int32; lia) Hnew))).
    lia.
Defined.


(** ** Related names *)

(** X21. Every [related_name] of the module resolves: seen from the model
    a relation points to, the name leads back to the rows that refer to it,
    [created_%(class)s] giving each tracked model its own name on [User];
    and the many-to-many field [Product.suppliers] and its reverse
    [Supplier.products] both go through [ProductSupplier]. *)
Theorem related_names_resolve :
  (∀ m m' f, (m', f) ∈ related_objects m →
     get_field m (related_query_name m' f) = Some (Relation [Reverse m' (attname f)] m'))
  ∧ map (λ m, related_query_name m
                (Field "created_by" (ForeignKey User)
                   [on_delete SET_NULL; null true; blank true;
                    related_name ("created_" +:+ model_name m)]))
        tracked_models
    = ["created_category"; "created_supplier"; "created_product";
       "created_customer"; "created_order"]
  ∧ get_field Product "suppliers"
    = Some (Relation [Reverse ProductSupplier "product_id"; Forward "supplier_id" Supplier]
              Supplier)
  ∧ get_field Supplier "products"
    = Some (Relation [Reverse ProductSupplier "supplier_id"; Forward "product_id" Product]
              Product).
Proof.
  split; [|by vm_compute].
  intros m m' f Hrel. destruct m; relations Hrel; reflexivity.
Qed.


(** ** Unique columns, at both levels *)

Lemma db_prep_kept f v x :
  to_python f true v = Some v → db_prep f v = Ok x → x = v.
Proof.
  unfold db_prep. intros ->.
  destruct v; repeat case_match; intros; simplify_eq; done.
Qed.

Section Unique.
Variable validate_email : string → bool.

(** X22. A value that a stored row already holds in a unique column
    ([Category.name], [Supplier.company_name], [Tag.name],
    [Customer.email], the product of a [ProductDetail]) is refused twice: a
    new instance with the same value does not pass [full_clean], and saving
    it fails and writes nothing. *)
Theorem unique_value_refused
    (db : database) (m : model) (f : field) (r r0 : row) (now : Z) :
  f ∈ concrete_fields m → is_unique f = true → f ≠ id_field →
  is_auto_now f || is_auto_now_add f = false →
  attr r (attname f) ≠ VNone →
  to_python f true (attr r (attname f)) = Some (attr r (attname f)) →
  r0 ∈ table db m → attr r0 (attname f) = attr r (attname f) →
  full_clean validate_email db m true r ≠ []
  ∧ ∃ e, insert db m r now = (db, Err e).
Proof.
  intros Hf Hu Hid Hauto Hne Hty Hr0 Hsame.
  assert (Hdup : ∀ v, v = attr r (attname f) →
            filter (λ r', attr r' (attname f) = v) (table db m) ≠ []).
  { intros v -> Hnil. by apply (filter_nil_not_elem_of _ _ r0 Hnil). }
  split.
  - unfold full_clean.
    destruct (clean_fields validate_email db m r) as [|e es] eqn:E; [|done].
    cbn [mbind list_bind app]. intros Hnil.
    apply app_eq_nil in Hnil as [Hnil _].
    assert (ValidationError (f_name f) "unique" ∈ validate_unique db m true [] r) as Hin.
    2:{ rewrite Hnil in Hin. by apply elem_of_nil in Hin. }
    unfold validate_unique. apply list_elem_of_bind. exists f. split; [|done].
    rewrite Hu, (bool_decide_eq_false_2 (f_name f ∈ [])) by apply not_elem_of_nil.
    rewrite andb_false_r, (bool_decide_eq_false_2 _ Hne).
    cbn [others]. rewrite (bool_decide_eq_false_2 _ (Hdup _ eq_refl)). left.
  - destruct (insert db m r now) as [db' [pk|e]] eqn:E.
    2:{ apply insert_inv in E as [(e' & _ & ->)|(? & ? & _ & _ & _ & [=] & _)]. eauto. }
    exfalso.
    apply insert_inv in E as [(e' & [=] & _)|(r1 & r2 & Hprep & -> & Hint & _ & _)].
    apply integrity_error_None in Hint as [Hfields _].
    destruct (Hfields f Hf) as (_ & _ & Huniq & _).
    pose proof (db_prep_row_attr _ _ _ f Hprep (attnames_distinct m) Hf) as Hcol.
    rewrite attr_pre_save, Hauto in Hcol by done.
    apply db_prep_kept in Hcol; [|done].
    assert (attr (assign_id db m r1) (attname f) = attr r (attname f)) as Hr2.
    { rewrite attr_assign_id, decide_False; [done|].
      intros [_ Heq]. apply Hid.
      by apply (concrete_field_eq m); [|apply id_field_concrete|]. }
    unfold unique_error in Huniq. rewrite Hu, Hr2 in Huniq.
    rewrite (bool_decide_eq_false_2 _ Hne) in Huniq.
    rewrite (bool_decide_eq_false_2 _ (Hdup _ eq_refl)) in Huniq. discriminate.
Qed.

End Unique.

(** A second category called Books. *)
Definition second_books : row := init Category (kwargs [("name", VStr "Books")]) 103.

Lemma unique_value_refused_witness :
  full_clean (λ _, true) shop Category true second_books ≠ []
  ∧ ∃ e, insert shop Category second_books 103 = (shop, Err e).
Proof.
  apply (unique_value_refused (λ _, true) shop Category
           (Field "name" CharField [max_length 100; unique true; db_index true])
           second_books (List.hd [] (table shop Category)) 103).
  - vm_compute. do 5 right. left.
  - reflexivity.
  - discriminate.
  - reflexivity.
  - vm_compute. discriminate.
  - reflexivity.
  - vm_compute. left.
  - vm_compute. reflexivity.
Defined.
